(** * dns-tunnel: a two-tier DNS forwarder

    Shallow embedding of the query pipeline of the local resolver
    (cache, RPC client, envelope codec, record builder) and of the
    remote resolution service (cache, per-type record synthesis),
    with the properties of the specification proved or refuted over it;
    then of the code around them (the listener's request handler, the
    configuration of both tiers and the start-up, key handling, the
    API-key middleware), with the properties the code itself shows.

    Conventions.
    - Go's [int] is 64 bits wide; values of [uint32] are kept in [Z] and
      wrapped explicitly with [wrap32].
    - [time.Time] and [time.Duration] are integers, in nanoseconds.
    - Objects reached through pointers live in an explicit heap, so that
      aliasing between the caches and their callers is visible.
    - A function that can panic in Go returns [None] at the panic. *)

From Stdlib Require Import ZArith Lia List String Ascii.
From Stdlib.Strings Require Import Byte.
From stdpp Require Import gmap strings list fin_maps pretty.

Local Open Scope Z_scope.

(** ** Machine integers *)

Definition wrap32 (z : Z) : Z := z mod 2 ^ 32.

Lemma wrap32_range z : 0 <= wrap32 z < 2 ^ 32.
Proof. unfold wrap32. apply Z.mod_pos_bound. lia. Qed.


(** ** The RPC client: endpoint pool, selection policies, health probes
    (package client) *)

Module Client.

(** [Endpoint]: [Healthy] is an [atomic.Bool]; an endpoint is always used
    through a pointer, which the model renders as its index in the pool. *)
Record Endpoint := mkEndpoint {
  URL : string;
  APIKey : string;
  Weight : Z;
  Healthy : bool
}.

(** The fields of [Client] that selection reads and writes. *)
Record Client := mkClient {
  endpoints : list Endpoint;
  loadBalancing : string;
  currentIndex : Z
}.

Definition set_currentIndex (c : Client) (v : Z) : Client :=
  mkClient (endpoints c) (loadBalancing c) v.

Definition healthy_at (eps : list Endpoint) (idx : nat) : bool :=
  match eps !! idx with
  | Some ep => Healthy ep
  | None => false
  end.

(** The loop of [selectRoundRobin]: [fuel] iterations remain, [cur] is the
    counter.  [c.currentIndex.Add(1)] stores and returns the incremented
    counter; subtracting one (in [uint32]) gives back the value before. *)
Fixpoint rr_scan (eps : list Endpoint) (fuel : nat) (cur : Z) : option nat * Z :=
  match fuel with
  | O => (None, cur)
  | S fuel' =>
      let added := wrap32 (cur + 1) in
      let idx := Z.to_nat (wrap32 (added - 1) mod Z.of_nat (length eps)) in
      if healthy_at eps idx then (Some idx, added)
      else rr_scan eps fuel' added
  end.

Definition selectRoundRobin (c : Client) : option nat * Client :=
  let n := length (endpoints c) in
  match rr_scan (endpoints c) n (currentIndex c) with
  | (Some idx, cur) => (Some idx, set_currentIndex c cur)
  | (None, cur) =>
      if (0 <? Z.of_nat n) then (Some 0%nat, set_currentIndex c cur)
      else (None, set_currentIndex c cur)
  end.

Fixpoint failover_scan (eps : list Endpoint) (idx : nat) : option nat :=
  match eps with
  | [] => None
  | ep :: rest => if Healthy ep then Some idx else failover_scan rest (S idx)
  end.

Definition selectFailover (c : Client) : option nat * Client :=
  match failover_scan (endpoints c) 0 with
  | Some idx => (Some idx, c)
  | None =>
      if (0 <? Z.of_nat (length (endpoints c))) then (Some 0%nat, c)
      else (None, c)
  end.

Definition selectEndpoint (c : Client) : option nat * Client :=
  if String.eqb (loadBalancing c) "round_robin" then selectRoundRobin c
  else if String.eqb (loadBalancing c) "failover" then selectFailover c
  else selectRoundRobin c.

(** *** The retry loop of [Resolve] *)

Record DNSRecord := mkDNSRecord {
  Name : string;
  Type_ : string;
  Value : string;
  TTL : Z
}.

Record ResolveResponse := mkResolveResponse {
  Domain : string;
  Records : list DNSRecord;
  Cached : bool;
  Error : string
}.

Inductive ResolveError :=
| ErrEncryptionFailed
| ErrNoHealthyEndpoints
| ErrContext
| ErrAllAttemptsFailed.

Definition mark_unhealthy (c : Client) (idx : nat) : Client :=
  match endpoints c !! idx with
  | Some ep =>
      mkClient (<[idx := mkEndpoint (URL ep) (APIKey ep) (Weight ep) false]> (endpoints c))
               (loadBalancing c) (currentIndex c)
  | None => c
  end.

Section Resolve.
(** [doRequest idx attempt]: what the POST to endpoint [idx] yields on the
    given attempt ([None]: a transport error or a status other than
    200).  [cancelled attempt]: the context is done before the back-off
    after that attempt has elapsed. *)
Variable doRequest : nat -> nat -> option ResolveResponse.
Variable cancelled : nat -> bool.
Variable maxRetries : Z.

Fixpoint resolve_loop (fuel : nat) (attempt : nat) (c : Client)
  : (ResolveResponse + ResolveError) * Client :=
  match fuel with
  | O => (inr ErrAllAttemptsFailed, c)
  | S fuel' =>
      match selectEndpoint c with
      | (None, c1) => (inr ErrNoHealthyEndpoints, c1)
      | (Some idx, c1) =>
          match doRequest idx attempt with
          | Some resp => (inl resp, c1)
          | None =>
              let c2 := mark_unhealthy c1 idx in
              if (Z.of_nat attempt <? maxRetries - 1) && cancelled attempt
              then (inr ErrContext, c2)
              else resolve_loop fuel' (S attempt) c2
          end
      end
  end.

(** [Resolve]; [body] is the request body, [None] when encrypting it
    failed. *)
Definition Resolve {B : Type} (body : option B) (c : Client)
  : (ResolveResponse + ResolveError) * Client :=
  match body with
  | None => (inr ErrEncryptionFailed, c)
  | Some _ => resolve_loop (Z.to_nat maxRetries) 0 c
  end.
End Resolve.



(** *** Health probes *)

Definition resolve_suffix : string := "/api/v1/resolve".

(** [ep.URL[:len(ep.URL)-len("/api/v1/resolve")] + "/health"].  The slice
    expression panics when the URL is shorter than the suffix. *)
Definition healthURL (url : string) : option string :=
  let n := Z.of_nat (String.length url) - Z.of_nat (String.length resolve_suffix) in
  if n <? 0 then None
  else Some (String.substring 0 (Z.to_nat n) url +:+ "/health").

(** What the HTTP layer answers to a GET: an error (building the request
    or the transport failed) or a status code. *)
Inductive ProbeResult :=
| ProbeError
| ProbeStatus (code : Z).

Definition set_Healthy (ep : Endpoint) (b : bool) : Endpoint :=
  mkEndpoint (URL ep) (APIKey ep) (Weight ep) b.

Definition StatusOK : Z := 200.

(** [checkEndpoint]; [http_get] stands for the network.  The result is the
    probed URL and the endpoint after the probe. *)
Definition checkEndpoint (http_get : string -> ProbeResult) (ep : Endpoint)
  : option (string * Endpoint) :=
  match healthURL (URL ep) with
  | None => None
  | Some target =>
      match http_get target with
      | ProbeError => Some (target, set_Healthy ep false)
      | ProbeStatus code => Some (target, set_Healthy ep (code =? StatusOK))
      end
  end.

(** The derivation of the probe URL as the specification words it. *)
Definition has_suffix (suffix s : string) : bool :=
  let ls := String.length s in
  let lx := String.length suffix in
  (lx <=? ls)%nat && String.eqb (String.substring (ls - lx) lx s) suffix.

Definition spec_healthURL (url : string) : string :=
  if has_suffix resolve_suffix url
  then String.substring 0 (String.length url - String.length resolve_suffix)%nat url +:+ "/health"
  else url.


(** *** Selection never comes back empty-handed on a non-empty pool *)

Lemma rr_scan_counter eps fuel cur r cur' :
  rr_scan eps fuel cur = (r, cur') -> 0 <= cur < 2 ^ 32 -> 0 <= cur' < 2 ^ 32.
Proof.
  revert cur. induction fuel as [|fuel IH]; intros cur; simpl.
  - intros [= _ <-]. auto.
  - destruct (healthy_at eps _).
    + intros [= _ <-] _. apply wrap32_range.
    + intros H _. apply (IH _ H). apply wrap32_range.
Qed.

Lemma rr_scan_index eps fuel cur idx cur' :
  rr_scan eps fuel cur = (Some idx, cur') ->
  (idx < length eps)%nat /\ healthy_at eps idx = true.
Proof.
  revert cur. induction fuel as [|fuel IH]; intros cur; simpl; [discriminate|].
  set (i := Z.to_nat _). destruct (healthy_at eps i) eqn:Hh.
  - intros [= <- _]. split; [|exact Hh].
    unfold healthy_at in Hh.
    destruct (eps !! _) eqn:Hl; [|discriminate].
    apply lookup_lt_Some in Hl. exact Hl.
  - apply IH.
Qed.

Lemma failover_scan_index eps base idx :
  failover_scan eps base = Some idx ->
  (base <= idx < base + length eps)%nat.
Proof.
  revert base. induction eps as [|ep eps IH]; intros base; simpl; [discriminate|].
  destruct (Healthy ep).
  - intros [= <-]. lia.
  - intros H. apply IH in H. lia.
Qed.

Lemma selectRoundRobin_some c :
  endpoints c <> [] ->
  exists idx, (selectRoundRobin c).1 = Some idx /\ (idx < length (endpoints c))%nat.
Proof.
  intros Hne. unfold selectRoundRobin.
  destruct (rr_scan _ _ _) as [[idx|] cur] eqn:Hs.
  - exists idx. split; [reflexivity|]. apply rr_scan_index in Hs. tauto.
  - destruct (endpoints c) as [|ep eps]; [congruence|].
    simpl. exists 0%nat. split; [reflexivity|lia].
Qed.

Lemma selectFailover_some c :
  endpoints c <> [] ->
  exists idx, (selectFailover c).1 = Some idx /\ (idx < length (endpoints c))%nat.
Proof.
  intros Hne. unfold selectFailover.
  destruct (failover_scan _ _) as [idx|] eqn:Hs.
  - exists idx. split; [reflexivity|]. apply failover_scan_index in Hs. lia.
  - destruct (endpoints c) as [|ep eps]; [congruence|].
    simpl. exists 0%nat. split; [reflexivity|lia].
Qed.

Lemma selectEndpoint_some c :
  endpoints c <> [] ->
  exists idx, (selectEndpoint c).1 = Some idx /\ (idx < length (endpoints c))%nat.
Proof.
  intros Hne. unfold selectEndpoint.
  destruct (String.eqb _ "round_robin"); [apply selectRoundRobin_some, Hne|].
  destruct (String.eqb _ "failover");
    [apply selectFailover_some, Hne|apply selectRoundRobin_some, Hne].
Qed.

Lemma selectRoundRobin_endpoints c : endpoints (selectRoundRobin c).2 = endpoints c.
Proof.
  unfold selectRoundRobin.
  destruct (rr_scan _ _ _) as [[idx|] cur]; [reflexivity|].
  destruct (0 <? _); reflexivity.
Qed.

Lemma selectFailover_endpoints c : endpoints (selectFailover c).2 = endpoints c.
Proof.
  unfold selectFailover.
  destruct (failover_scan _ _); [reflexivity|].
  destruct (0 <? _); reflexivity.
Qed.

Lemma selectEndpoint_endpoints c : endpoints (selectEndpoint c).2 = endpoints c.
Proof.
  unfold selectEndpoint.
  destruct (String.eqb _ "round_robin"); [apply selectRoundRobin_endpoints|].
  destruct (String.eqb _ "failover");
    [apply selectFailover_endpoints|apply selectRoundRobin_endpoints].
Qed.

Lemma mark_unhealthy_length c idx :
  length (endpoints (mark_unhealthy c idx)) = length (endpoints c).
Proof.
  unfold mark_unhealthy. destruct (endpoints c !! idx); [|reflexivity].
  simpl. apply length_insert.
Qed.

Lemma nonempty_length {A} (l : list A) : l <> [] <-> (0 < length l)%nat.
Proof. destruct l; simpl; split; intros; try congruence; lia. Qed.

Lemma resolve_loop_finds_endpoint doRequest cancelled maxRetries fuel attempt c :
  endpoints c <> [] ->
  (resolve_loop doRequest cancelled maxRetries fuel attempt c).1
    <> inr ErrNoHealthyEndpoints.
Proof.
  revert attempt c. induction fuel as [|fuel IH]; intros attempt c Hne; simpl.
  - discriminate.
  - destruct (selectEndpoint_some c Hne) as (idx & Hsel & _).
    pose proof (selectEndpoint_endpoints c) as Heps.
    destruct (selectEndpoint c) as [r c1]. simpl in Hsel, Heps. subst r.
    destruct (doRequest idx attempt); [discriminate|].
    destruct (_ && _); [discriminate|].
    apply IH. apply nonempty_length. rewrite mark_unhealthy_length, Heps.
    apply nonempty_length, Hne.
Qed.

(** C9.  On a non-empty pool both policies (and the dispatcher
    [selectEndpoint]) return an endpoint of the pool, whatever the health
    flags are, so [Resolve] cannot fail with "no healthy endpoints
    available"; selection returns nothing exactly when the pool is empty. *)
Theorem selection_total_on_nonempty_pool :
  forall c : Client,
    endpoints c <> [] ->
    (exists idx, (selectRoundRobin c).1 = Some idx /\ (idx < length (endpoints c))%nat) /\
    (exists idx, (selectFailover c).1 = Some idx /\ (idx < length (endpoints c))%nat) /\
    (exists idx, (selectEndpoint c).1 = Some idx /\ (idx < length (endpoints c))%nat) /\
    (forall doRequest cancelled maxRetries (body : option (list byte)),
        (Resolve doRequest cancelled maxRetries body c).1 <> inr ErrNoHealthyEndpoints).
Proof.
  intros c Hne. repeat split.
  - apply selectRoundRobin_some, Hne.
  - apply selectFailover_some, Hne.
  - apply selectEndpoint_some, Hne.
  - intros doRequest cancelled maxRetries [body|]; simpl; [|discriminate].
    apply resolve_loop_finds_endpoint, Hne.
Qed.

Definition all_down : Client :=
  mkClient [mkEndpoint "https://a.example/api/v1/resolve" "k1" 1 false;
            mkEndpoint "https://b.example/api/v1/resolve" "k2" 1 false]
           "failover" 7.

Lemma selection_total_on_nonempty_pool_witness :
  endpoints all_down <> [] /\
  (selectFailover all_down).1 = Some 0%nat /\
  (exists idx, (selectEndpoint all_down).1 = Some idx /\ (idx < 2)%nat).
Proof.
  assert (Hne : endpoints all_down <> []) by (simpl; discriminate).
  split; [exact Hne|]. split; [reflexivity|].
  exact (proj1 (proj2 (proj2 (selection_total_on_nonempty_pool all_down Hne)))).
Defined.


(** *** Round robin *)



















Definition first_down : Client :=
  mkClient [mkEndpoint "https://a.example/api/v1/resolve" "k1" 1 false;
            mkEndpoint "https://b.example/api/v1/resolve" "k2" 1 true]
           "round_robin" 0.


Definition at_wrap_around : Client :=
  mkClient [mkEndpoint "https://a.example/api/v1/resolve" "k1" 1 false;
            mkEndpoint "https://b.example/api/v1/resolve" "k2" 1 true;
            mkEndpoint "https://c.example/api/v1/resolve" "k3" 1 false]
           "round_robin" (2 ^ 32 - 2).

(** Where the counter wraps around and the pool size does not divide
    2^32, the positions examined are not consecutive: here they are 2, 0
    and 0, the healthy endpoint 1 is passed over and the fallback is
    returned. *)
Example round_robin_at_wrap_around :
  healthy_at (endpoints at_wrap_around) 1 = true /\
  selectRoundRobin at_wrap_around = (Some 0%nat, set_currentIndex at_wrap_around 1).
Proof. vm_compute. split; reflexivity. Qed.

(** With an empty pool the first attempt of [Resolve] fails for want of an
    endpoint. *)
Example resolve_on_empty_pool doRequest cancelled :
  (Resolve doRequest cancelled 3 (Some [x7b; x7d]) (mkClient [] "round_robin" 0)).1
    = inr ErrNoHealthyEndpoints.
Proof. reflexivity. Qed.

(** *** Health probes *)

Lemma healthURL_with_suffix url :
  has_suffix resolve_suffix url = true ->
  healthURL url = Some (spec_healthURL url).
Proof.
  intros Hs. unfold spec_healthURL. rewrite Hs.
  unfold has_suffix in Hs. apply andb_true_iff in Hs as [Hlen _].
  apply Nat.leb_le in Hlen. unfold healthURL.
  destruct (_ <? 0) eqn:Hneg; [lia|].
  do 3 f_equal. lia.
Qed.

Lemma checkEndpoint_healthy http_get ep target ep' :
  checkEndpoint http_get ep = Some (target, ep') ->
  healthURL (URL ep) = Some target /\
  Healthy ep' = match http_get target with
                | ProbeError => false
                | ProbeStatus code => code =? StatusOK
                end.
Proof.
  unfold checkEndpoint. destruct (healthURL (URL ep)) as [t|]; [|discriminate].
  destruct (http_get t) eqn:Hget; intros [= <- <-]; rewrite Hget; auto.
Qed.

(** C6 fails on the code.  The probe URL is cut 15 bytes before the end of
    the endpoint URL whether or not those bytes are [/api/v1/resolve]: an
    endpoint configured with the alias path [/api/v1/data] is probed at a
    mangled host, and a URL shorter than the suffix makes the slice
    expression panic. *)
Example checkEndpoint_without_resolve_suffix :
  let ep := mkEndpoint "https://example.com/api/v1/data" "key" 1 true in
  has_suffix resolve_suffix (URL ep) = false /\
  spec_healthURL (URL ep) = "https://example.com/api/v1/data" /\
  healthURL (URL ep) = Some "https://example./health" /\
  (forall http_get,
     fst <$> checkEndpoint http_get ep = Some "https://example./health") /\
  checkEndpoint (fun _ => ProbeStatus 200) (mkEndpoint "http://a" "key" 1 true) = None.
Proof.
  cbv zeta. repeat split; try reflexivity.
  intros http_get. unfold checkEndpoint. cbn [URL].
  assert (healthURL "https://example.com/api/v1/data" = Some "https://example./health")
    as -> by reflexivity.
  destruct (http_get _); reflexivity.
Qed.

End Client.

(** ** The DNS message library (github.com/miekg/dns), as far as the
    program uses it *)

Module DNS.

Definition TypeA : Z := 1.
Definition TypeNS : Z := 2.
Definition TypeCNAME : Z := 5.
Definition TypeMX : Z := 15.
Definition TypeTXT : Z := 16.
Definition TypeAAAA : Z := 28.
Definition ClassINET : Z := 1.

(** The library's table from type codes to mnemonics (a Go map: a code
    that is not in it reads as the empty string).  The entries for the
    common types are listed. *)
Definition TypeToString_table : gmap Z string :=
  list_to_map
    [(1, "A"); (2, "NS"); (5, "CNAME"); (6, "SOA"); (12, "PTR"); (15, "MX");
     (16, "TXT"); (28, "AAAA"); (33, "SRV"); (255, "ANY")].

Definition TypeToString (qtype : Z) : string :=
  default "" (TypeToString_table !! qtype).

Record Question := mkQuestion {
  qName : string;
  Qtype : Z;
  Qclass : Z
}.

Record RR_Header := mkHeader {
  hName : string;
  Rrtype : Z;
  Class : Z;
  Ttl : Z
}.

(** The record types the program builds; an address is the byte slice the
    library keeps ([None]: a nil slice). *)
Inductive RData :=
| RD_A (a : option (list byte))
| RD_AAAA (aaaa : option (list byte))
| RD_CNAME (target : string)
| RD_TXT (txt : list string)
| RD_MX (preference : Z) (mx : string)
| RD_NS (ns : string).

Record RR := mkRR {
  Hdr : RR_Header;
  Data : RData
}.

Definition set_Ttl (rr : RR) (ttl : Z) : RR :=
  mkRR (mkHeader (hName (Hdr rr)) (Rrtype (Hdr rr)) (Class (Hdr rr)) ttl) (Data rr).

Definition backslash : ascii := Ascii.ascii_of_nat 92.
Definition dot : ascii := Ascii.ascii_of_nat 46.

Fixpoint leading_backslashes (cs : list ascii) : nat :=
  match cs with
  | c :: cs' => if Ascii.eqb c backslash then S (leading_backslashes cs') else O
  | [] => O
  end.

(** [dns.IsFqdn]: the name ends in a dot that is not escaped, that is,
    one preceded by an even number of backslashes. *)
Definition IsFqdn (s : string) : bool :=
  match rev (list_ascii_of_string s) with
  | c :: before =>
      Ascii.eqb c dot && Nat.even (leading_backslashes before)
  | [] => false
  end.

(** [dns.Fqdn] *)
Definition Fqdn (s : string) : string :=
  if IsFqdn s then s else s +:+ ".".

(** *** Messages in memory

    A [*dns.Msg] points to a message; the elements of its answer section
    are pointers to records ([dns.RR] is an interface over pointers), so a
    write through [rr.Header()] is seen by every holder of that pointer. *)

Definition loc := positive.

Record Msg := mkMsg {
  Id : Z;
  Response : bool;
  Authoritative : bool;
  RecursionAvailable : bool;
  Rcode : Z;
  Question_ : list Question;
  Answer : list loc
}.

Record Heap := mkHeap {
  rrs : gmap loc RR;
  msgs : gmap loc Msg
}.

Definition empty_heap : Heap := mkHeap ∅ ∅.

Definition alloc_rr (rr : RR) (h : Heap) : loc * Heap :=
  let l := fresh (dom (rrs h)) in
  (l, mkHeap (<[l := rr]> (rrs h)) (msgs h)).

Definition alloc_msg (m : Msg) (h : Heap) : loc * Heap :=
  let l := fresh (dom (msgs h)) in
  (l, mkHeap (rrs h) (<[l := m]> (msgs h))).

Definition store_rr (l : loc) (rr : RR) (h : Heap) : Heap :=
  mkHeap (<[l := rr]> (rrs h)) (msgs h).

(** The records a list of pointers designates. *)
Fixpoint read_rrs (h : Heap) (ls : list loc) : option (list RR) :=
  match ls with
  | [] => Some []
  | l :: ls' =>
      rr ← rrs h !! l;
      rest ← read_rrs h ls';
      Some (rr :: rest)
  end.

(** The message behind a pointer together with its answer records. *)
Definition read_msg (h : Heap) (p : loc) : option (Msg * list RR) :=
  m ← msgs h !! p;
  rs ← read_rrs h (Answer m);
  Some (m, rs).

(** [dns.Copy] on each record of a section: a new record per element. *)
Fixpoint copy_rrs (ls : list loc) (h : Heap) : option (list loc * Heap) :=
  match ls with
  | [] => Some ([], h)
  | l :: ls' =>
      rr ← rrs h !! l;
      let '(l', h1) := alloc_rr rr h in
      '(rest, h2) ← copy_rrs ls' h1;
      Some (l' :: rest, h2)
  end.

Definition with_Answer (m : Msg) (answer : list loc) : Msg :=
  mkMsg (Id m) (Response m) (Authoritative m) (RecursionAvailable m)
        (Rcode m) (Question_ m) answer.

(** [Msg.Copy]: a new message whose sections hold copies of the records. *)
Definition Copy (p : loc) (h : Heap) : option (loc * Heap) :=
  m ← msgs h !! p;
  '(answer, h1) ← copy_rrs (Answer m) h;
  Some (alloc_msg (with_Answer m answer) h1).

(** *** Copies are made of new objects *)

Lemma read_rrs_mono h h' ls rs :
  rrs h ⊆ rrs h' -> read_rrs h ls = Some rs -> read_rrs h' ls = Some rs.
Proof.
  intros Hsub. revert rs. induction ls as [|l ls IH]; intros rs; simpl; [auto|].
  destruct (rrs h !! l) as [rr|] eqn:Hl; [|discriminate]. simpl.
  destruct (read_rrs h ls) as [rest|]; [|discriminate]. simpl.
  intros [= <-]. rewrite (lookup_weaken _ _ _ _ Hl Hsub). simpl.
  rewrite (IH rest eq_refl). reflexivity.
Qed.

Lemma read_rrs_agree h h' ls :
  (forall l, l ∈ ls -> rrs h' !! l = rrs h !! l) -> read_rrs h' ls = read_rrs h ls.
Proof.
  induction ls as [|l ls IH]; intros Hag; simpl; [reflexivity|].
  rewrite Hag by left. rewrite IH; [reflexivity|].
  intros l' Hl'. apply Hag. right. exact Hl'.
Qed.

Lemma copy_rrs_fresh ls : forall h rs,
  read_rrs h ls = Some rs ->
  exists ls' h',
    copy_rrs ls h = Some (ls', h') /\ msgs h' = msgs h /\ rrs h ⊆ rrs h' /\
    read_rrs h' ls' = Some rs /\ NoDup ls' /\
    (forall l, l ∈ ls' -> rrs h !! l = None).
Proof.
  induction ls as [|l ls IH]; intros h rs; simpl.
  - intros [= <-]. exists [], h. repeat split; auto; try constructor.
    intros l Hl. inversion Hl.
  - destruct (rrs h !! l) as [rr|] eqn:Hl; [|discriminate]. simpl.
    destruct (read_rrs h ls) as [rest|] eqn:Hrest; [|discriminate]. simpl.
    intros [= <-].
    set (l' := fresh (dom (rrs h))).
    set (h1 := mkHeap (<[l' := rr]> (rrs h)) (msgs h)).
    assert (Hfresh : rrs h !! l' = None).
    { apply not_elem_of_dom. apply is_fresh. }
    assert (Hsub1 : rrs h ⊆ rrs h1) by (apply insert_subseteq, Hfresh).
    destruct (IH h1 rest (read_rrs_mono _ _ _ _ Hsub1 Hrest))
      as (ls' & h2 & Hcopy & Hmsgs & Hsub2 & Hread & Hnodup & Hnew).
    exists (l' :: ls'), h2. rewrite Hcopy. simpl. repeat split.
    + exact Hmsgs.
    + etrans; eassumption.
    + assert (Hl' : rrs h2 !! l' = Some rr).
      { apply (lookup_weaken (rrs h1)); [apply lookup_insert_eq|exact Hsub2]. }
      rewrite Hl'. simpl. rewrite Hread. reflexivity.
    + constructor; [|exact Hnodup].
      intros Hin. apply Hnew in Hin. simpl in Hin.
      rewrite lookup_insert_eq in Hin. discriminate.
    + intros l0 [->|Hin]%elem_of_cons; [exact Hfresh|].
      apply (lookup_weaken_None _ (rrs h1)); [apply Hnew, Hin|exact Hsub1].
Qed.

Lemma Copy_fresh p h m rs :
  read_msg h p = Some (m, rs) ->
  exists p' ls' h',
    Copy p h = Some (p', h') /\ msgs h !! p' = None /\
    msgs h' = <[p' := with_Answer m ls']> (msgs h) /\ rrs h ⊆ rrs h' /\
    read_rrs h' ls' = Some rs /\ NoDup ls' /\
    (forall l, l ∈ ls' -> rrs h !! l = None).
Proof.
  unfold read_msg, Copy.
  destruct (msgs h !! p) as [m0|] eqn:Hp; [|discriminate]. simpl.
  destruct (read_rrs h (Answer m0)) as [rs0|] eqn:Hrs; [|discriminate]. simpl.
  intros [= <- <-].
  destruct (copy_rrs_fresh _ _ _ Hrs)
    as (ls' & h1 & Hcopy & Hmsgs & Hsub & Hread & Hnodup & Hnew).
  rewrite Hcopy. simpl.
  exists (fresh (dom (msgs h1))), ls', (alloc_msg (with_Answer m0 ls') h1).2.
  repeat split; auto.
  - rewrite <- Hmsgs. apply not_elem_of_dom, is_fresh.
  - simpl. rewrite Hmsgs. reflexivity.
  - rewrite (read_rrs_agree h1 _ ls'); [exact Hread|intros; reflexivity].
Qed.

End DNS.

(** ** The remote resolver (package resolver): keys and record synthesis *)

Module Resolver.

Definition TypeA : string := "A".
Definition TypeAAAA : string := "AAAA".
Definition TypeCNAME : string := "CNAME".
Definition TypeMX : string := "MX".
Definition TypeTXT : string := "TXT".
Definition TypeNS : string := "NS".

Record DNSRecord := mkDNSRecord {
  Name : string;
  Type_ : string;
  Value : string;
  TTL : Z
}.

(** [strings.TrimSuffix (s, ".")] *)
Definition TrimSuffix_dot (s : string) : string :=
  match rev (list_ascii_of_string s) with
  | c :: before =>
      if Ascii.eqb c DNS.dot then string_of_list_ascii (rev before) else s
  | [] => s
  end.

(** The first two lines of [Resolve]: the key under which the remote
    cache is read and written. *)
Definition cacheKey (domain recordType : string) : string :=
  TrimSuffix_dot domain +:+ ":" +:+ recordType.

(** What the host's lookup interface ([net.Resolver]) returns; [None] is
    an error.  Addresses come in their textual form ([ip.String()]). *)
Record MX := mkMX { mxHost : string; Pref : Z }.

Record Upstream := mkUpstream {
  LookupIP : string -> string -> option (list string);
  LookupCNAME : string -> option string;
  LookupMX : string -> option (list MX);
  LookupTXT : string -> option (list string);
  LookupNS : string -> option (list string)
}.

(** [fmt.Sprintf("%d %s", pref, host)] *)
Definition sprintf_d_s (pref : Z) (host : string) : string :=
  pretty pref +:+ " " +:+ host.

(** [resolveWithUpstream]: the records synthesized for a domain (the
    domain of the result is the argument). *)
Definition resolveWithUpstream (up : Upstream) (domain recordType : string)
  : option (list DNSRecord) :=
  if String.eqb recordType TypeA then
    ips ← LookupIP up "ip4" domain;
    Some (map (fun ip => mkDNSRecord domain TypeA ip 300) ips)
  else if String.eqb recordType TypeAAAA then
    ips ← LookupIP up "ip6" domain;
    Some (map (fun ip => mkDNSRecord domain TypeAAAA ip 300) ips)
  else if String.eqb recordType TypeCNAME then
    cname ← LookupCNAME up domain;
    Some [mkDNSRecord domain TypeCNAME cname 300]
  else if String.eqb recordType TypeMX then
    mxRecords ← LookupMX up domain;
    Some (map (fun mx => mkDNSRecord domain TypeMX (sprintf_d_s (Pref mx) (mxHost mx)) 300)
              mxRecords)
  else if String.eqb recordType TypeTXT then
    txtRecords ← LookupTXT up domain;
    Some (map (fun txt => mkDNSRecord domain TypeTXT txt 300) txtRecords)
  else if String.eqb recordType TypeNS then
    nsRecords ← LookupNS up domain;
    Some (map (fun ns => mkDNSRecord domain TypeNS ns 300) nsRecords)
  else None.

End Resolver.

(** ** The local listener (package server): building resource records *)

Module Server.

Section CreateRR.
(** [net.ParseIP] with [To4] and [To16] applied to its result: the
    4-byte and the 16-byte form of the address a text denotes ([None]
    from the parser: not an address; [None] from [To4]: nil). *)
Variable ParseIP : string -> option (option (list byte) * option (list byte)).

Definition createRR (rec : Client.DNSRecord) (name : string) : option DNS.RR :=
  let ttl := if Client.TTL rec =? 0 then 300 else Client.TTL rec in
  let hdr := fun rrtype => DNS.mkHeader name rrtype DNS.ClassINET ttl in
  let ty := Client.Type_ rec in
  if String.eqb ty "A" then
    ip ← ParseIP (Client.Value rec);
    Some (DNS.mkRR (hdr DNS.TypeA) (DNS.RD_A ip.1))
  else if String.eqb ty "AAAA" then
    ip ← ParseIP (Client.Value rec);
    Some (DNS.mkRR (hdr DNS.TypeAAAA) (DNS.RD_AAAA ip.2))
  else if String.eqb ty "CNAME" then
    Some (DNS.mkRR (hdr DNS.TypeCNAME) (DNS.RD_CNAME (DNS.Fqdn (Client.Value rec))))
  else if String.eqb ty "TXT" then
    Some (DNS.mkRR (hdr DNS.TypeTXT) (DNS.RD_TXT [Client.Value rec]))
  else if String.eqb ty "MX" then
    Some (DNS.mkRR (hdr DNS.TypeMX) (DNS.RD_MX 10 (DNS.Fqdn (Client.Value rec))))
  else if String.eqb ty "NS" then
    Some (DNS.mkRR (hdr DNS.TypeNS) (DNS.RD_NS (DNS.Fqdn (Client.Value rec))))
  else None.
End CreateRR.

(** The record as it travels in the JSON body: the four fields, unchanged. *)
Definition over_the_wire (r : Resolver.DNSRecord) : Client.DNSRecord :=
  Client.mkDNSRecord (Resolver.Name r) (Resolver.Type_ r) (Resolver.Value r) (Resolver.TTL r).

(** An upstream whose MX lookup reports preference 20 and host
    [mail.example.com.] (the lookup interface returns absolute names). *)
Definition mx_upstream : Resolver.Upstream :=
  Resolver.mkUpstream (fun _ _ => None) (fun _ => None)
    (fun _ => Some [Resolver.mkMX "mail.example.com." 20])
    (fun _ => None) (fun _ => None).

(** C8 fails on the code.  The remote emits ["20 mail.example.com."]; the
    local builder takes the whole value for the exchange: the MX record it
    builds has preference 10 and exchange ["20 mail.example.com."], not
    ["mail.example.com."]. *)
Example mx_value_taken_whole :
  Resolver.resolveWithUpstream mx_upstream "example.com" "MX" =
    Some [Resolver.mkDNSRecord "example.com" "MX" "20 mail.example.com." 300] /\
  forall ParseIP,
    createRR ParseIP
      (over_the_wire (Resolver.mkDNSRecord "example.com" "MX" "20 mail.example.com." 300))
      "example.com." =
    Some (DNS.mkRR (DNS.mkHeader "example.com." DNS.TypeMX DNS.ClassINET 300)
                   (DNS.RD_MX 10 "20 mail.example.com.")).
Proof. split; [vm_compute; reflexivity | intros ParseIP; vm_compute; reflexivity]. Qed.

End Server.

(** ** The local response cache (package cache) *)

Module LocalCache.
Import DNS.

(** [Entry]; the cache alone holds entries, they are values here.  [eMsg]
    is the field [Msg]. *)
Record Entry := mkEntry {
  eMsg : loc;
  ExpiresAt : Z;
  CreatedAt : Z
}.

Record Cache := mkCache {
  items : gmap string Entry;
  maxItems : Z;
  defaultTTL : Z;
  minTTL : Z;
  maxTTL : Z
}.

Definition set_items (c : Cache) (m : gmap string Entry) : Cache :=
  mkCache m (maxItems c) (defaultTTL c) (minTTL c) (maxTTL c).

Definition New (maxItems defaultTTL minTTL maxTTL : Z) : Cache :=
  mkCache ∅ maxItems defaultTTL minTTL maxTTL.


Definition Len (c : Cache) : Z := Z.of_nat (size (items c)).

Definition Second : Z := 1000000000.

(** [uint32(time.Since(entry.CreatedAt).Seconds())]: whole seconds, the
    fraction dropped.  [Seconds] returns a [float64]; below 2^24 seconds
    (194 days) it is too fine-grained for a fraction short of one to round
    up to the next second, and the conversion yields the whole seconds
    exactly.  (Out of the range of [uint32], where Go leaves the
    conversion to the implementation, the model wraps.) *)
Definition elapsed_seconds (now created : Z) : Z :=
  wrap32 (Z.quot (now - created) Second).

(** The body of the loop over the answers of the copy. *)
Definition decay (elapsed : Z) (rr : RR) : RR :=
  if elapsed <? Ttl (Hdr rr) then set_Ttl rr (Ttl (Hdr rr) - elapsed)
  else set_Ttl rr 1.

Fixpoint adjust_ttls (elapsed : Z) (ls : list loc) (h : Heap) : option Heap :=
  match ls with
  | [] => Some h
  | l :: ls' =>
      rr ← rrs h !! l;
      adjust_ttls elapsed ls' (store_rr l (decay elapsed rr) h)
  end.

(** [Get].  [now_check] is the clock reading compared with the expiry,
    [now_since] the later one from which the elapsed time is taken.  The
    result is the returned pointer ([None]: a miss), the cache and the heap
    afterwards. *)
Definition Get (c : Cache) (h : Heap) (key : string) (now_check now_since : Z)
  : option (option loc * Cache * Heap) :=
  match items c !! key with
  | None => Some (None, c, h)
  | Some entry =>
      if ExpiresAt entry <? now_check then
        Some (None, set_items c (delete key (items c)), h)
      else
        '(p, h1) ← Copy (eMsg entry) h;
        m ← msgs h1 !! p;
        h2 ← adjust_ttls (elapsed_seconds now_since (CreatedAt entry)) (Answer m) h1;
        Some (Some p, c, h2)
  end.

(** [time.Time{}], the zero time (1 January of year 1). *)
Definition zeroTime : Z := -62135596800 * Second.

(** One iteration of the loop of [evictOldest] over [(oldestKey, oldestTime)]. *)
Definition evict_step (acc : string * Z) (ke : string * Entry) : string * Z :=
  if String.eqb acc.1 "" || (ExpiresAt ke.2 <? acc.2) then (ke.1, ExpiresAt ke.2)
  else acc.

Definition evict_scan (order : list (string * Entry)) : string * Z :=
  fold_left evict_step order (EmptyString, zeroTime).

(** [evictOldest].  Go ranges over a map in an order of its choosing;
    [order] is the order of this run. *)
Definition evictOldest (order : list (string * Entry)) (m : gmap string Entry)
  : gmap string Entry :=
  let oldestKey := (evict_scan order).1 in
  if String.eqb oldestKey "" then m else delete oldestKey m.

(** The smallest TTL among the answers, scanning from the first. *)
Definition minAnswerTTL (first : RR) (answers : list RR) : Z :=
  fold_left (fun acc rr => if Ttl (Hdr rr) <? acc then Ttl (Hdr rr) else acc)
            answers (Ttl (Hdr first)).

Definition derive_ttl (c : Cache) (answers : list RR) : Z :=
  let ttl := match answers with
             | [] => defaultTTL c
             | first :: _ => minAnswerTTL first answers * Second
             end in
  let ttl := if ttl <? minTTL c then minTTL c else ttl in
  if maxTTL c <? ttl then maxTTL c else ttl.

(** [Set].  [msg = None] is the nil pointer; [now_expiry] and
    [now_created] are the two clock readings, in that order. *)
Definition Set_ (c : Cache) (h : Heap) (key : string) (msg : option loc)
    (now_expiry now_created : Z) (order : list (string * Entry))
  : option (Cache * Heap) :=
  match msg with
  | None => Some (c, h)
  | Some p =>
      m ← msgs h !! p;
      if (length (Question_ m) =? 0)%nat then Some (c, h)
      else
        answers ← read_rrs h (Answer m);
        let ttl := derive_ttl c answers in
        let kept := if maxItems c <=? Len c then evictOldest order (items c)
                    else items c in
        '(p', h') ← Copy p h;
        Some (set_items c (<[key := mkEntry p' (now_expiry + ttl) now_created]> kept), h')
  end.

(** [Clear] *)
Definition Clear (c : Cache) : Cache := set_items c ∅.

(** One call of [Set] that returns, with a key that is not the empty
    string, from any state of memory and with any order of iteration the
    map may take. *)
Inductive set_step (c c' : Cache) : Prop :=
| SetStep (h h' : Heap) (key : string) (msg : option loc) (now_expiry now_created : Z)
          (order : list (string * Entry)) :
    key <> EmptyString ->
    order ≡ₚ map_to_list (items c) ->
    Set_ c h key msg now_expiry now_created order = Some (c', h') ->
    set_step c c'.


(** *** Keys *)











(** *** [Set] on a nil message or one without a question *)

(** C10.  [Set] returns at once when the message is nil or has no
    question: cache and heap are what they were, so the map, its length
    and every entry are unchanged and nothing is stored under the key. *)
Theorem Set_ignores_nil_and_questionless :
  forall (c : Cache) (h : Heap) (key : string) (now1 now2 : Z)
         (order : list (string * Entry)),
    Set_ c h key None now1 now2 order = Some (c, h) /\
    (forall (p : loc) (m : Msg),
        msgs h !! p = Some m -> Question_ m = [] ->
        Set_ c h key (Some p) now1 now2 order = Some (c, h)).
Proof.
  intros c h key now1 now2 order. split; [reflexivity|].
  intros p m Hp Hq. unfold Set_. rewrite Hp. simpl. rewrite Hq. reflexivity.
Qed.

Definition questionless_heap : Heap :=
  mkHeap ∅ {[ 1%positive := mkMsg 7 true false true 0 [] [] ]}.

Lemma Set_ignores_nil_and_questionless_witness :
  Set_ (New 100 300 60 86400) questionless_heap "clear.com.:A" (Some 1%positive) 5 6 []
    = Some (New 100 300 60 86400, questionless_heap) /\
  items (New 100 300 60 86400) !! "clear.com.:A" = None.
Proof.
  split; [|reflexivity].
  apply (proj2 (Set_ignores_nil_and_questionless (New 100 300 60 86400)
                  questionless_heap "clear.com.:A" 5 6 [])
               1%positive (mkMsg 7 true false true 0 [] [])); reflexivity.
Defined.


(** *** Capacity and eviction *)

Lemma evict_step_named acc ke :
  acc.1 <> EmptyString ->
  evict_step acc ke = if ExpiresAt ke.2 <? acc.2 then (ke.1, ExpiresAt ke.2) else acc.
Proof.
  intros Hne. unfold evict_step.
  destruct (String.eqb_spec acc.1 ""); [contradiction|reflexivity].
Qed.

(** Once a key is held, the scan keeps a pair of the list with the least
    expiry seen so far. *)
Lemma evict_fold_min order : forall acc,
  acc.1 <> EmptyString ->
  Forall (fun ke => ke.1 <> EmptyString) order ->
  let r := fold_left evict_step order acc in
  r.1 <> EmptyString /\ r.2 <= acc.2 /\
  Forall (fun ke => r.2 <= ExpiresAt ke.2) order /\
  (r = acc \/ exists ke, ke ∈ order /\ r = (ke.1, ExpiresAt ke.2)).
Proof.
  induction order as [|ke order IH]; intros acc Hacc Hkeys; simpl.
  - repeat split; auto; lia.
  - inversion Hkeys as [|? ? Hke Hrest]; subst.
    rewrite evict_step_named by assumption.
    destruct (ExpiresAt ke.2 <? acc.2) eqn:Hlt.
    + destruct (IH (ke.1, ExpiresAt ke.2) Hke Hrest) as (H1 & H2 & H3 & H4).
      simpl in *. repeat split; [assumption|lia| |].
      * constructor; assumption.
      * right. destruct H4 as [->|(ke' & Hin & ->)].
        -- exists ke. split; [left|reflexivity].
        -- exists ke'. split; [right; assumption|reflexivity].
    + destruct (IH acc Hacc Hrest) as (H1 & H2 & H3 & H4).
      repeat split; [assumption|assumption| |].
      * constructor; [lia|assumption].
      * destruct H4 as [->|(ke' & Hin & ->)]; [left; reflexivity|].
        right. exists ke'. split; [right; assumption|reflexivity].
Qed.

Lemma evict_scan_min order :
  order <> [] ->
  Forall (fun ke => ke.1 <> EmptyString) order ->
  exists ke, ke ∈ order /\ evict_scan order = (ke.1, ExpiresAt ke.2) /\
             Forall (fun ke' => ExpiresAt ke.2 <= ExpiresAt ke'.2) order.
Proof.
  destruct order as [|ke0 order]; [congruence|]. intros _ Hkeys.
  inversion Hkeys as [|? ? Hke0 Hrest]; subst.
  unfold evict_scan. simpl. unfold evict_step at 2. simpl.
  destruct (evict_fold_min order (ke0.1, ExpiresAt ke0.2) Hke0 Hrest)
    as (_ & H2 & H3 & H4).
  simpl in *. destruct H4 as [Hr|(ke & Hin & Hr)]; rewrite Hr in *; simpl in *.
  - exists ke0. split; [left|]. split; [reflexivity|].
    constructor; [lia|assumption].
  - exists ke. split; [right; assumption|]. split; [reflexivity|].
    constructor; assumption.
Qed.

(** [evictOldest] removes one entry, whose expiry no other entry precedes. *)
Lemma evictOldest_removes_earliest (m : gmap string Entry) order :
  m <> ∅ -> m !! EmptyString = None -> order ≡ₚ map_to_list m ->
  exists k e, m !! k = Some e /\ evictOldest order m = delete k m /\
    forall k' e', m !! k' = Some e' -> ExpiresAt e <= ExpiresAt e'.
Proof.
  intros Hne Hempty Hperm.
  assert (Hin : forall ke, ke ∈ order <-> m !! ke.1 = Some ke.2).
  { intros [k e]. rewrite Hperm. apply elem_of_map_to_list. }
  assert (Hkeys : Forall (fun ke => ke.1 <> EmptyString) order).
  { apply Forall_forall. intros ke Hke%Hin Heq. rewrite Heq in Hke. congruence. }
  assert (Horder : order <> []).
  { intros ->. apply Hne, map_to_list_empty_iff.
    apply Permutation_nil. exact Hperm. }
  destruct (evict_scan_min order Horder Hkeys) as (ke & Hke & Hscan & Hmin).
  exists ke.1, ke.2. split; [apply Hin, Hke|]. split.
  - unfold evictOldest. rewrite Hscan. simpl.
    rewrite Forall_forall in Hkeys. specialize (Hkeys ke Hke).
    destruct (String.eqb_spec ke.1 ""); [contradiction|reflexivity].
  - intros k' e' Hk'. rewrite Forall_forall in Hmin.
    apply (Hmin (k', e')). apply Hin. exact Hk'.
Qed.

Lemma Set_inserts c h key p m now1 now2 order c' h' :
  msgs h !! p = Some m -> Question_ m <> [] ->
  Set_ c h key (Some p) now1 now2 order = Some (c', h') ->
  exists entry,
    c' = set_items c
           (<[key := entry]>
              (if maxItems c <=? Len c then evictOldest order (items c) else items c)).
Proof.
  intros Hp Hq. unfold Set_. rewrite Hp. simpl.
  destruct (Question_ m) as [|q qs]; [congruence|]. simpl.
  destruct (read_rrs h (Answer m)) as [answers|]; [|discriminate]. simpl.
  destruct (Copy p h) as [[p' h1]|]; [|discriminate]. simpl.
  intros [= <- <-]. eexists. reflexivity.
Qed.

Lemma Set_cases c h key msg now1 now2 order c' h' :
  Set_ c h key msg now1 now2 order = Some (c', h') ->
  c' = c \/
  exists entry,
    c' = set_items c
           (<[key := entry]>
              (if maxItems c <=? Len c then evictOldest order (items c) else items c)).
Proof.
  destruct msg as [p|]; [|intros [= <- <-]; left; reflexivity].
  intros HS. pose proof HS as HS'. unfold Set_ in HS.
  destruct (msgs h !! p) as [m|] eqn:Hp; [|discriminate]. simpl in HS.
  destruct (Question_ m) as [|q qs] eqn:Hq.
  - simpl in HS. injection HS as <- <-. left. reflexivity.
  - right. eapply Set_inserts; [exact Hp| |exact HS']. rewrite Hq. discriminate.
Qed.

(** What every state reached by [Set] from the empty cache satisfies. *)
Definition within_capacity (bound : Z) (c : Cache) : Prop :=
  maxItems c = bound /\ items c !! EmptyString = None /\ Len c <= bound.

Lemma set_step_within_capacity bound c c' :
  1 <= bound -> within_capacity bound c -> set_step c c' -> within_capacity bound c'.
Proof.
  intros Hb (Hmax & Hempty & Hlen) [h h' key msg now1 now2 order Hkey Hperm HS].
  apply Set_cases in HS as [->|(entry & ->)]; [repeat split; assumption|].
  unfold within_capacity, Len in *. simpl. rewrite Hmax.
  destruct (Z.leb_spec bound (Z.of_nat (size (items c)))) as [Hfull|Hfull].
  - assert (Hne : items c <> ∅).
    { intros Heq. rewrite Heq, map_size_empty in Hfull. lia. }
    destruct (evictOldest_removes_earliest (items c) order Hne Hempty Hperm)
      as (k & e & Hk & -> & _).
    split; [reflexivity|]. split.
    + rewrite lookup_insert_ne by congruence.
      rewrite lookup_delete_ne; [assumption|]. intros ->. congruence.
    + pose proof (map_size_insert key entry (delete k (items c))) as Hsz.
      rewrite map_size_delete_Some in Hsz by eauto.
      assert (size (items c) <> 0%nat).
      { intros H0. apply map_size_empty_iff in H0. contradiction. }
      destruct (delete k (items c) !! key); simpl in Hsz; lia.
  - split; [reflexivity|]. split.
    + rewrite lookup_insert_ne by congruence. assumption.
    + pose proof (map_size_insert key entry (items c)) as Hsz.
      destruct (items c !! key); simpl in Hsz; lia.
Qed.

(** C7, as the code has it.  For a capacity of at least one and keys other
    than the empty string (which [evictOldest] uses for "none yet"), the
    cache never holds more than [max_items] entries after any sequence of
    [Set] from the empty cache; and a [Set] that inserts while the cache is
    full first removes one entry whose [ExpiresAt] no other entry's
    precedes. *)
Theorem capacity_bound_and_earliest_eviction :
  forall bound defaultTTL minTTL maxTTL : Z,
    1 <= bound ->
    (forall c, rtc set_step (New bound defaultTTL minTTL maxTTL) c -> Len c <= bound) /\
    (forall c h key p m now1 now2 order c' h',
        maxItems c = bound -> maxItems c <= Len c ->
        items c !! EmptyString = None ->
        order ≡ₚ map_to_list (items c) ->
        msgs h !! p = Some m -> Question_ m <> [] ->
        Set_ c h key (Some p) now1 now2 order = Some (c', h') ->
        exists k e entry,
          items c !! k = Some e /\
          (forall k' e', items c !! k' = Some e' -> ExpiresAt e <= ExpiresAt e') /\
          items c' = <[key := entry]> (delete k (items c))).
Proof.
  intros bound dTTL mnTTL mxTTL Hb. split.
  - intros c Hreach.
    enough (within_capacity bound c) as (_ & _ & H) by exact H.
    revert c Hreach. apply rtc_ind_r.
    + repeat split; try reflexivity. unfold Len, New. simpl.
      rewrite map_size_empty. lia.
    + intros c1 c2 _ Hstep IH. eapply set_step_within_capacity; eassumption.
  - intros c h key p m now1 now2 order c' h' Hmax Hfull Hempty Hperm Hp Hq HS.
    destruct (Set_inserts _ _ _ _ _ _ _ _ _ _ Hp Hq HS) as (entry & ->).
    assert (Hne : items c <> ∅).
    { intros Heq. unfold Len in Hfull.
      rewrite Heq, map_size_empty in Hfull. lia. }
    apply Z.leb_le in Hfull. rewrite Hfull. simpl.
    destruct (evictOldest_removes_earliest (items c) order Hne Hempty Hperm)
      as (k & e & Hk & -> & Hmin).
    exists k, e, entry. auto.
Qed.


(** A run of [Set] calls, each at one instant, the map ranged over in the
    order of [map_to_list]: used to build concrete caches. *)
Fixpoint run_sets (ops : list (string * option loc * Z)) (c : Cache) (h : Heap)
  : option (Cache * Heap) :=
  match ops with
  | [] => Some (c, h)
  | (key, msg, now) :: ops' =>
      '(c1, h1) ← Set_ c h key msg now now (map_to_list (items c));
      run_sets ops' c1 h1
  end.

Lemma run_sets_reachable ops : forall c h c' h',
  Forall (fun op => op.1.1 <> EmptyString) ops ->
  run_sets ops c h = Some (c', h') -> rtc set_step c c'.
Proof.
  induction ops as [|[[key msg] now] ops IH]; intros c h c' h' Hkeys; simpl.
  - intros [= <- _]. apply rtc_refl.
  - inversion Hkeys as [|? ? Hkey Hrest]; subst.
    destruct (Set_ c h key msg now now _) as [[c1 h1]|] eqn:HS; [|discriminate].
    simpl. intros Hrun. eapply rtc_l; [|eapply IH; eassumption].
    eapply SetStep; [exact Hkey|reflexivity|exact HS].
Qed.

(** A message for [test.com.] with one A record of TTL 300, at address 1. *)
Definition sample_heap : Heap :=
  mkHeap {[ 1%positive := mkRR (mkHeader "test.com." TypeA ClassINET 300)
                               (RD_A (Some [x01; x02; x03; x04])) ]}
         {[ 1%positive := mkMsg 7 true false true 0
                                [mkQuestion "test.com." TypeA ClassINET] [1%positive] ]}.

Definition minute : Z := 60 * Second.

Definition three_sets : list (string * option loc * Z) :=
  [("a.com.:A", Some 1%positive, 0); ("b.com.:A", Some 1%positive, Second);
   ("c.com.:A", Some 1%positive, 2 * Second)].

Definition after_three_sets : Cache * Heap :=
  default (New 2 (5 * minute) minute (1440 * minute), sample_heap)
          (run_sets three_sets (New 2 (5 * minute) minute (1440 * minute)) sample_heap).

Lemma capacity_bound_and_earliest_eviction_witness :
  1 <= 2 /\ Len after_three_sets.1 <= 2 /\
  dom (items after_three_sets.1) = {[ "b.com.:A"; "c.com.:A" ]}.
Proof.
  split; [lia|]. split; [|vm_compute; reflexivity].
  apply (proj1 (capacity_bound_and_earliest_eviction 2 (5 * minute) minute
                  (1440 * minute) ltac:(lia))).
  apply (run_sets_reachable three_sets _ sample_heap _ after_three_sets.2).
  - repeat constructor; discriminate.
  - vm_compute. reflexivity.
Defined.

Definition overfull : Cache * Heap :=
  default (New 0 (5 * minute) minute (1440 * minute), sample_heap)
          (run_sets [("a.com.:A", Some 1%positive, 0)]
                    (New 0 (5 * minute) minute (1440 * minute)) sample_heap).

(** C7 as stated fails for a capacity of zero: the first [Set] finds
    nothing to evict and inserts, leaving one entry. *)
Lemma capacity_zero_holds_one_entry :
  rtc set_step (New 0 (5 * minute) minute (1440 * minute)) overfull.1 /\
  maxItems overfull.1 = 0 /\ Len overfull.1 = 1 /\
  ~ Len overfull.1 <= maxItems overfull.1.
Proof.
  split.
  - apply (run_sets_reachable [("a.com.:A", Some 1%positive, 0)] _ sample_heap
             _ overfull.2).
    + repeat constructor; discriminate.
    + vm_compute. reflexivity.
  - vm_compute. repeat split; intros H; apply H; reflexivity.
Qed.

(** *** Reading: expiry, copy and TTL decay *)

Lemma adjust_ttls_spec elapsed ls : forall h rs,
  NoDup ls -> read_rrs h ls = Some rs ->
  exists h',
    adjust_ttls elapsed ls h = Some h' /\ msgs h' = msgs h /\
    read_rrs h' ls = Some (map (decay elapsed) rs) /\
    (forall l, l ∉ ls -> rrs h' !! l = rrs h !! l).
Proof.
  induction ls as [|l ls IH]; intros h rs Hnd; simpl.
  - intros [= <-]. exists h. auto.
  - inversion Hnd as [|? ? Hnotin Hnd']; subst.
    destruct (rrs h !! l) as [rr|] eqn:Hl; [|discriminate]. simpl.
    destruct (read_rrs h ls) as [rest|] eqn:Hrest; [|discriminate]. simpl.
    intros [= <-].
    set (h1 := store_rr l (decay elapsed rr) h).
    assert (Hrest1 : read_rrs h1 ls = Some rest).
    { rewrite <- Hrest. apply read_rrs_agree. intros l0 Hl0. simpl.
      apply lookup_insert_ne. intros ->. contradiction. }
    destruct (IH h1 rest Hnd' Hrest1) as (h' & Hadj & Hmsgs & Hread & Hother).
    exists h'. repeat split; [exact Hadj|exact Hmsgs| |].
    + rewrite (Hother l Hnotin). simpl. rewrite lookup_insert_eq. simpl.
      rewrite Hread. reflexivity.
    + intros l0 Hl0. rewrite not_elem_of_cons in Hl0. destruct Hl0 as [Hne Hl0].
      rewrite (Hother l0 Hl0). simpl. apply lookup_insert_ne. congruence.
Qed.

(** A hit: the message handed out and its records are new objects, the
    records carry the decayed TTLs, and nothing that was in memory before
    has changed. *)
Lemma Get_hit c h key entry m rs now_check now_since :
  items c !! key = Some entry -> now_check <= ExpiresAt entry ->
  read_msg h (eMsg entry) = Some (m, rs) ->
  exists p ls' h',
    Get c h key now_check now_since = Some (Some p, c, h') /\
    msgs h !! p = None /\
    msgs h' = <[p := with_Answer m ls']> (msgs h) /\
    rrs h ⊆ rrs h' /\
    read_rrs h' ls' =
      Some (map (decay (elapsed_seconds now_since (CreatedAt entry))) rs) /\
    (forall l, l ∈ ls' -> rrs h !! l = None).
Proof.
  intros Hkey Hlive Hmsg. unfold Get. rewrite Hkey.
  destruct (Z.ltb_spec (ExpiresAt entry) now_check) as [?|_]; [lia|].
  destruct (Copy_fresh _ _ _ _ Hmsg)
    as (p & ls' & h1 & Hcopy & Hp & Hmsgs & Hsub & Hread & Hnodup & Hnew).
  rewrite Hcopy. simpl.
  assert (Hp1 : msgs h1 !! p = Some (with_Answer m ls')).
  { rewrite Hmsgs. apply lookup_insert_eq. }
  rewrite Hp1. simpl.
  destruct (adjust_ttls_spec (elapsed_seconds now_since (CreatedAt entry)) ls' h1 rs
              Hnodup Hread) as (h2 & Hadj & Hmsgs2 & Hread2 & Hother).
  rewrite Hadj. simpl. exists p, ls', h2. repeat split; auto.
  - rewrite Hmsgs2. exact Hmsgs.
  - apply map_subseteq_spec. intros l rr Hl.
    rewrite Hother; [apply (lookup_weaken _ _ _ _ Hl Hsub)|].
    intros Hin. apply Hnew in Hin. congruence.
Qed.



Lemma read_msg_preserved h h' p m rs :
  rrs h ⊆ rrs h' -> msgs h ⊆ msgs h' ->
  read_msg h p = Some (m, rs) -> read_msg h' p = Some (m, rs).
Proof.
  intros Hr Hm. unfold read_msg.
  destruct (msgs h !! p) as [m0|] eqn:Hp; [|discriminate]. simpl.
  destruct (read_rrs h (Answer m0)) as [rs0|] eqn:Hrs; [|discriminate]. simpl.
  intros [= <- <-]. rewrite (lookup_weaken _ _ _ _ Hp Hm). simpl.
  rewrite (read_rrs_mono _ _ _ _ Hr Hrs). reflexivity.
Qed.


(** The cache of the test [ttl_adjustment]: one A answer of TTL 300 stored
    at time 0. *)
Definition ttl_cache : Cache * Heap :=
  default (New 100 (5 * minute) minute (1440 * minute), sample_heap)
          (run_sets [("test.com.:A", Some 1%positive, 0)]
                    (New 100 (5 * minute) minute (1440 * minute)) sample_heap).


End LocalCache.

(** ** The remote response cache (package resolver, cache.go) *)

Module RemoteCache.

Definition loc := positive.

(** [ResolveResult] behind a pointer.  [Records] is a slice: the address
    of its array ([None]: the nil slice); the array holds the elements of
    the slice. *)
Record ResolveResult := mkResolveResult {
  Domain : string;
  Records : option loc;
  Cached : bool
}.

Record Heap := mkHeap {
  results : gmap loc ResolveResult;
  arrays : gmap loc (list Resolver.DNSRecord)
}.

Record cacheEntry := mkCacheEntry {
  result : loc;
  expiresAt : Z
}.

Record Cache := mkCache {
  items : gmap string cacheEntry;
  maxItems : Z;
  ttl : Z
}.

Definition set_items (c : Cache) (m : gmap string cacheEntry) : Cache :=
  mkCache m (maxItems c) (ttl c).

Definition NewCache (maxItems ttl : Z) : Cache := mkCache ∅ maxItems ttl.

(** The elements of a slice. *)
Definition slice_elems (h : Heap) (s : option loc) : option (list Resolver.DNSRecord) :=
  match s with
  | None => Some []
  | Some a => arrays h !! a
  end.

(** What a pointer to a result designates: domain, records, flag. *)
Definition read_result (h : Heap) (p : loc)
  : option (string * list Resolver.DNSRecord * bool) :=
  r ← results h !! p;
  recs ← slice_elems h (Records r);
  Some (Domain r, recs, Cached r).

(** [Get]: under the read lock throughout; an expired entry is reported
    as a miss and left where it is. *)
Definition Get (c : Cache) (h : Heap) (key : string) (now : Z)
  : option (option loc * Cache * Heap) :=
  match items c !! key with
  | None => Some (None, c, h)
  | Some entry =>
      if expiresAt entry <? now then Some (None, c, h)
      else
        r ← results h !! result entry;
        src ← slice_elems h (Records r);
        let a := fresh (dom (arrays h)) in
        let p := fresh (dom (results h)) in
        Some (Some p, c,
              mkHeap (<[p := mkResolveResult (Domain r) (Some a) (Cached r)]> (results h))
                     (<[a := src]> (arrays h)))
  end.

Definition zeroTime : Z := -62135596800 * 1000000000.

Definition evict_step (acc : string * Z) (ke : string * cacheEntry) : string * Z :=
  if String.eqb acc.1 "" || (expiresAt ke.2 <? acc.2) then (ke.1, expiresAt ke.2)
  else acc.

Definition evictOldest (order : list (string * cacheEntry)) (m : gmap string cacheEntry)
  : gmap string cacheEntry :=
  let oldestKey := (fold_left evict_step order (EmptyString, zeroTime)).1 in
  if String.eqb oldestKey "" then m else delete oldestKey m.

(** [Set]: the pointer itself is stored. *)
Definition Set_ (c : Cache) (key : string) (res : loc) (now : Z)
    (order : list (string * cacheEntry)) : Cache :=
  let kept := if maxItems c <=? Z.of_nat (size (items c))
              then evictOldest order (items c) else items c in
  set_items c (<[key := mkCacheEntry res (now + ttl c)]> kept).

(** *** Reading *)

Lemma Get_expired_stays c h key entry now :
  items c !! key = Some entry -> expiresAt entry < now ->
  Get c h key now = Some (None, c, h).
Proof.
  intros Hkey Hexp. unfold Get. rewrite Hkey.
  destruct (Z.ltb_spec (expiresAt entry) now); [reflexivity|lia].
Qed.

Lemma Get_hit_copy c h key entry now dom_ recs cached :
  items c !! key = Some entry -> now <= expiresAt entry ->
  read_result h (result entry) = Some (dom_, recs, cached) ->
  exists p h',
    Get c h key now = Some (Some p, c, h') /\
    results h !! p = None /\ p <> result entry /\
    read_result h' p = Some (dom_, recs, cached) /\
    (exists a, Records <$> results h' !! p = Some (Some a) /\ arrays h !! a = None) /\
    results h ⊆ results h' /\ arrays h ⊆ arrays h'.
Proof.
  intros Hkey Hlive Hread. unfold Get. rewrite Hkey.
  destruct (Z.ltb_spec (expiresAt entry) now); [lia|].
  unfold read_result in Hread.
  destruct (results h !! result entry) as [r|] eqn:Hr; [|discriminate].
  simpl in Hread |- *.
  destruct (slice_elems h (Records r)) as [src|] eqn:Hsrc; [|discriminate].
  simpl in Hread |- *. injection Hread as <- <- <-.
  set (a := fresh (dom (arrays h))). set (p := fresh (dom (results h))).
  assert (Ha : arrays h !! a = None) by apply not_elem_of_dom, is_fresh.
  assert (Hp : results h !! p = None) by apply not_elem_of_dom, is_fresh.
  eexists p, _. split; [reflexivity|]. repeat split.
  - exact Hp.
  - intros ->. congruence.
  - unfold read_result. simpl. rewrite lookup_insert_eq. simpl.
    rewrite lookup_insert_eq. reflexivity.
  - exists a. simpl. rewrite lookup_insert_eq. split; [reflexivity|exact Ha].
  - simpl. apply insert_subseteq, Hp.
  - simpl. apply insert_subseteq, Ha.
Qed.

End RemoteCache.

(** ** Reading the two caches *)

Module CacheReads.

(** C5, as the code has it.  In the local cache, [Get] on an entry that is
    present and expired deletes it and reports a miss; in the remote cache
    it reports a miss and leaves the map as it was.  In both, a hit hands
    out a new object with the payload of the stored one (for the local
    cache: up to the TTLs), and the stored object is unchanged. *)
Theorem Get_expired_and_hit :
  (forall (c : LocalCache.Cache) (h : DNS.Heap) key entry now_check now_since,
      LocalCache.items c !! key = Some entry ->
      LocalCache.ExpiresAt entry < now_check ->
      LocalCache.Get c h key now_check now_since =
        Some (None, LocalCache.set_items c (delete key (LocalCache.items c)), h)) /\
  (forall (c : LocalCache.Cache) (h : DNS.Heap) key entry m rs now_check now_since,
      LocalCache.items c !! key = Some entry ->
      now_check <= LocalCache.ExpiresAt entry ->
      DNS.read_msg h (LocalCache.eMsg entry) = Some (m, rs) ->
      exists p h' m' rs',
        LocalCache.Get c h key now_check now_since = Some (Some p, c, h') /\
        DNS.msgs h !! p = None /\ p <> LocalCache.eMsg entry /\
        DNS.read_msg h' p = Some (m', rs') /\
        DNS.with_Answer m' [] = DNS.with_Answer m [] /\
        Forall (fun l => DNS.rrs h !! l = None) (DNS.Answer m') /\
        Forall2 (fun r' r => exists ttl, r' = DNS.set_Ttl r ttl) rs' rs /\
        DNS.read_msg h' (LocalCache.eMsg entry) = Some (m, rs)) /\
  (forall (c : RemoteCache.Cache) (h : RemoteCache.Heap) key entry now,
      RemoteCache.items c !! key = Some entry ->
      RemoteCache.expiresAt entry < now ->
      RemoteCache.Get c h key now = Some (None, c, h)) /\
  (forall (c : RemoteCache.Cache) (h : RemoteCache.Heap) key entry now payload,
      RemoteCache.items c !! key = Some entry ->
      now <= RemoteCache.expiresAt entry ->
      RemoteCache.read_result h (RemoteCache.result entry) = Some payload ->
      exists p h',
        RemoteCache.Get c h key now = Some (Some p, c, h') /\
        RemoteCache.results h !! p = None /\ p <> RemoteCache.result entry /\
        RemoteCache.read_result h' p = Some payload /\
        RemoteCache.read_result h' (RemoteCache.result entry) = Some payload).
Proof.
  split; [|split; [|split]].
  - intros c h key entry now_check now_since Hkey Hexp.
    unfold LocalCache.Get. rewrite Hkey.
    destruct (Z.ltb_spec (LocalCache.ExpiresAt entry) now_check); [reflexivity|lia].
  - intros c h key entry m rs now_check now_since Hkey Hlive Hmsg.
    destruct (LocalCache.Get_hit c h key entry m rs now_check now_since Hkey Hlive Hmsg)
      as (p & ls' & h' & HGet & Hp & Hmsgs & Hsub & Hread & Hnew).
    assert (Hmsub : DNS.msgs h ⊆ DNS.msgs h')
      by (rewrite Hmsgs; apply insert_subseteq, Hp).
    exists p, h', (DNS.with_Answer m ls'),
      (map (LocalCache.decay
              (LocalCache.elapsed_seconds now_since (LocalCache.CreatedAt entry))) rs).
    repeat split; auto.
    + intros ->. unfold DNS.read_msg in Hmsg. rewrite Hp in Hmsg. discriminate.
    + unfold DNS.read_msg. rewrite Hmsgs, lookup_insert_eq. simpl.
      rewrite Hread. reflexivity.
    + apply Forall_forall. exact Hnew.
    + clear. induction rs as [|r rs IH]; simpl; constructor; [|exact IH].
      unfold LocalCache.decay. destruct (_ <? _); eexists; reflexivity.
    + eapply LocalCache.read_msg_preserved; eassumption.
  - intros c h key entry now. apply RemoteCache.Get_expired_stays.
  - intros c h key entry now [[dom_ recs] cached] Hkey Hlive Hread.
    destruct (RemoteCache.Get_hit_copy c h key entry now dom_ recs cached Hkey Hlive Hread)
      as (p & h' & HGet & Hp & Hne & Hread' & _ & Hrsub & Hasub).
    exists p, h'. repeat split; auto.
    unfold RemoteCache.read_result in Hread |- *.
    destruct (RemoteCache.results h !! RemoteCache.result entry) as [r|] eqn:Hr;
      [|discriminate].
    rewrite (lookup_weaken _ _ _ _ Hr Hrsub). simpl in Hread |- *.
    destruct (RemoteCache.Records r) as [a|]; simpl in Hread |- *; [|exact Hread].
    destruct (RemoteCache.arrays h !! a) as [src|] eqn:Ha; [|discriminate].
    rewrite (lookup_weaken _ _ _ _ Ha Hasub). exact Hread.
Qed.


(** The remote cache of the test [expiry]: a result without records,
    stored at time 0 for one minute. *)
Definition expire_heap : RemoteCache.Heap :=
  RemoteCache.mkHeap {[ 1%positive := RemoteCache.mkResolveResult "expire.com" None false ]} ∅.

Definition expire_cache : RemoteCache.Cache :=
  RemoteCache.Set_ (RemoteCache.NewCache 10 LocalCache.minute) "expire.com:A" 1%positive 0 [].

Definition expire_entry : RemoteCache.cacheEntry :=
  RemoteCache.mkCacheEntry 1%positive LocalCache.minute.

Lemma Get_expired_and_hit_witness :
  LocalCache.Get LocalCache.ttl_cache.1 LocalCache.ttl_cache.2 "test.com.:A"
      (301 * LocalCache.Second) (301 * LocalCache.Second)
    = Some (None, LocalCache.set_items LocalCache.ttl_cache.1 ∅, LocalCache.ttl_cache.2) /\
  (exists p h', LocalCache.Get LocalCache.ttl_cache.1 LocalCache.ttl_cache.2 "test.com.:A"
                  (10 * LocalCache.Second) (10 * LocalCache.Second)
                = Some (Some p, LocalCache.ttl_cache.1, h') /\ p <> 2%positive) /\
  RemoteCache.Get expire_cache expire_heap "expire.com:A" (61 * LocalCache.Second)
    = Some (None, expire_cache, expire_heap) /\
  (exists p h', RemoteCache.Get expire_cache expire_heap "expire.com:A" LocalCache.Second
                = Some (Some p, expire_cache, h') /\
                RemoteCache.read_result h' p = Some ("expire.com", [], false)).
Proof.
  destruct Get_expired_and_hit as (Hlx & Hlh & Hrx & Hrh).
  split; [|split; [|split]].
  - rewrite (Hlx LocalCache.ttl_cache.1 LocalCache.ttl_cache.2 "test.com.:A"
               (LocalCache.mkEntry 2%positive (300 * LocalCache.Second) 0)).
    + vm_compute. reflexivity.
    + vm_compute. reflexivity.
    + vm_compute. reflexivity.
  - destruct (Hlh LocalCache.ttl_cache.1 LocalCache.ttl_cache.2 "test.com.:A"
                (LocalCache.mkEntry 2%positive (300 * LocalCache.Second) 0)
                (DNS.mkMsg 7 true false true 0
                   [DNS.mkQuestion "test.com." DNS.TypeA DNS.ClassINET] [2%positive])
                [DNS.mkRR (DNS.mkHeader "test.com." DNS.TypeA DNS.ClassINET 300)
                          (DNS.RD_A (Some [x01; x02; x03; x04]))]
                (10 * LocalCache.Second) (10 * LocalCache.Second))
      as (p & h' & _ & _ & HGet & _ & Hne & _).
    + vm_compute. reflexivity.
    + vm_compute. discriminate.
    + vm_compute. reflexivity.
    + exists p, h'. split; [exact HGet|exact Hne].
  - apply (Hrx expire_cache expire_heap "expire.com:A" expire_entry).
    + vm_compute. reflexivity.
    + vm_compute. reflexivity.
  - destruct (Hrh expire_cache expire_heap "expire.com:A" expire_entry
                LocalCache.Second ("expire.com", [], false))
      as (p & h' & HGet & _ & _ & Hread & _).
    + vm_compute. reflexivity.
    + vm_compute. discriminate.
    + vm_compute. reflexivity.
    + exists p, h'. split; [exact HGet|exact Hread].
Defined.

(** C5 as stated fails for the remote cache: reading an expired entry
    reports a miss and the entry is still in the map afterwards. *)
Lemma remote_Get_keeps_expired_entry :
  RemoteCache.items expire_cache !! "expire.com:A" = Some expire_entry /\
  RemoteCache.expiresAt expire_entry < 61 * LocalCache.Second /\
  exists c' h',
    RemoteCache.Get expire_cache expire_heap "expire.com:A" (61 * LocalCache.Second)
      = Some (None, c', h') /\
    RemoteCache.items c' !! "expire.com:A" = Some expire_entry /\
    RemoteCache.items c' <> delete "expire.com:A" (RemoteCache.items expire_cache).
Proof.
  split; [vm_compute; reflexivity|]. split; [vm_compute; reflexivity|].
  exists expire_cache, expire_heap. split; [vm_compute; reflexivity|].
  split; [vm_compute; reflexivity|].
  intros Heq. apply (f_equal (fun m => m !! "expire.com:A")) in Heq.
  rewrite lookup_delete_eq in Heq. vm_compute in Heq. discriminate.
Qed.

End CacheReads.

(** ** The envelope codec (package crypto) *)

(** *** [encoding/base64], the standard alphabet with padding *)

Module Base64.

Definition alphabet : list ascii :=
  list_ascii_of_string "ABCDEFGHIJKLMNOPQRSTUVWXYZabcdefghijklmnopqrstuvwxyz0123456789+/".

Definition pad : ascii := "="%char.

(** Six bits, the most significant first. *)
Definition sextet : Type := bool * bool * bool * bool * bool * bool.

Definition sextet_index (s : sextet) : nat :=
  let '(b5, b4, b3, b2, b1, b0) := s in
  (Nat.b2n b5 * 32 + Nat.b2n b4 * 16 + Nat.b2n b3 * 8 +
   Nat.b2n b2 * 4 + Nat.b2n b1 * 2 + Nat.b2n b0)%nat.

Definition index_sextet (n : nat) : sextet :=
  (Nat.testbit n 5, Nat.testbit n 4, Nat.testbit n 3,
   Nat.testbit n 2, Nat.testbit n 1, Nat.testbit n 0).

Definition enc6 (s : sextet) : ascii := nth (sextet_index s) alphabet pad.

Fixpoint position (c : ascii) (cs : list ascii) (i : nat) : option nat :=
  match cs with
  | [] => None
  | c' :: cs' => if Ascii.eqb c c' then Some i else position c cs' (S i)
  end.

Definition dec6 (c : ascii) : option sextet :=
  index_sextet <$> position c alphabet 0.

(** Three bytes are four sextets. *)
Definition encode3 (x y z : byte) : list ascii :=
  let '(Ascii x0 x1 x2 x3 x4 x5 x6 x7) := ascii_of_byte x in
  let '(Ascii y0 y1 y2 y3 y4 y5 y6 y7) := ascii_of_byte y in
  let '(Ascii z0 z1 z2 z3 z4 z5 z6 z7) := ascii_of_byte z in
  [enc6 (x7, x6, x5, x4, x3, x2); enc6 (x1, x0, y7, y6, y5, y4);
   enc6 (y3, y2, y1, y0, z7, z6); enc6 (z5, z4, z3, z2, z1, z0)].

Fixpoint encode (bs : list byte) : list ascii :=
  match bs with
  | [] => []
  | [x] => take 2 (encode3 x x00 x00) ++ [pad; pad]
  | [x; y] => take 3 (encode3 x y x00) ++ [pad]
  | x :: y :: z :: rest => encode3 x y z ++ encode rest
  end.

Definition EncodeToString (bs : list byte) : string :=
  string_of_list_ascii (encode bs).

Definition decode4 (c0 c1 c2 c3 : ascii) : option (byte * byte * byte) :=
  '(a5, a4, a3, a2, a1, a0) ← dec6 c0;
  '(b5, b4, b3, b2, b1, b0) ← dec6 c1;
  '(c5, c4, c3_, c2_, c1_, c0_) ← dec6 c2;
  '(d5, d4, d3, d2, d1, d0) ← dec6 c3;
  Some (byte_of_ascii (Ascii b4 b5 a0 a1 a2 a3 a4 a5),
        byte_of_ascii (Ascii c2_ c3_ c4 c5 b0 b1 b2 b3),
        byte_of_ascii (Ascii d0 d1 d2 d3 d4 d5 c0_ c1_)).

(** The last quantum may carry one or two padding characters. *)
Definition decode_last (c0 c1 c2 c3 : ascii) : option (list byte) :=
  if Ascii.eqb c3 pad then
    if Ascii.eqb c2 pad then
      '(x, _, _) ← decode4 c0 c1 "A" "A"; Some [x]
    else
      '(x, y, _) ← decode4 c0 c1 c2 "A"; Some [x; y]
  else
    '(x, y, z) ← decode4 c0 c1 c2 c3; Some [x; y; z].

Fixpoint decode (cs : list ascii) : option (list byte) :=
  match cs with
  | [] => Some []
  | c0 :: c1 :: c2 :: c3 :: rest =>
      match rest with
      | [] => decode_last c0 c1 c2 c3
      | _ =>
          '(x, y, z) ← decode4 c0 c1 c2 c3;
          bs ← decode rest;
          Some (x :: y :: z :: bs)
      end
  | _ => None
  end.

Definition is_newline (c : ascii) : bool :=
  Ascii.eqb c (ascii_of_nat 10) || Ascii.eqb c (ascii_of_nat 13).

(** [DecodeString]: line breaks are skipped; anything else outside the
    format is an error. *)
Definition DecodeString (s : string) : option (list byte) :=
  decode (List.filter (fun c => negb (is_newline c)) (list_ascii_of_string s)).

Example encode_foobar :
  EncodeToString [x66; x6f; x6f; x62; x61; x72] = "Zm9vYmFy" /\
  EncodeToString [x66; x6f; x6f; x62; x61] = "Zm9vYmE=" /\
  EncodeToString [x66; x6f; x6f; x62] = "Zm9vYg==" /\
  DecodeString "Zm9vYg==" = Some [x66; x6f; x6f; x62] /\
  DecodeString "Zm9vYmE=" = Some [x66; x6f; x6f; x62; x61] /\
  DecodeString "Zm9vYmFy" = Some [x66; x6f; x6f; x62; x61; x72] /\
  DecodeString "Zm9vYmF" = None /\ DecodeString "Zm9v=mFy" = None.
Proof. vm_compute. repeat split. Qed.

Lemma dec6_enc6 s : dec6 (enc6 s) = Some s.
Proof. destruct s as [[[[[[] []] []] []] []] []]; vm_compute; reflexivity. Qed.

Lemma enc6_plain s : Ascii.eqb (enc6 s) pad = false /\ is_newline (enc6 s) = false.
Proof. destruct s as [[[[[[] []] []] []] []] []]; vm_compute; split; reflexivity. Qed.

Lemma decode4_encode3 x y z :
  exists c0 c1 c2 c3,
    encode3 x y z = [c0; c1; c2; c3] /\
    decode4 c0 c1 c2 c3 = Some (x, y, z) /\
    Forall (fun c => Ascii.eqb c pad = false /\ is_newline c = false) [c0; c1; c2; c3].
Proof.
  unfold encode3.
  destruct (ascii_of_byte x) eqn:Hx, (ascii_of_byte y) eqn:Hy, (ascii_of_byte z) eqn:Hz.
  do 4 eexists. split; [reflexivity|]. split.
  - unfold decode4. rewrite !dec6_enc6.
    cbv beta iota delta [mbind option_bind].
    rewrite <- Hx, <- Hy, <- Hz, !byte_of_ascii_of_byte. reflexivity.
  - repeat constructor; apply enc6_plain.
Qed.

Definition plain (c : ascii) : Prop := Ascii.eqb c pad = false /\ is_newline c = false.

Lemma dec6_A : dec6 "A" = Some (false, false, false, false, false, false).
Proof. reflexivity. Qed.

Lemma encode_one x :
  exists c0 c1,
    take 2 (encode3 x x00 x00) = [c0; c1] /\
    decode_last c0 c1 pad pad = Some [x] /\ plain c0 /\ plain c1.
Proof.
  unfold encode3.
  change (ascii_of_byte x00) with (Ascii false false false false false false false false).
  destruct (ascii_of_byte x) eqn:Hx.
  do 2 eexists. split; [reflexivity|]. split; [|split; apply enc6_plain].
  unfold decode_last. change (Ascii.eqb pad pad) with true.
  cbv beta iota. unfold decode4. rewrite !dec6_enc6, dec6_A.
  cbv beta iota delta [mbind option_bind].
  rewrite <- Hx, byte_of_ascii_of_byte. reflexivity.
Qed.

Lemma encode_two x y :
  exists c0 c1 c2,
    take 3 (encode3 x y x00) = [c0; c1; c2] /\
    decode_last c0 c1 c2 pad = Some [x; y] /\ plain c0 /\ plain c1 /\ plain c2.
Proof.
  unfold encode3.
  change (ascii_of_byte x00) with (Ascii false false false false false false false false).
  destruct (ascii_of_byte x) eqn:Hx, (ascii_of_byte y) eqn:Hy.
  do 3 eexists. split; [reflexivity|]. split; [|repeat split; apply enc6_plain].
  unfold decode_last. change (Ascii.eqb pad pad) with true.
  rewrite (proj1 (enc6_plain _)).
  cbv beta iota. unfold decode4. rewrite !dec6_enc6, dec6_A.
  cbv beta iota delta [mbind option_bind].
  rewrite <- Hx, <- Hy, !byte_of_ascii_of_byte. reflexivity.
Qed.

(** Induction three bytes at a time. *)
Lemma triples_ind (P : list byte -> Prop) :
  P [] -> (forall x, P [x]) -> (forall x y, P [x; y]) ->
  (forall x y z rest, P rest -> P (x :: y :: z :: rest)) ->
  forall bs, P bs.
Proof.
  intros H0 H1 H2 H3.
  assert (H : forall bs, P bs /\ (forall x, P (x :: bs)) /\ (forall x y, P (x :: y :: bs))).
  { induction bs as [|z bs (IH0 & IH1 & IH2)]; [auto|].
    split; [apply IH1|]. split; [intros x; apply IH2|].
    intros x y. apply H3, IH0. }
  intros bs. apply H.
Qed.

Lemma encode_chars bs :
  Forall (fun c => is_newline c = false) (encode bs).
Proof.
  induction bs as [|x|x y|x y z rest IH] using triples_ind.
  - constructor.
  - destruct (encode_one x) as (c0 & c1 & He & _ & [_ H0] & [_ H1]).
    cbn [encode]. rewrite He. repeat constructor; assumption.
  - destruct (encode_two x y) as (c0 & c1 & c2 & He & _ & [_ H0] & [_ H1] & [_ H2]).
    cbn [encode]. rewrite He. repeat constructor; assumption.
  - destruct (decode4_encode3 x y z) as (c0 & c1 & c2 & c3 & He & _ & Hpl).
    cbn [encode]. rewrite He. apply Forall_app. split; [|exact IH].
    eapply Forall_impl; [exact Hpl|]. intros c [_ Hc]. exact Hc.
Qed.

Lemma decode_encode bs : decode (encode bs) = Some bs.
Proof.
  induction bs as [|x|x y|x y z rest IH] using triples_ind.
  - reflexivity.
  - destruct (encode_one x) as (c0 & c1 & He & Hd & _).
    cbn [encode]. rewrite He. exact Hd.
  - destruct (encode_two x y) as (c0 & c1 & c2 & He & Hd & _).
    cbn [encode]. rewrite He. exact Hd.
  - destruct (decode4_encode3 x y z) as (c0 & c1 & c2 & c3 & He & Hd & Hpl).
    cbn [encode]. rewrite He. cbn [app decode].
    destruct (encode rest) as [|c cs] eqn:Hrest.
    + unfold decode_last.
      inversion Hpl as [|? ? _ Hpl1]; subst. inversion Hpl1 as [|? ? _ Hpl2]; subst.
      inversion Hpl2 as [|? ? _ Hpl3]; subst. inversion Hpl3 as [|? ? [Hc3 _] _]; subst.
      rewrite Hc3, Hd. cbn in IH. injection IH as <-. reflexivity.
    + rewrite Hd. cbv beta iota delta [mbind option_bind].
      rewrite IH. reflexivity.
Qed.

(** Decoding what [EncodeToString] produced gives the bytes back. *)
Lemma DecodeString_EncodeToString bs : DecodeString (EncodeToString bs) = Some bs.
Proof.
  unfold DecodeString, EncodeToString.
  rewrite list_ascii_of_string_of_list_ascii.
  assert (Hf : List.filter (fun c => negb (is_newline c)) (encode bs) = encode bs).
  { pose proof (encode_chars bs) as Hc.
    induction Hc as [|c cs Hc Hcs IH]; [reflexivity|].
    simpl. rewrite Hc. simpl. rewrite IH. reflexivity. }
  rewrite Hf. apply decode_encode.
Qed.

End Base64.

(** *** [encoding/hex] *)

Module Hex.

Definition fromHexChar (c : ascii) : option N :=
  let n := N_of_ascii c in
  if (48 <=? n)%N && (n <=? 57)%N then Some (n - 48)%N
  else if (97 <=? n)%N && (n <=? 102)%N then Some (n - 87)%N
  else if (65 <=? n)%N && (n <=? 70)%N then Some (n - 55)%N
  else None.

Fixpoint decode (cs : list ascii) : option (list byte) :=
  match cs with
  | [] => Some []
  | a :: b :: rest =>
      hi ← fromHexChar a;
      lo ← fromHexChar b;
      bs ← decode rest;
      Some (byte_of_ascii (ascii_of_N (hi * 16 + lo)) :: bs)
  | _ => None
  end.

(** [hex.DecodeString]: an odd length or a character that is not a
    hexadecimal digit is an error. *)
Definition DecodeString (s : string) : option (list byte) :=
  decode (list_ascii_of_string s).

(** The bytes a string of hexadecimal digits denotes (none if it is not
    one); for writing test vectors. *)
Definition bytes (s : string) : list byte := default [] (DecodeString s).

Lemma decode_length cs bs : decode cs = Some bs -> length cs = (2 * length bs)%nat.
Proof.
  assert (H : forall n cs bs, (length cs < n)%nat -> decode cs = Some bs ->
                              length cs = (2 * length bs)%nat).
  { clear. induction n as [|n IH]; intros cs bs Hlen; [lia|].
    destruct cs as [|a [|b rest]]; simpl.
    - intros [= <-]. reflexivity.
    - discriminate.
    - destruct (fromHexChar a); [|discriminate]. simpl.
      destruct (fromHexChar b); [|discriminate]. simpl.
      destruct (decode rest) as [bs'|] eqn:Hrest; [|discriminate]. simpl.
      intros [= <-]. simpl in Hlen |- *.
      rewrite (IH rest bs') by (auto; lia). lia. }
  apply (H (S (length cs))). lia.
Qed.

End Hex.

(** *** [crypto/aes]: the block cipher for 256-bit keys (FIPS 197) *)

Module AES.

Definition xtime (a : N) : N :=
  let d := N.shiftl a 1 in
  if N.testbit a 7 then N.lxor (N.land d 255) 27 else d.

(** The product in GF(2^8), over the eight bits of [b]. *)
Fixpoint gmul_bits (n : nat) (a b : N) : N :=
  match n with
  | O => 0%N
  | S n' => N.lxor (if N.odd b then a else 0%N) (gmul_bits n' (xtime a) (N.shiftr b 1))
  end.

Definition gmul (a b : N) : N := gmul_bits 8 a b.

Definition ginv (a : N) : N :=
  default 0%N (List.find (fun b => N.eqb (gmul a b) 1) (map N.of_nat (seq 0 256))).

Definition rotl8 (a k : N) : N :=
  N.land (N.lor (N.shiftl a k) (N.shiftr a (8 - k))) 255.

Definition sbox_of (a : N) : N :=
  let b := ginv a in
  N.lxor (N.lxor (N.lxor (N.lxor (N.lxor b (rotl8 b 1)) (rotl8 b 2)) (rotl8 b 3))
                 (rotl8 b 4)) 99.

Definition sbox : list N :=
  Eval vm_compute in map (fun i => sbox_of (N.of_nat i)) (seq 0 256).

Definition SubByte (a : N) : N := nth (N.to_nat a) sbox 0%N.

(** Words are 32 bits wide, the first byte the most significant. *)
Definition word_bytes (w : N) : list N :=
  [N.land (N.shiftr w 24) 255; N.land (N.shiftr w 16) 255;
   N.land (N.shiftr w 8) 255; N.land w 255].

Definition bytes_word (bs : list N) : N :=
  fold_left (fun acc b => (acc * 256 + b)%N) bs 0%N.

Definition SubWord (w : N) : N := bytes_word (map SubByte (word_bytes w)).

Definition RotWord (w : N) : N :=
  N.lor (N.land (N.shiftl w 8) 4294967295) (N.shiftr w 24).

Fixpoint pow_x (n : nat) : N :=
  match n with
  | O => 1%N
  | S n' => xtime (pow_x n')
  end.

Definition Rcon (j : nat) : N := N.shiftl (pow_x (j - 1)) 24.

Definition expand_step (w : list N) (i : nat) : list N :=
  let temp := nth (i - 1) w 0%N in
  let temp := if Nat.eqb (i `mod` 8) 0 then N.lxor (SubWord (RotWord temp)) (Rcon (i / 8))
              else if Nat.eqb (i `mod` 8) 4 then SubWord temp
              else temp in
  w ++ [N.lxor (nth (i - 8) w 0%N) temp].

Fixpoint words (bs : list N) : list N :=
  match bs with
  | a :: b :: c :: d :: rest => bytes_word [a; b; c; d] :: words rest
  | _ => []
  end.

(** The key schedule for eight key words and fourteen rounds: sixty words. *)
Definition KeyExpansion (key : list N) : list N :=
  fold_left expand_step (seq 8 52) (words key).

Definition AddRoundKey (w : list N) (round : nat) (st : list N) : list N :=
  let rk := flat_map word_bytes (firstn 4 (skipn (4 * round) w)) in
  map (fun ab => N.lxor ab.1 ab.2) (combine st rk).

Definition SubBytes (st : list N) : list N := map SubByte st.

(** The state is held column by column. *)
Definition ShiftRows (st : list N) : list N :=
  map (fun i => nth i st 0%N) [0; 5; 10; 15; 4; 9; 14; 3; 8; 13; 2; 7; 12; 1; 6; 11]%nat.

Definition mix_column (a0 a1 a2 a3 : N) : list N :=
  [N.lxor (N.lxor (xtime a0) (N.lxor (xtime a1) a1)) (N.lxor a2 a3);
   N.lxor (N.lxor a0 (xtime a1)) (N.lxor (N.lxor (xtime a2) a2) a3);
   N.lxor (N.lxor a0 a1) (N.lxor (xtime a2) (N.lxor (xtime a3) a3));
   N.lxor (N.lxor (N.lxor (xtime a0) a0) a1) (N.lxor a2 (xtime a3))].

Fixpoint MixColumns (st : list N) : list N :=
  match st with
  | a0 :: a1 :: a2 :: a3 :: rest => mix_column a0 a1 a2 a3 ++ MixColumns rest
  | _ => []
  end.

Fixpoint rounds (w : list N) (n round : nat) (st : list N) : list N :=
  match n with
  | O => st
  | S n' =>
      rounds w n' (S round) (AddRoundKey w round (MixColumns (ShiftRows (SubBytes st))))
  end.

Definition Cipher (w : list N) (input : list N) : list N :=
  let st := AddRoundKey w 0 input in
  let st := rounds w 13 1 st in
  AddRoundKey w 14 (ShiftRows (SubBytes st)).

(** A [cipher.Block]: the expanded key. *)
Record Block := mkBlock { schedule : list N }.

(** [aes.NewCipher].  Keys of 16 and 24 bytes, which the program never
    passes on, are not covered and count as an error here. *)
Definition NewCipher (key : list byte) : option Block :=
  if Nat.eqb (length key) 32 then Some (mkBlock (KeyExpansion (map Byte.to_N key)))
  else None.

(** Appendix C.3 of FIPS 197. *)
Example fips197_c3 :
  exists blk,
    NewCipher (Hex.bytes "000102030405060708090a0b0c0d0e0f101112131415161718191a1b1c1d1e1f")
      = Some blk /\
    Cipher (schedule blk) (map Byte.to_N (Hex.bytes "00112233445566778899aabbccddeeff"))
      = map Byte.to_N (Hex.bytes "8ea2b7ca516745bfeafc49904b496089").
Proof. eexists. split; [reflexivity|vm_compute; reflexivity]. Qed.

End AES.

(** *** [crypto/cipher]: the AEAD interface and Galois/Counter mode
    (NIST SP 800-38D) with 12-byte nonces and 16-byte tags *)

Module GCM.

(** [cipher.AEAD].  [Seal dst nonce plaintext additionalData] and
    [Open dst nonce ciphertext additionalData]; [None] from [Seal] is the
    panic on a nonce of the wrong length, [None] from [Open] that panic or
    the authentication error. *)
Record AEAD := mkAEAD {
  NonceSize : nat;
  Overhead : nat;
  Seal : list byte -> list byte -> list byte -> list byte -> option (list byte);
  Open : list byte -> list byte -> list byte -> list byte -> option (list byte)
}.

Definition n2b (n : N) : byte := default x00 (Byte.of_N n).

Definition bxor (a b : byte) : byte :=
  let '(a0, (a1, (a2, (a3, (a4, (a5, (a6, a7))))))) := Byte.to_bits a in
  let '(b0, (b1, (b2, (b3, (b4, (b5, (b6, b7))))))) := Byte.to_bits b in
  Byte.of_bits (xorb a0 b0, (xorb a1 b1, (xorb a2 b2, (xorb a3 b3,
               (xorb a4 b4, (xorb a5 b5, (xorb a6 b6, xorb a7 b7))))))).

(** Blocks are 128 bits wide, the first byte the most significant. *)
Definition block_bytes (b : N) : list N :=
  map (fun i => N.land (N.shiftr b (8 * N.of_nat (15 - i))) 255) (seq 0 16).

Definition bytes_block (bs : list N) : N :=
  fold_left (fun acc b => (acc * 256 + b)%N) bs 0%N.

Definition E (k : AES.Block) (b : N) : N :=
  bytes_block (AES.Cipher (AES.schedule k) (block_bytes b)).

Definition R : N := N.shiftl 225 120.

(** The product in GF(2^128): the bits of [x] from the leftmost on. *)
Fixpoint gf_mul_bits (n : nat) (x v z : N) : N :=
  match n with
  | O => z
  | S n' =>
      let z' := if N.testbit x (N.of_nat n') then N.lxor z v else z in
      let v' := if N.odd v then N.lxor (N.shiftr v 1) R else N.shiftr v 1 in
      gf_mul_bits n' x v' z'
  end.

Definition gf_mul (x y : N) : N := gf_mul_bits 128 x y 0%N.

(** The blocks of a byte string, the last one filled up with zeros. *)
Fixpoint blocks (fuel : nat) (bs : list N) : list N :=
  match fuel, bs with
  | _, [] => []
  | O, _ => []
  | S fuel', _ => bytes_block (firstn 16 (bs ++ repeat 0%N 15)) :: blocks fuel' (skipn 16 bs)
  end.

Definition GHASH (h : N) (xs : list N) : N :=
  fold_left (fun y x => gf_mul (N.lxor y x) h) xs 0%N.

(** The counter block: the nonce and a 32-bit counter. *)
Definition counter (iv j : N) : N := (N.shiftl iv 32 + j `mod` 2 ^ 32)%N.

(** Byte [i] of the key stream; the first block of it is counter 2. *)
Definition keystream_byte (k : AES.Block) (iv : N) (i : nat) : byte :=
  n2b (nth (i `mod` 16) (block_bytes (E k (counter iv (2 + N.of_nat (i / 16))))) 0%N).

Fixpoint ctr_xor (k : AES.Block) (iv : N) (i : nat) (bs : list byte) : list byte :=
  match bs with
  | [] => []
  | b :: bs' => bxor b (keystream_byte k iv i) :: ctr_xor k iv (S i) bs'
  end.

Definition tag (k : AES.Block) (iv : N) (ad ct : list byte) : list byte :=
  let h := E k 0%N in
  let lens := (N.shiftl (8 * N.of_nat (length ad)) 64 + 8 * N.of_nat (length ct))%N in
  let s := GHASH h (blocks (length ad) (map Byte.to_N ad) ++
                    blocks (length ct) (map Byte.to_N ct) ++ [lens]) in
  map n2b (block_bytes (N.lxor s (E k (counter iv 1)))).

Fixpoint bytes_eqb (a b : list byte) : bool :=
  match a, b with
  | [], [] => true
  | x :: a', y :: b' => Byte.eqb x y && bytes_eqb a' b'
  | _, _ => false
  end.

Definition nonce_value (nonce : list byte) : N := bytes_block (map Byte.to_N nonce).

Definition gcmSeal (k : AES.Block) (dst nonce plaintext data : list byte)
  : option (list byte) :=
  if negb (Nat.eqb (length nonce) 12) then None
  else
    let iv := nonce_value nonce in
    let ct := ctr_xor k iv 0 plaintext in
    Some (dst ++ ct ++ tag k iv data ct).

Definition gcmOpen (k : AES.Block) (dst nonce ciphertext data : list byte)
  : option (list byte) :=
  if negb (Nat.eqb (length nonce) 12) then None
  else if (length ciphertext <? 16)%nat then None
  else
    let iv := nonce_value nonce in
    let n := (length ciphertext - 16)%nat in
    let ct := take n ciphertext in
    let received := drop n ciphertext in
    if bytes_eqb (tag k iv data ct) received then Some (dst ++ ctr_xor k iv 0 ct)
    else None.

(** [cipher.NewGCM] *)
Definition NewGCM (k : AES.Block) : AEAD :=
  mkAEAD 12 16 (gcmSeal k) (gcmOpen k).

(** Test cases 13, 14 and 15 of the GCM specification (256-bit keys). *)
Example gcm_test_cases :
  (k ← AES.NewCipher (Hex.bytes "0000000000000000000000000000000000000000000000000000000000000000");
   Seal (NewGCM k) [] (Hex.bytes "000000000000000000000000") [] [])
    = Some (Hex.bytes "530f8afbc74536b9a963b4f1c4cb738b") /\
  (k ← AES.NewCipher (Hex.bytes "0000000000000000000000000000000000000000000000000000000000000000");
   Seal (NewGCM k) [] (Hex.bytes "000000000000000000000000")
        (Hex.bytes "00000000000000000000000000000000") [])
    = Some (Hex.bytes "cea7403d4d606b6e074ec5d3baf39d18d0d1c8a799996bf0265b98b5d48ab919") /\
  (k ← AES.NewCipher (Hex.bytes "feffe9928665731c6d6a8f9467308308feffe9928665731c6d6a8f9467308308");
   Seal (NewGCM k) [] (Hex.bytes "cafebabefacedbaddecaf888")
        (Hex.bytes "d9313225f88406e5a55909c5aff5269a86a7a9531534f7da2e4c303d8a318a721c3c0c95956809532fcf0e2449a6b525b16aedf5aa0de657ba637b391aafd255") [])
    = Some (Hex.bytes "522dc1f099567d07f47f37a32a84427d643a8cdcbfe5c0c97598a2bd2555d1aa8cb08e48590dbb3da7b08b1056828838c5f61e6393ba7a0abcc9f662898015adb094dac5d93471bdec1a502270e3cc6c").
Proof. vm_compute. repeat split. Qed.

(** What the interface promises to its callers. *)
Definition aead_ok (g : AEAD) : Prop :=
  forall dst nonce plaintext data,
    length nonce = NonceSize g ->
    exists sealed,
      Seal g dst nonce plaintext data = Some (dst ++ sealed) /\
      length sealed = (length plaintext + Overhead g)%nat /\
      forall dst', Open g dst' nonce sealed data = Some (dst' ++ plaintext).

Lemma bxor_involutive a b : bxor (bxor a b) b = a.
Proof.
  unfold bxor.
  destruct (Byte.to_bits a) as (a0 & a1 & a2 & a3 & a4 & a5 & a6 & a7) eqn:Ha.
  destruct (Byte.to_bits b) as (b0 & b1 & b2 & b3 & b4 & b5 & b6 & b7) eqn:Hb.
  rewrite Byte.to_bits_of_bits.
  rewrite !xorb_assoc, !xorb_nilpotent, !xorb_false_r.
  rewrite <- Ha. apply Byte.of_bits_to_bits.
Qed.

Lemma ctr_xor_involutive k iv bs : forall i,
  ctr_xor k iv i (ctr_xor k iv i bs) = bs.
Proof.
  induction bs as [|b bs IH]; intros i; simpl; [reflexivity|].
  rewrite bxor_involutive, IH. reflexivity.
Qed.

Lemma ctr_xor_length k iv bs : forall i, length (ctr_xor k iv i bs) = length bs.
Proof. induction bs as [|b bs IH]; intros i; simpl; [reflexivity|]. rewrite IH. reflexivity. Qed.

Lemma tag_length k iv ad ct : length (tag k iv ad ct) = 16%nat.
Proof. unfold tag, block_bytes. rewrite !length_map, length_seq. reflexivity. Qed.

Lemma bytes_eqb_refl a : bytes_eqb a a = true.
Proof.
  induction a as [|x a IH]; simpl; [reflexivity|].
  rewrite IH, andb_true_r. apply Byte.byte_dec_lb. reflexivity.
Qed.

(** What [Seal] appends: the plaintext under the key stream, then the tag. *)
Lemma NewGCM_Seal k dst nonce plaintext data :
  length nonce = 12%nat ->
  Seal (NewGCM k) dst nonce plaintext data =
    Some (dst ++ ctr_xor k (nonce_value nonce) 0 plaintext
              ++ tag k (nonce_value nonce) data (ctr_xor k (nonce_value nonce) 0 plaintext)).
Proof.
  intros Hnonce. change (Seal (NewGCM k)) with (gcmSeal k).
  unfold gcmSeal. rewrite Hnonce. reflexivity.
Qed.

Lemma NewGCM_ok k : aead_ok (NewGCM k).
Proof.
  intros dst nonce plaintext data Hnonce.
  change (NonceSize (NewGCM k)) with 12%nat in Hnonce.
  change (Overhead (NewGCM k)) with 16%nat.
  change (Seal (NewGCM k)) with (gcmSeal k).
  change (Open (NewGCM k)) with (gcmOpen k).
  set (iv := nonce_value nonce).
  set (ct := ctr_xor k iv 0 plaintext).
  exists (ct ++ tag k iv data ct).
  assert (Hct : length ct = length plaintext) by apply ctr_xor_length.
  split; [|split].
  - unfold gcmSeal. rewrite Hnonce. reflexivity.
  - rewrite length_app, tag_length, Hct. reflexivity.
  - intros dst'. unfold gcmOpen. rewrite Hnonce.
    change (negb (12 =? 12)%nat) with false. cbv iota.
    rewrite length_app, tag_length.
    destruct (Nat.ltb_spec (length ct + 16) 16) as [?|_]; [lia|].
    replace (length ct + 16 - 16)%nat with (length ct) by lia.
    rewrite take_app_length, drop_app_length. fold iv.
    rewrite bytes_eqb_refl. unfold ct. rewrite ctr_xor_involutive. reflexivity.
Qed.

End GCM.

(** *** Package crypto: [NewCipher], [Encrypt], [Decrypt] *)

Module Crypto.

Inductive Error :=
| ErrInvalidHexKey
| ErrKeyLength
| ErrAESCipher
| ErrNonce
| ErrSealPanic
| ErrDecodeBase64
| ErrCiphertextTooShort
| ErrDecrypt.

Record Cipher := mkCipher { gcm : GCM.AEAD }.

(** [NewCipher] *)
Definition NewCipher (hexKey : string) : Cipher + Error :=
  match Hex.DecodeString hexKey with
  | None => inr ErrInvalidHexKey
  | Some key =>
      if negb (Nat.eqb (length key) 32) then inr ErrKeyLength
      else
        match AES.NewCipher key with
        | None => inr ErrAESCipher
        | Some block => inl (mkCipher (GCM.NewGCM block))
        end
  end.

(** [io.ReadFull (rand.Reader, buf)] for a buffer of [n] bytes; [rnd n] is
    what the source of randomness delivers when asked for [n] bytes. *)
Definition ReadFull (rnd : nat -> option (list byte)) (n : nat) : option (list byte) :=
  bs ← rnd n;
  if Nat.eqb (length bs) n then Some bs else None.

(** [Encrypt] *)
Definition Encrypt (c : Cipher) (rnd : nat -> option (list byte)) (plaintext : list byte)
  : string + Error :=
  match ReadFull rnd (GCM.NonceSize (gcm c)) with
  | None => inr ErrNonce
  | Some nonce =>
      match GCM.Seal (gcm c) nonce nonce plaintext [] with
      | None => inr ErrSealPanic
      | Some ciphertext => inl (Base64.EncodeToString ciphertext)
      end
  end.

(** [Decrypt] *)
Definition Decrypt (c : Cipher) (encoded : string) : list byte + Error :=
  match Base64.DecodeString encoded with
  | None => inr ErrDecodeBase64
  | Some ciphertext =>
      let nonceSize := GCM.NonceSize (gcm c) in
      if (length ciphertext <? nonceSize)%nat then inr ErrCiphertextTooShort
      else
        match GCM.Open (gcm c) [] (take nonceSize ciphertext)
                       (drop nonceSize ciphertext) [] with
        | None => inr ErrDecrypt
        | Some plaintext => inl plaintext
        end
  end.

Lemma string_length_list s : String.length s = length (list_ascii_of_string s).
Proof. induction s as [|c s IH]; simpl; [reflexivity|]. rewrite IH. reflexivity. Qed.

(** An accepted key is 64 hexadecimal digits, 32 bytes. *)
Lemma NewCipher_valid_key hexKey c :
  NewCipher hexKey = inl c ->
  String.length hexKey = 64%nat /\
  exists key block,
    Hex.DecodeString hexKey = Some key /\ length key = 32%nat /\
    AES.NewCipher key = Some block /\ gcm c = GCM.NewGCM block.
Proof.
  unfold NewCipher.
  destruct (Hex.DecodeString hexKey) as [key|] eqn:Hhex; [|discriminate].
  destruct (Nat.eqb_spec (length key) 32) as [Hlen|]; [|discriminate].
  cbv [negb]. destruct (AES.NewCipher key) as [block|] eqn:Haes; [|discriminate].
  intros [= <-]. split.
  - apply Hex.decode_length in Hhex.
    rewrite string_length_list. unfold Hex.DecodeString in *. lia.
  - exists key, block. auto.
Qed.

(** The round trip over any AEAD that keeps the promises of the interface. *)
Lemma Decrypt_Encrypt_aead c rnd nonce m :
  GCM.aead_ok (gcm c) ->
  rnd (GCM.NonceSize (gcm c)) = Some nonce ->
  length nonce = GCM.NonceSize (gcm c) ->
  exists env sealed,
    Encrypt c rnd m = inl env /\
    Base64.DecodeString env = Some (nonce ++ sealed) /\
    length sealed = (length m + GCM.Overhead (gcm c))%nat /\
    Decrypt c env = inl m.
Proof.
  intros Hok Hrnd Hlen.
  destruct (Hok nonce nonce m [] Hlen) as (sealed & Hseal & Hsl & Hopen).
  exists (Base64.EncodeToString (nonce ++ sealed)), sealed.
  assert (Hdec : Base64.DecodeString (Base64.EncodeToString (nonce ++ sealed))
                 = Some (nonce ++ sealed)) by apply Base64.DecodeString_EncodeToString.
  split; [|split; [exact Hdec|split; [exact Hsl|]]].
  - unfold Encrypt, ReadFull. rewrite Hrnd. cbv [mbind option_bind].
    rewrite Hlen, Nat.eqb_refl, Hseal. reflexivity.
  - unfold Decrypt. rewrite Hdec. rewrite length_app, <- Hlen.
    destruct (Nat.ltb_spec (length nonce + length sealed) (length nonce)) as [?|_]; [lia|].
    rewrite take_app_length, drop_app_length, Hopen. reflexivity.
Qed.

(** C1.  For every valid key (accepted by [NewCipher]: 64 hexadecimal
    digits, 32 bytes) and every byte string [m], [Encrypt] succeeds as soon
    as the random source delivers the 12 bytes of the nonce; the envelope
    is the base64 text of the nonce, the ciphertext (as long as [m]) and
    the 16-byte tag, in this order; and [Decrypt] of the envelope returns
    [m]. *)
Theorem envelope_round_trip :
  forall (hexKey : string) (c : Cipher) (rnd : nat -> option (list byte))
         (nonce m : list byte),
    NewCipher hexKey = inl c ->
    rnd 12%nat = Some nonce -> length nonce = 12%nat ->
    exists env ciphertext tag,
      Encrypt c rnd m = inl env /\
      env = Base64.EncodeToString (nonce ++ ciphertext ++ tag) /\
      Base64.DecodeString env = Some (nonce ++ ciphertext ++ tag) /\
      length ciphertext = length m /\ length tag = 16%nat /\
      Decrypt c env = inl m.
Proof.
  intros hexKey c rnd nonce m Hkey Hrnd Hlen.
  destruct (NewCipher_valid_key hexKey c Hkey) as (_ & key & block & _ & _ & _ & Hgcm).
  assert (Hok : GCM.aead_ok (gcm c)) by (rewrite Hgcm; apply GCM.NewGCM_ok).
  assert (Hns : GCM.NonceSize (gcm c) = 12%nat) by (rewrite Hgcm; reflexivity).
  pose proof (GCM.NewGCM_Seal block nonce nonce m [] Hlen) as Hseal.
  rewrite <- Hgcm in Hseal.
  set (ct := GCM.ctr_xor block (GCM.nonce_value nonce) 0 m) in Hseal.
  set (tg := GCM.tag block (GCM.nonce_value nonce) [] ct) in Hseal.
  destruct (Decrypt_Encrypt_aead c rnd nonce m Hok) as (env & sealed & Henc & _ & _ & Hdec);
    [rewrite Hns; assumption..|].
  assert (Henv : env = Base64.EncodeToString (nonce ++ ct ++ tg)).
  { unfold Encrypt, ReadFull in Henc. rewrite Hns, Hrnd in Henc.
    cbv [mbind option_bind] in Henc. rewrite Hlen in Henc.
    change (12 =? 12)%nat with true in Henc. cbv beta iota in Henc.
    rewrite Hseal in Henc. injection Henc as <-. reflexivity. }
  exists env, ct, tg.
  split; [exact Henc|]. split; [exact Henv|]. split; [|split; [|split]].
  - rewrite Henv. apply Base64.DecodeString_EncodeToString.
  - apply GCM.ctr_xor_length.
  - apply GCM.tag_length.
  - exact Hdec.
Qed.

Definition sample_key : string :=
  "feffe9928665731c6d6a8f9467308308feffe9928665731c6d6a8f9467308308".

Definition sample_block : AES.Block :=
  Eval vm_compute in default (AES.mkBlock []) (AES.NewCipher (Hex.bytes sample_key)).

Definition sample_cipher : Cipher := mkCipher (GCM.NewGCM sample_block).

Definition sample_rand (n : nat) : option (list byte) :=
  Some (take n (Hex.bytes "cafebabefacedbaddecaf888")).

(** The request [{"domain":"example.com","type":"A"}]. *)
Definition sample_request : list byte :=
  Hex.bytes "7b22646f6d61696e223a226578616d706c652e636f6d222c2274797065223a2241227d".

Lemma NewCipher_sample_key : NewCipher sample_key = inl sample_cipher.
Proof.
  unfold NewCipher.
  assert (Hex.DecodeString sample_key = Some (Hex.bytes sample_key)) as ->
    by (vm_compute; reflexivity).
  assert (length (Hex.bytes sample_key) = 32%nat) as -> by (vm_compute; reflexivity).
  assert (AES.NewCipher (Hex.bytes sample_key) = Some sample_block) as ->
    by (vm_compute; reflexivity).
  reflexivity.
Qed.

Lemma envelope_round_trip_witness :
  exists env,
    Encrypt sample_cipher sample_rand sample_request = inl env /\
    Decrypt sample_cipher env = inl sample_request.
Proof.
  destruct (envelope_round_trip sample_key sample_cipher sample_rand
              (Hex.bytes "cafebabefacedbaddecaf888") sample_request)
    as (env & ciphertext & tag & Henc & _ & _ & _ & _ & Hdec).
  - exact NewCipher_sample_key.
  - vm_compute. reflexivity.
  - vm_compute. reflexivity.
  - exists env. split; [exact Henc|exact Hdec].
Defined.

(** The same run computed, and a forged envelope turned down. *)
Example envelope_computed :
  Encrypt sample_cipher sample_rand sample_request =
    inl "yv66vvrO263eyviI8D6XugyzEoxzHBwD/RAJl474C+zFvBU/eaDr8MpGYfrRrv8g47S5TJMS6pZRngCXeknB"%string /\
  Decrypt sample_cipher
    "yv66vvrO263eyviI8D6XugyzEoxzHBwD/RAJl474C+zFvBU/eaDr8MpGYfrRrv8g47S5TJMS6pZRngCXeknB"
    = inl sample_request /\
  Decrypt sample_cipher
    "yv66vvrO263eyviI8D6XugyzEoxzHBwD/RAJl474C+zFvBU/eaDr8MpGYfrRrv8g47S5TJMS6pZRngCXeknA"
    = inr ErrDecrypt /\
  Decrypt sample_cipher "yv66vvrO" = inr ErrCiphertextTooShort.
Proof. vm_compute. repeat split. Qed.

End Crypto.

(** ** More of the local cache: TTL derivation, negative entries, the
    sweep, and how the operations compose *)

Module LocalCacheOps.
Import DNS LocalCache.

(** [SetNegative].  [Copy] on the nil message is a nil dereference. *)
Definition SetNegative (c : Cache) (h : Heap) (key : string) (msg : option loc)
    (ttl now_expiry now_created : Z) (order : list (string * Entry))
  : option (Cache * Heap) :=
  let kept := if maxItems c <=? Len c then evictOldest order (items c)
              else items c in
  p ← msg;
  '(p', h') ← Copy p h;
  Some (set_items c (<[key := mkEntry p' (now_expiry + ttl) now_created]> kept), h').

(** One iteration of the loop of [cleanup]. *)
Definition cleanup_step (now : Z) (m : gmap string Entry) (ke : string * Entry)
  : gmap string Entry :=
  if ExpiresAt ke.2 <? now then delete ke.1 m else m.

(** One tick of [cleanup]: the map is ranged over in [order], expired
    entries are deleted on the way. *)
Definition cleanup_pass (now : Z) (order : list (string * Entry)) (c : Cache) : Cache :=
  set_items c (fold_left (cleanup_step now) order (items c)).

(** Any one operation on the cache that returns, with keys other than the
    empty string, from any state of memory. *)
Inductive op_step (c c' : Cache) : Prop :=
| OpSet (h h' : Heap) key msg now1 now2 order :
    key <> EmptyString -> order ≡ₚ map_to_list (items c) ->
    Set_ c h key msg now1 now2 order = Some (c', h') -> op_step c c'
| OpSetNegative (h h' : Heap) key msg ttl now1 now2 order :
    key <> EmptyString -> order ≡ₚ map_to_list (items c) ->
    SetNegative c h key msg ttl now1 now2 order = Some (c', h') -> op_step c c'
| OpGet (h h' : Heap) key now1 now2 r :
    Get c h key now1 now2 = Some (r, c', h') -> op_step c c'
| OpClear : c' = Clear c -> op_step c c'
| OpCleanup now order :
    order ≡ₚ map_to_list (items c) -> c' = cleanup_pass now order c -> op_step c c'.

(** *** TTL derivation *)

Ltac case_ltb :=
  repeat match goal with
         | |- context [?a <? ?b] => destruct (Z.ltb_spec a b)
         | H : context [?a <? ?b] |- _ => destruct (Z.ltb_spec a b)
         end.

Lemma read_msg_inv h p m rs :
  read_msg h p = Some (m, rs) ->
  msgs h !! p = Some m /\ read_rrs h (Answer m) = Some rs.
Proof.
  unfold read_msg. destruct (msgs h !! p) as [m0|]; [|discriminate]. simpl.
  destruct (read_rrs h (Answer m0)) as [rs0|] eqn:Hrs; [|discriminate]. simpl.
  intros [= <- <-]. auto.
Qed.

Lemma min_fold_le answers : forall acc,
  let r := fold_left (fun acc rr => if Ttl (Hdr rr) <? acc then Ttl (Hdr rr) else acc)
                     answers acc in
  r <= acc /\ Forall (fun rr => r <= Ttl (Hdr rr)) answers.
Proof.
  induction answers as [|rr answers IH]; intros acc; simpl.
  - split; [lia|constructor].
  - destruct (Z.ltb_spec (Ttl (Hdr rr)) acc) as [Hlt|Hge].
    + destruct (IH (Ttl (Hdr rr))) as [H1 H2]. split; [lia|]. constructor; assumption.
    + destruct (IH acc) as [H1 H2]. split; [assumption|]. constructor; [lia|assumption].
Qed.

Lemma minAnswerTTL_least first answers :
  Forall (fun rr => minAnswerTTL first answers <= Ttl (Hdr rr)) answers.
Proof. apply min_fold_le. Qed.

Lemma derive_ttl_bounds c answers :
  minTTL c <= maxTTL c ->
  minTTL c <= derive_ttl c answers <= maxTTL c.
Proof.
  intros Hmm. unfold derive_ttl.
  set (ttl := match answers with [] => _ | _ => _ end).
  cbv zeta. case_ltb; lia.
Qed.

Lemma derive_ttl_answers c answers :
  Forall (fun rr => derive_ttl c answers <= Z.max (minTTL c) (Ttl (Hdr rr) * Second)) answers.
Proof.
  destruct answers as [|first rest]; [constructor|].
  pose proof (minAnswerTTL_least first (first :: rest)) as Hleast.
  eapply Forall_impl; [exact Hleast|]. intros rr Hrr. cbv beta in Hrr.
  unfold derive_ttl. cbv beta iota zeta.
  assert (minAnswerTTL first (first :: rest) * Second <= Ttl (Hdr rr) * Second)
    by (unfold Second; lia).
  case_ltb; lia.
Qed.

(** What an inserting [Set] leaves behind. *)
Lemma Set_result c h key p m rs now1 now2 order :
  read_msg h p = Some (m, rs) -> Question_ m <> [] ->
  exists p' ls' h',
    Set_ c h key (Some p) now1 now2 order =
      Some (set_items c
              (<[key := mkEntry p' (now1 + derive_ttl c rs) now2]>
                 (if maxItems c <=? Len c then evictOldest order (items c) else items c)),
            h') /\
    msgs h !! p' = None /\
    msgs h' = <[p' := with_Answer m ls']> (msgs h) /\ rrs h ⊆ rrs h' /\
    read_rrs h' ls' = Some rs /\ (forall l, l ∈ ls' -> rrs h !! l = None).
Proof.
  intros Hmsg Hq.
  destruct (Copy_fresh _ _ _ _ Hmsg)
    as (p' & ls' & h' & Hcopy & Hp' & Hmsgs & Hsub & Hread & _ & Hnew).
  apply read_msg_inv in Hmsg as [Hp Hrs].
  exists p', ls', h'. split; [|auto].
  unfold Set_. rewrite Hp. simpl.
  destruct (Question_ m) as [|q qs]; [congruence|]. simpl.
  rewrite Hrs. simpl. rewrite Hcopy. reflexivity.
Qed.

(** X1.  An entry that [Set] inserts lives for a time between [min_ttl]
    and [max_ttl] (when [min_ttl <= max_ttl]), counted from the first clock
    reading; its [CreatedAt] is the second reading; and its lifetime does
    not exceed the TTL of any answer of the message, unless [min_ttl]
    lifts it. *)
Theorem Set_lifetime_clamped :
  forall (c : Cache) (h : Heap) (key : string) (p : loc) (m : Msg) (rs : list RR)
         (now1 now2 : Z) (order : list (string * Entry)),
    minTTL c <= maxTTL c ->
    read_msg h p = Some (m, rs) -> Question_ m <> [] ->
    exists c' h' entry,
      Set_ c h key (Some p) now1 now2 order = Some (c', h') /\
      items c' !! key = Some entry /\
      CreatedAt entry = now2 /\
      minTTL c <= ExpiresAt entry - now1 <= maxTTL c /\
      Forall (fun rr => ExpiresAt entry - now1 <= Z.max (minTTL c) (Ttl (Hdr rr) * Second)) rs /\
      (rs = [] -> ExpiresAt entry - now1 = Z.min (maxTTL c) (Z.max (minTTL c) (defaultTTL c))).
Proof.
  intros c h key p m rs now1 now2 order Hmm Hmsg Hq.
  destruct (Set_result c h key p m rs now1 now2 order Hmsg Hq)
    as (p' & ls' & h' & HS & _).
  eexists _, h', _. split; [exact HS|]. split; [apply lookup_insert_eq|].
  cbn [CreatedAt ExpiresAt].
  replace (now1 + derive_ttl c rs - now1) with (derive_ttl c rs) by lia.
  split; [reflexivity|]. split; [apply derive_ttl_bounds, Hmm|].
  split; [apply derive_ttl_answers|].
  intros ->. unfold derive_ttl. case_ltb; lia.
Qed.

Lemma Set_lifetime_clamped_witness :
  exists c' h' entry,
    Set_ (New 100 (5 * minute) minute (1440 * minute)) sample_heap "test.com.:A"
         (Some 1%positive) 0 7 [] = Some (c', h') /\
    items c' !! "test.com.:A" = Some entry /\
    minute <= ExpiresAt entry - 0 <= 1440 * minute.
Proof.
  destruct (Set_lifetime_clamped (New 100 (5 * minute) minute (1440 * minute))
              sample_heap "test.com.:A" 1%positive
              (mkMsg 7 true false true 0 [mkQuestion "test.com." TypeA ClassINET]
                     [1%positive])
              [mkRR (mkHeader "test.com." TypeA ClassINET 300)
                    (RD_A (Some [x01; x02; x03; x04]))] 0 7 [])
    as (c' & h' & entry & HS & Hk & _ & Hb & _).
  - vm_compute. discriminate.
  - vm_compute. reflexivity.
  - discriminate.
  - exists c', h', entry. auto.
Defined.


(** *** Storing, then reading *)



(** X3.  [SetNegative] stores a copy of any message it is given, also one
    without a question, for exactly [ttl] from the first clock reading:
    neither [min_ttl] nor [max_ttl] applies.  On the nil message it
    panics. *)
Theorem SetNegative_exact_lifetime :
  forall (c : Cache) (h : Heap) (key : string) (ttl now1 now2 : Z)
         (order : list (string * Entry)),
    SetNegative c h key None ttl now1 now2 order = None /\
    forall (p : loc) (m : Msg) (rs : list RR),
      read_msg h p = Some (m, rs) ->
      exists c' h' entry m',
        SetNegative c h key (Some p) ttl now1 now2 order = Some (c', h') /\
        items c' !! key = Some entry /\
        ExpiresAt entry = now1 + ttl /\ CreatedAt entry = now2 /\
        msgs h !! eMsg entry = None /\
        read_msg h' (eMsg entry) = Some (m', rs) /\
        with_Answer m' [] = with_Answer m [] /\
        read_msg h' p = Some (m, rs).
Proof.
  intros c h key ttl now1 now2 order. split; [reflexivity|].
  intros p m rs Hmsg.
  destruct (Copy_fresh _ _ _ _ Hmsg)
    as (p' & ls' & h' & Hcopy & Hp' & Hmsgs & Hsub & Hread & _ & _).
  eexists _, h', (mkEntry p' (now1 + ttl) now2), (with_Answer m ls').
  split; [unfold SetNegative; simpl; rewrite Hcopy; reflexivity|].
  split; [apply lookup_insert_eq|]. cbn [ExpiresAt CreatedAt eMsg].
  repeat split; auto.
  - unfold read_msg. rewrite Hmsgs, lookup_insert_eq. simpl. rewrite Hread. reflexivity.
  - eapply read_msg_preserved; [exact Hsub| |exact Hmsg].
    rewrite Hmsgs. apply insert_subseteq, Hp'.
Qed.

Lemma SetNegative_exact_lifetime_witness :
  exists c' h' entry,
    SetNegative (New 100 (5 * minute) minute (1440 * minute)) questionless_heap
                "nx.example.:A" (Some 1%positive) Second 0 0 [] = Some (c', h') /\
    items c' !! "nx.example.:A" = Some entry /\ ExpiresAt entry = 0 + Second.
Proof.
  destruct (proj2 (SetNegative_exact_lifetime (New 100 (5 * minute) minute (1440 * minute))
                     questionless_heap "nx.example.:A" Second 0 0 [])
                  1%positive (mkMsg 7 true false true 0 [] []) [])
    as (c' & h' & entry & m' & HS & Hk & He & _).
  - vm_compute. reflexivity.
  - exists c', h', entry. auto.
Defined.

(** *** The sweep *)

Lemma cleanup_fold_lookup now order : forall (m : gmap string Entry) k,
  fold_left (cleanup_step now) order m !! k =
    if existsb (fun ke => String.eqb ke.1 k && (ExpiresAt ke.2 <? now)) order
    then None else m !! k.
Proof.
  induction order as [|ke order IH]; intros m k; simpl; [reflexivity|].
  rewrite IH. unfold cleanup_step.
  destruct (existsb _ order); [rewrite orb_true_r; reflexivity|].
  rewrite orb_false_r.
  destruct (String.eqb_spec ke.1 k) as [->|Hne]; destruct (ExpiresAt ke.2 <? now); simpl;
    try reflexivity.
  - apply lookup_delete_eq.
  - apply lookup_delete_ne. exact Hne.
Qed.

(** X4.  One tick of the sweep removes exactly the entries whose expiry
    lies before the tick, whatever the order of iteration: every other
    entry is kept as it is, and the bounds of the cache are untouched. *)
Theorem cleanup_removes_exactly_expired :
  forall (c : Cache) (now : Z) (order : list (string * Entry)),
    order ≡ₚ map_to_list (items c) ->
    (forall k, items (cleanup_pass now order c) !! k =
               match items c !! k with
               | Some e => if ExpiresAt e <? now then None else Some e
               | None => None
               end) /\
    maxItems (cleanup_pass now order c) = maxItems c /\
    minTTL (cleanup_pass now order c) = minTTL c /\
    maxTTL (cleanup_pass now order c) = maxTTL c.
Proof.
  intros c now order Hperm. split; [|auto].
  intros k. unfold cleanup_pass. cbn [items set_items].
  rewrite cleanup_fold_lookup.
  destruct (existsb _ order) eqn:Hex.
  - apply existsb_exists in Hex as ([k' e] & Hin & Hke).
    apply andb_true_iff in Hke as [Hk He]. simpl in Hk, He.
    apply String.eqb_eq in Hk. subst k'.
    apply list_elem_of_In in Hin. rewrite Hperm in Hin.
    apply elem_of_map_to_list in Hin. rewrite Hin, He. reflexivity.
  - destruct (items c !! k) as [e|] eqn:Hk; [|reflexivity].
    destruct (ExpiresAt e <? now) eqn:He; [|reflexivity].
    assert (Hin : In (k, e) order).
    { apply list_elem_of_In. rewrite Hperm. apply elem_of_map_to_list. exact Hk. }
    assert (existsb (fun ke => String.eqb ke.1 k && (ExpiresAt ke.2 <? now)) order = true).
    { apply existsb_exists. exists (k, e). split; [exact Hin|].
      simpl. rewrite String.eqb_refl, He. reflexivity. }
    congruence.
Qed.

Lemma cleanup_removes_exactly_expired_witness :
  items (cleanup_pass (301 * Second + 1) (map_to_list (items after_three_sets.1))
                      after_three_sets.1) !! "b.com.:A" = None /\
  items (cleanup_pass (301 * Second + 1) (map_to_list (items after_three_sets.1))
                      after_three_sets.1) !! "c.com.:A"
    = items after_three_sets.1 !! "c.com.:A".
Proof.
  pose proof (proj1 (cleanup_removes_exactly_expired after_three_sets.1 (301 * Second + 1)
                       (map_to_list (items after_three_sets.1)) (reflexivity _))) as H.
  split; rewrite H; vm_compute; reflexivity.
Defined.

(** *** Capacity under every operation *)

Lemma insert_within_capacity bound c key entry order :
  1 <= bound -> within_capacity bound c -> key <> EmptyString ->
  order ≡ₚ map_to_list (items c) ->
  within_capacity bound
    (set_items c (<[key := entry]>
                    (if maxItems c <=? Len c then evictOldest order (items c)
                     else items c))).
Proof.
  intros Hb (Hmax & Hempty & Hlen) Hkey Hperm.
  unfold within_capacity, Len in *. cbn [maxItems items set_items]. rewrite Hmax.
  destruct (Z.leb_spec bound (Z.of_nat (size (items c)))) as [Hfull|Hfull].
  - assert (Hne : items c <> ∅).
    { intros Heq. rewrite Heq, map_size_empty in Hfull. lia. }
    destruct (evictOldest_removes_earliest (items c) order Hne Hempty Hperm)
      as (k & e & Hk & -> & _).
    split; [reflexivity|]. split.
    + rewrite lookup_insert_ne by congruence.
      rewrite lookup_delete_ne; [assumption|]. intros ->. congruence.
    + pose proof (map_size_insert key entry (delete k (items c))) as Hsz.
      rewrite map_size_delete_Some in Hsz by eauto.
      assert (size (items c) <> 0%nat).
      { intros H0. apply map_size_empty_iff in H0. contradiction. }
      destruct (delete k (items c) !! key); simpl in Hsz; lia.
  - split; [reflexivity|]. split.
    + rewrite lookup_insert_ne by congruence. assumption.
    + pose proof (map_size_insert key entry (items c)) as Hsz.
      destruct (items c !! key); simpl in Hsz; lia.
Qed.

Lemma delete_within_capacity bound c key :
  within_capacity bound c -> within_capacity bound (set_items c (delete key (items c))).
Proof.
  intros (Hmax & Hempty & Hlen). unfold within_capacity, Len in *.
  cbn [maxItems items set_items]. split; [assumption|]. split.
  - apply lookup_delete_None. right. exact Hempty.
  - pose proof (map_subseteq_size (delete key (items c)) (items c) (delete_subseteq _ _)).
    lia.
Qed.

Lemma cleanup_fold_subseteq now order : forall m : gmap string Entry,
  fold_left (cleanup_step now) order m ⊆ m.
Proof.
  induction order as [|ke order IH]; intros m; simpl; [reflexivity|].
  etrans; [apply IH|]. unfold cleanup_step.
  destruct (_ <? _); [apply delete_subseteq|reflexivity].
Qed.

Lemma op_step_within_capacity bound c c' :
  1 <= bound -> within_capacity bound c -> op_step c c' -> within_capacity bound c'.
Proof.
  intros Hb Hc Hstep. destruct Hstep as
    [h h' key msg now1 now2 order Hkey Hperm HS
    |h h' key msg ttl now1 now2 order Hkey Hperm HS
    |h h' key now1 now2 r HG
    | ->
    |now order Hperm ->].
  - eapply set_step_within_capacity; [exact Hb|exact Hc|].
    eapply SetStep; eassumption.
  - unfold SetNegative in HS. destruct msg as [p|]; [|discriminate]. simpl in HS.
    destruct (Copy p h) as [[p' h1]|]; [|discriminate]. simpl in HS.
    injection HS as <- _. apply insert_within_capacity; assumption.
  - unfold Get in HG. destruct (items c !! key) as [entry|].
    + destruct (_ <? _).
      * injection HG as _ <- _. apply delete_within_capacity, Hc.
      * destruct (Copy _ h) as [[p h1]|]; [|discriminate]. simpl in HG.
        destruct (msgs h1 !! p) as [m|]; [|discriminate]. simpl in HG.
        destruct (adjust_ttls _ _ h1); [|discriminate]. simpl in HG.
        injection HG as _ <- _. exact Hc.
    + injection HG as _ <- _. exact Hc.
  - destruct Hc as (Hmax & _ & _). split; [exact Hmax|]. split.
    + apply lookup_empty.
    + unfold Len, Clear. cbn [items set_items]. rewrite map_size_empty. lia.
  - destruct Hc as (Hmax & Hempty & Hlen). unfold within_capacity, Len, cleanup_pass in *.
    cbn [maxItems items set_items]. split; [assumption|]. split.
    + eapply lookup_weaken_None; [exact Hempty|apply cleanup_fold_subseteq].
    + pose proof (map_subseteq_size _ _ (cleanup_fold_subseteq now order (items c))).
      lia.
Qed.

(** X5.  For a capacity of at least one, the cache holds at most
    [max_items] entries after any sequence of [Set], [SetNegative], [Get],
    [Clear] and sweeps from the empty cache, in any interleaving (keys
    other than the empty string), and [Get], [Clear] and the sweep never
    add an entry. *)
Theorem capacity_kept_by_every_operation :
  forall bound defaultTTL minTTL maxTTL : Z,
    1 <= bound ->
    (forall c, rtc op_step (New bound defaultTTL minTTL maxTTL) c ->
               Len c <= bound /\ maxItems c = bound) /\
    (forall c h key now1 now2 r c' h',
        Get c h key now1 now2 = Some (r, c', h') -> items c' ⊆ items c) /\
    (forall c now order, items (cleanup_pass now order c) ⊆ items c) /\
    (forall c, Len (Clear c) = 0).
Proof.
  intros bound dTTL mnTTL mxTTL Hb. split; [|split; [|split]].
  - intros c Hreach.
    enough (within_capacity bound c) as (H1 & _ & H2) by auto.
    revert c Hreach. apply rtc_ind_r.
    + repeat split; try reflexivity. unfold Len, New. simpl.
      rewrite map_size_empty. lia.
    + intros c1 c2 _ Hstep IH. eapply op_step_within_capacity; eassumption.
  - intros c h key now1 now2 r c' h' HG. unfold Get in HG.
    destruct (items c !! key) as [entry|].
    + destruct (_ <? _).
      * injection HG as _ <- _. apply delete_subseteq.
      * destruct (Copy _ h) as [[p h1]|]; [|discriminate]. simpl in HG.
        destruct (msgs h1 !! p) as [m|]; [|discriminate]. simpl in HG.
        destruct (adjust_ttls _ _ h1); [|discriminate]. simpl in HG.
        injection HG as _ <- _. reflexivity.
    + injection HG as _ <- _. reflexivity.
  - intros c now order. apply cleanup_fold_subseteq.
  - intros c. unfold Len, Clear. cbn [items set_items]. rewrite map_size_empty. reflexivity.
Qed.

Lemma set_step_op_step c c' : set_step c c' -> op_step c c'.
Proof. intros [h h' key msg now1 now2 order Hkey Hperm HS]. eapply OpSet; eassumption. Qed.

Lemma capacity_kept_by_every_operation_witness :
  1 <= 2 /\
  Len (cleanup_pass (301 * Second + 1) (map_to_list (items after_three_sets.1))
                    after_three_sets.1) <= 2.
Proof.
  split; [lia|].
  apply (proj1 (capacity_kept_by_every_operation 2 (5 * minute) minute (1440 * minute)
                  ltac:(lia))).
  eapply rtc_r.
  - eapply (rtc_subrel set_step op_step); [exact set_step_op_step|].
    apply (run_sets_reachable three_sets _ sample_heap _ after_three_sets.2).
    + repeat constructor; discriminate.
    + vm_compute. reflexivity.
  - eapply OpCleanup; reflexivity.
Defined.

End LocalCacheOps.

(** ** More of the remote cache and the remote resolver *)

Module RemoteCacheOps.
Import RemoteCache.

(** One tick of [cleanup], the map ranged over in [order]. *)
Definition cleanup_step (now : Z) (m : gmap string cacheEntry) (ke : string * cacheEntry)
  : gmap string cacheEntry :=
  if expiresAt ke.2 <? now then delete ke.1 m else m.

Definition cleanup_pass (now : Z) (order : list (string * cacheEntry)) (c : Cache) : Cache :=
  set_items c (fold_left (cleanup_step now) order (items c)).

Definition Len (c : Cache) : Z := Z.of_nat (size (items c)).

(** One call of [Set] (with a key other than the empty string), of [Get]
    or one tick of the sweep. *)
Inductive op_step (c c' : Cache) : Prop :=
| OpSet key res now order :
    key <> EmptyString -> order ≡ₚ map_to_list (items c) ->
    c' = Set_ c key res now order -> op_step c c'
| OpGet (h h' : Heap) key now r :
    Get c h key now = Some (r, c', h') -> op_step c c'
| OpCleanup now order :
    order ≡ₚ map_to_list (items c) -> c' = cleanup_pass now order c -> op_step c c'.

Lemma remote_evict_step_named acc ke :
  acc.1 <> EmptyString ->
  evict_step acc ke = if expiresAt ke.2 <? acc.2 then (ke.1, expiresAt ke.2) else acc.
Proof.
  intros Hne. unfold evict_step.
  destruct (String.eqb_spec acc.1 ""); [contradiction|reflexivity].
Qed.

Lemma remote_evict_fold_min order : forall acc,
  acc.1 <> EmptyString ->
  Forall (fun ke => ke.1 <> EmptyString) order ->
  let r := fold_left evict_step order acc in
  r.1 <> EmptyString /\
  (r = acc \/ exists ke, ke ∈ order /\ r = (ke.1, expiresAt ke.2)).
Proof.
  induction order as [|ke order IH]; intros acc Hacc Hkeys; simpl; [auto|].
  inversion Hkeys as [|? ? Hke Hrest]; subst.
  rewrite remote_evict_step_named by assumption.
  destruct (expiresAt ke.2 <? acc.2).
  - destruct (IH (ke.1, expiresAt ke.2) Hke Hrest) as (H1 & H4).
    split; [exact H1|]. right. destruct H4 as [->|(ke' & Hin & ->)].
    + exists ke. split; [left|reflexivity].
    + exists ke'. split; [right; assumption|reflexivity].
  - destruct (IH acc Hacc Hrest) as (H1 & H4). split; [exact H1|].
    destruct H4 as [->|(ke' & Hin & ->)]; [left; reflexivity|].
    right. exists ke'. split; [right; assumption|reflexivity].
Qed.

(** On a map that is not empty and has no entry under the empty string,
    [evictOldest] removes one entry. *)
Lemma evictOldest_removes_one (m : gmap string cacheEntry) order :
  m <> ∅ -> m !! EmptyString = None -> order ≡ₚ map_to_list m ->
  exists k e, m !! k = Some e /\ k <> EmptyString /\ evictOldest order m = delete k m.
Proof.
  intros Hne Hempty Hperm.
  assert (Hin : forall ke, ke ∈ order <-> m !! ke.1 = Some ke.2).
  { intros [k e]. rewrite Hperm. apply elem_of_map_to_list. }
  assert (Hkeys : Forall (fun ke => ke.1 <> EmptyString) order).
  { apply Forall_forall. intros ke Hke%Hin Heq. rewrite Heq in Hke. congruence. }
  destruct order as [|ke0 order].
  { exfalso. apply Hne, map_to_list_empty_iff. apply Permutation_nil. exact Hperm. }
  inversion Hkeys as [|? ? Hke0 Hrest]; subst.
  unfold evictOldest. cbn [fold_left].
  assert (evict_step (EmptyString, zeroTime) ke0 = (ke0.1, expiresAt ke0.2)) as ->
    by reflexivity.
  destruct (remote_evict_fold_min order (ke0.1, expiresAt ke0.2) Hke0 Hrest) as (Hr1 & Hr).
  set (r := fold_left evict_step order (ke0.1, expiresAt ke0.2)) in *.
  cbv zeta. destruct (String.eqb_spec r.1 "") as [?|_]; [contradiction|].
  assert (Hk : exists ke, ke ∈ ke0 :: order /\ r = (ke.1, expiresAt ke.2)).
  { destruct Hr as [Hr|(ke & Hke & Hr)].
    - exists ke0. split; [left|exact Hr].
    - exists ke. split; [right; exact Hke|exact Hr]. }
  destruct Hk as (ke & Hke & Hr').
  exists ke.1, ke.2. split; [apply Hin, Hke|]. rewrite Hr' in Hr1 |- *.
  split; [exact Hr1|reflexivity].
Qed.

Definition within_capacity (bound : Z) (c : Cache) : Prop :=
  maxItems c = bound /\ items c !! EmptyString = None /\ Len c <= bound.

Lemma remote_cleanup_fold_subseteq now order : forall m : gmap string cacheEntry,
  fold_left (cleanup_step now) order m ⊆ m.
Proof.
  induction order as [|ke order IH]; intros m; simpl; [reflexivity|].
  etrans; [apply IH|]. unfold cleanup_step.
  destruct (_ <? _); [apply delete_subseteq|reflexivity].
Qed.

Lemma Get_keeps_cache c h key now r c' h' :
  Get c h key now = Some (r, c', h') -> c' = c.
Proof.
  unfold Get. destruct (items c !! key) as [entry|]; [|intros [= _ <- _]; reflexivity].
  destruct (_ <? _); [intros [= _ <- _]; reflexivity|].
  destruct (results h !! result entry) as [res|]; [|discriminate]. simpl.
  destruct (slice_elems h (Records res)); [|discriminate]. simpl.
  intros [= _ <- _]. reflexivity.
Qed.

Lemma remote_op_step_within_capacity bound c c' :
  1 <= bound -> within_capacity bound c -> op_step c c' -> within_capacity bound c'.
Proof.
  intros Hb Hc Hstep.
  destruct Hstep as [key res now order Hkey Hperm ->|h h' key now r HG|now order Hperm ->].
  - destruct Hc as (Hmax & Hempty & Hlen).
    unfold within_capacity, Len, Set_ in *. cbn [maxItems items set_items]. rewrite Hmax.
    destruct (Z.leb_spec bound (Z.of_nat (size (items c)))) as [Hfull|Hfull].
    + assert (Hne : items c <> ∅).
      { intros Heq. rewrite Heq, map_size_empty in Hfull. lia. }
      destruct (evictOldest_removes_one (items c) order Hne Hempty Hperm)
        as (k & e & Hk & Hkne & ->).
      split; [reflexivity|]. split.
      * rewrite lookup_insert_ne by congruence.
        rewrite lookup_delete_ne by congruence. assumption.
      * pose proof (map_size_insert key (mkCacheEntry res (now + ttl c))
                      (delete k (items c))) as Hsz.
        rewrite map_size_delete_Some in Hsz by eauto.
        assert (size (items c) <> 0%nat).
        { intros H0. apply map_size_empty_iff in H0. contradiction. }
        destruct (delete k (items c) !! key); simpl in Hsz; lia.
    + split; [reflexivity|]. split.
      * rewrite lookup_insert_ne by congruence. assumption.
      * pose proof (map_size_insert key (mkCacheEntry res (now + ttl c)) (items c)) as Hsz.
        destruct (items c !! key); simpl in Hsz; lia.
  - apply Get_keeps_cache in HG. subst c'. exact Hc.
  - destruct Hc as (Hmax & Hempty & Hlen). unfold within_capacity, Len, cleanup_pass in *.
    cbn [maxItems items set_items]. split; [assumption|]. split.
    + eapply lookup_weaken_None; [exact Hempty|apply remote_cleanup_fold_subseteq].
    + pose proof (map_subseteq_size _ _ (remote_cleanup_fold_subseteq now order (items c))).
      lia.
Qed.

(** X6.  For a capacity of at least one, the remote cache holds at most
    [max_items] entries after any sequence of [Set] (keys other than the
    empty string), [Get] and sweeps from the empty cache; [Get] never
    changes the cache. *)
Theorem remote_capacity_kept :
  forall bound ttl : Z,
    1 <= bound ->
    (forall c, rtc op_step (NewCache bound ttl) c -> Len c <= bound) /\
    (forall c h key now r c' h', Get c h key now = Some (r, c', h') -> c' = c).
Proof.
  intros bound ttl0 Hb. split; [|exact Get_keeps_cache].
  intros c Hreach.
  enough (within_capacity bound c) as (_ & _ & H) by exact H.
  revert c Hreach. apply rtc_ind_r.
  - repeat split; try reflexivity. unfold Len, NewCache. simpl.
    rewrite map_size_empty. lia.
  - intros c1 c2 _ Hstep IH. eapply remote_op_step_within_capacity; eassumption.
Qed.

Definition two_sets : Cache :=
  let c0 := NewCache 1 LocalCache.minute in
  let c1 := Set_ c0 "a.com:A" 1%positive 0 (map_to_list (items c0)) in
  Set_ c1 "b.com:A" 2%positive 5 (map_to_list (items c1)).

Lemma remote_capacity_kept_witness :
  1 <= 1 /\ Len two_sets <= 1 /\ dom (items two_sets) = {[ "b.com:A" ]}.
Proof.
  split; [lia|]. split; [|vm_compute; reflexivity].
  apply (proj1 (remote_capacity_kept 1 LocalCache.minute ltac:(lia))).
  eapply rtc_l; [|eapply rtc_once].
  - eapply OpSet with (key := "a.com:A"%string); [discriminate|reflexivity|reflexivity].
  - eapply OpSet with (key := "b.com:A"%string); [discriminate|reflexivity|reflexivity].
Defined.

(** X7.  [Set] stores the pointer it is given under the key, with expiry
    [now + ttl].  A [Get] no later than that returns a new object holding
    what the caller's object holds at the time of the read (the cache
    shares the object with the caller of [Set]); a [Get] after it is a
    miss that leaves cache and memory as they are. *)
Theorem remote_Set_then_Get :
  forall (c : Cache) (key : string) (res : loc) (now : Z)
         (order : list (string * cacheEntry)),
    let c' := Set_ c key res now order in
    items c' !! key = Some (mkCacheEntry res (now + ttl c)) /\
    (forall (h : Heap) payload t,
        t <= now + ttl c -> read_result h res = Some payload ->
        exists p h',
          Get c' h key t = Some (Some p, c', h') /\
          p <> res /\ results h !! p = None /\
          read_result h' p = Some payload /\ read_result h' res = Some payload) /\
    (forall (h : Heap) t, now + ttl c < t -> Get c' h key t = Some (None, c', h)).
Proof.
  intros c key res now order c'.
  assert (Hk : items c' !! key = Some (mkCacheEntry res (now + ttl c)))
    by apply lookup_insert_eq.
  split; [exact Hk|]. split.
  - intros h [[dom_ recs] cached] t Ht Hread.
    destruct (Get_hit_copy c' h key _ t dom_ recs cached Hk Ht Hread)
      as (p & h' & HGet & Hp & Hne & Hread' & _ & Hrsub & Hasub).
    exists p, h'. repeat split; auto.
    unfold read_result in Hread |- *.
    destruct (results h !! res) as [r|] eqn:Hr; [|discriminate].
    rewrite (lookup_weaken _ _ _ _ Hr Hrsub). simpl in Hread |- *.
    destruct (Records r) as [a|]; simpl in Hread |- *; [|exact Hread].
    destruct (arrays h !! a) as [src|] eqn:Ha; [|discriminate].
    rewrite (lookup_weaken _ _ _ _ Ha Hasub). exact Hread.
  - intros h t Ht. apply (Get_expired_stays c' h key _ t Hk). exact Ht.
Qed.

Lemma remote_Set_then_Get_witness :
  exists p h',
    Get CacheReads.expire_cache CacheReads.expire_heap "expire.com:A" LocalCache.Second
      = Some (Some p, CacheReads.expire_cache, h') /\
    read_result h' p = Some ("expire.com"%string, [], false).
Proof.
  destruct (proj1 (proj2 (remote_Set_then_Get (NewCache 10 LocalCache.minute)
                            "expire.com:A" 1%positive 0 []))
                  CacheReads.expire_heap ("expire.com"%string, [], false) LocalCache.Second)
    as (p & h' & HGet & _ & _ & Hread & _).
  - vm_compute. discriminate.
  - vm_compute. reflexivity.
  - exists p, h'. split; [exact HGet|exact Hread].
Defined.

End RemoteCacheOps.

Module RemoteResolve.
Import RemoteCache.

(** The fields of [Resolver] that [Resolve] uses; [cache] is [None] when
    caching is disabled. *)
Record Resolver_ := mkResolver {
  upstreams : list string;
  maxRetries : Z;
  cache : option Cache
}.

Definition set_cache (r : Resolver_) (c : Cache) : Resolver_ :=
  mkResolver (upstreams r) (maxRetries r) (Some c).

Inductive ResolveError :=
| ErrAllUpstreamsFailed.

(** The inner loop of [Resolve]: the upstreams in their configured order,
    the first that answers without error wins.  [net upstream] is what a
    lookup through that upstream yields at this moment. *)
Fixpoint try_upstreams (net : string -> Resolver.Upstream) (domain recordType : string)
    (ups : list string) : option (list Resolver.DNSRecord) :=
  match ups with
  | [] => None
  | upstream :: rest =>
      match Resolver.resolveWithUpstream (net upstream) domain recordType with
      | Some recs => Some recs
      | None => try_upstreams net domain recordType rest
      end
  end.

(** The outer loop: [fuel] attempts remain, this one is number [attempt];
    [net attempt] is the network during that attempt. *)
Fixpoint try_attempts (net : nat -> string -> Resolver.Upstream) (domain recordType : string)
    (ups : list string) (fuel attempt : nat) : option (list Resolver.DNSRecord) :=
  match fuel with
  | O => None
  | S fuel' =>
      match try_upstreams (net attempt) domain recordType ups with
      | Some recs => Some recs
      | None => try_attempts net domain recordType ups fuel' (S attempt)
      end
  end.

(** The result that [resolveWithUpstream] builds, in memory: a new array
    for the records and a new [ResolveResult] with [Cached] unset. *)
Definition new_result (domain : string) (recs : list Resolver.DNSRecord) (h : Heap)
  : loc * Heap :=
  let a := fresh (dom (arrays h)) in
  let p := fresh (dom (results h)) in
  (p, mkHeap (<[p := mkResolveResult domain (Some a) false]> (results h))
             (<[a := recs]> (arrays h))).

(** [result.Cached = true] *)
Definition mark_cached (p : loc) (h : Heap) : option Heap :=
  r ← results h !! p;
  Some (mkHeap (<[p := mkResolveResult (Domain r) (Records r) true]> (results h)) (arrays h)).

(** [Resolve].  [now_get] and [now_set] are the clock readings of the
    cache probe and of the cache store, [order] the order in which the
    store would range over the map. *)
Definition Resolve (r : Resolver_) (h : Heap) (net : nat -> string -> Resolver.Upstream)
    (domain recordType : string) (now_get now_set : Z)
    (order : list (string * cacheEntry))
  : option ((loc + ResolveError) * Resolver_ * Heap) :=
  let cacheKey := Resolver.cacheKey domain recordType in
  let domain := Resolver.TrimSuffix_dot domain in
  '(hit, h1) ← match cache r with
               | Some c => '(res, _, h1) ← Get c h cacheKey now_get; Some (res, h1)
               | None => Some (None, h)
               end;
  match hit with
  | Some p => h2 ← mark_cached p h1; Some (inl p, r, h2)
  | None =>
      match try_attempts net domain recordType (upstreams r) (Z.to_nat (maxRetries r)) 0 with
      | Some recs =>
          let '(p, h2) := new_result domain recs h1 in
          let r' := match cache r with
                    | Some c => set_cache r (Set_ c cacheKey p now_set order)
                    | None => r
                    end in
          Some (inl p, r', h2)
      | None => Some (inr ErrAllUpstreamsFailed, r, h1)
      end
  end.


(** *** Records synthesized from a lookup *)






(** *** [Resolve]: miss, store, hit *)







Lemma try_upstreams_all_fail net domain ty ups :
  Forall (fun u => Resolver.resolveWithUpstream (net u) domain ty = None) ups ->
  try_upstreams net domain ty ups = None.
Proof.
  induction 1 as [|u ups Hu _ IH]; simpl; [reflexivity|]. rewrite Hu. exact IH.
Qed.

Lemma try_attempts_all_fail net domain ty ups fuel : forall attempt,
  (forall a u, (attempt <= a < attempt + fuel)%nat -> u ∈ ups ->
               Resolver.resolveWithUpstream (net a u) domain ty = None) ->
  try_attempts net domain ty ups fuel attempt = None.
Proof.
  induction fuel as [|fuel IH]; intros attempt Hall; simpl; [reflexivity|].
  rewrite try_upstreams_all_fail.
  - apply IH. intros a u Ha Hu. apply Hall; [lia|exact Hu].
  - apply Forall_forall. intros u Hu. apply Hall; [lia|exact Hu].
Qed.

(** X10.  When the cache has nothing to offer and every lookup of every
    attempt fails (in particular when there is no upstream, or
    [max_retries] is not positive), [Resolve] reports that all upstreams
    failed and stores nothing: resolver, cache and memory are as before. *)
Theorem Resolve_all_upstreams_failed :
  forall (r : Resolver_) (h : Heap) (net : nat -> string -> Resolver.Upstream)
         (domain recordType : string) (t1 t1' : Z) (order : list (string * cacheEntry)),
    (forall c, cache r = Some c ->
               Get c h (Resolver.cacheKey domain recordType) t1 = Some (None, c, h)) ->
    (forall a u, Z.of_nat a < maxRetries r -> u ∈ upstreams r ->
                 Resolver.resolveWithUpstream (net a u) (Resolver.TrimSuffix_dot domain)
                                              recordType = None) ->
    Resolve r h net domain recordType t1 t1' order = Some (inr ErrAllUpstreamsFailed, r, h).
Proof.
  intros r h net domain ty t1 t1' order Hmiss Hfail.
  unfold Resolve.
  rewrite try_attempts_all_fail by (intros a u Ha Hu; apply Hfail; [lia|exact Hu]).
  destruct (cache r) as [c|] eqn:Hc; [|reflexivity].
  rewrite (Hmiss c eq_refl). reflexivity.
Qed.

Lemma Resolve_all_upstreams_failed_witness :
  Resolve (mkResolver [] 3 (Some (NewCache 100 LocalCache.minute))) (mkHeap ∅ ∅)
          (fun _ _ => Server.mx_upstream) "example.com." "MX" 0 0 []
    = Some (inr ErrAllUpstreamsFailed,
            mkResolver [] 3 (Some (NewCache 100 LocalCache.minute)), mkHeap ∅ ∅).
Proof.
  apply Resolve_all_upstreams_failed.
  - intros c [= <-]. reflexivity.
  - intros a u _ Hu. inversion Hu.
Defined.

End RemoteResolve.

(** ** More of the RPC client: failover, the retry loop, probes *)

Module ClientOps.
Import Client.

(** An endpoint as the configuration lists it ([config.EndpointConfig]). *)
Record EndpointConfig := mkEndpointConfig {
  cfgURL : string;
  cfgAPIKey : string;
  cfgWeight : Z
}.

(** [NewClient], as far as the pool and the policy go: the endpoints in
    the order of the configuration, every one healthy. *)
Definition NewClient (eps : list EndpointConfig) (loadBalancing : string) : Client :=
  mkClient (map (fun ep => mkEndpoint (cfgURL ep) (cfgAPIKey ep) (cfgWeight ep) true) eps)
           loadBalancing 0.

(** [Stats]: the size of the pool and the number of healthy endpoints. *)
Definition Stats (c : Client) : nat * nat :=
  (length (endpoints c), length (List.filter Healthy (endpoints c))).

(** *** Failover *)

Lemma failover_scan_first eps : forall base idx,
  failover_scan eps base = Some idx ->
  (base <= idx)%nat /\ healthy_at eps (idx - base) = true /\
  forall j, (j < idx - base)%nat -> healthy_at eps j = false.
Proof.
  induction eps as [|ep eps IH]; intros base idx; simpl; [discriminate|].
  destruct (Healthy ep) eqn:Hep.
  - intros [= <-]. rewrite Nat.sub_diag. split; [lia|]. split.
    + unfold healthy_at. simpl. exact Hep.
    + intros j Hj. lia.
  - intros H. apply IH in H as (Hle & Hat & Hbefore).
    split; [lia|]. replace (idx - base)%nat with (S (idx - S base)) by lia.
    split; [exact Hat|].
    intros [|j] Hj; [unfold healthy_at; simpl; exact Hep|].
    apply (Hbefore j). lia.
Qed.

Lemma failover_scan_none eps : forall base,
  failover_scan eps base = None -> forall j, healthy_at eps j = false.
Proof.
  induction eps as [|ep eps IH]; intros base; simpl.
  - intros _ j. unfold healthy_at. rewrite lookup_nil. reflexivity.
  - destruct (Healthy ep) eqn:Hep; [discriminate|].
    intros H [|j]; [unfold healthy_at; simpl; exact Hep|]. apply (IH _ H j).
Qed.

Lemma failover_scan_some eps j :
  healthy_at eps j = true -> forall base, exists idx, failover_scan eps base = Some idx.
Proof.
  intros Hj base. destruct (failover_scan eps base) as [idx|] eqn:Hs; [eauto|].
  rewrite (failover_scan_none eps base Hs j) in Hj. discriminate.
Qed.

(** X11.  [selectFailover] returns the first healthy endpoint of the pool
    in configured order: the endpoint it returns is healthy and every one
    before it is not, whenever some endpoint is healthy; when none is, it
    returns the first endpoint (nothing for an empty pool).  It changes
    nothing in the client, the round-robin counter included. *)
Theorem selectFailover_first_healthy :
  forall c : Client,
    (selectFailover c).2 = c /\
    (forall j, healthy_at (endpoints c) j = true ->
       exists idx,
         (selectFailover c).1 = Some idx /\ (idx <= j)%nat /\
         healthy_at (endpoints c) idx = true /\
         forall i, (i < idx)%nat -> healthy_at (endpoints c) i = false) /\
    ((forall j, healthy_at (endpoints c) j = false) ->
       (selectFailover c).1 = if decide (endpoints c = []) then None else Some 0%nat).
Proof.
  intros c. split; [|split].
  - unfold selectFailover. destruct (failover_scan _ _); [reflexivity|].
    destruct (0 <? _); reflexivity.
  - intros j Hj. destruct (failover_scan_some _ j Hj 0%nat) as [idx Hs].
    destruct (failover_scan_first _ _ _ Hs) as (_ & Hat & Hbefore).
    rewrite Nat.sub_0_r in Hat, Hbefore.
    exists idx. unfold selectFailover. rewrite Hs. repeat split; auto.
    destruct (Nat.le_gt_cases idx j) as [?|Hlt]; [assumption|].
    rewrite (Hbefore j Hlt) in Hj. discriminate.
  - intros Hall. unfold selectFailover.
    destruct (failover_scan (endpoints c) 0) as [idx|] eqn:Hs.
    + destruct (failover_scan_first _ _ _ Hs) as (_ & Hat & _).
      rewrite Hall in Hat. discriminate.
    + destruct (endpoints c) as [|ep eps]; reflexivity.
Qed.

Lemma selectFailover_first_healthy_witness :
  (selectFailover first_down).1 = Some 1%nat.
Proof.
  destruct (proj1 (proj2 (selectFailover_first_healthy first_down)) 1%nat eq_refl)
    as (idx & Hsel & Hle & Hat & Hbefore).
  rewrite Hsel. f_equal.
  destruct idx as [|[|idx]]; [discriminate Hat|reflexivity|lia].
Defined.


(** *** The retry loop *)

(** The same endpoint, possibly less healthy. *)
Definition same_endpoint (ep ep' : Endpoint) : Prop :=
  URL ep' = URL ep /\ APIKey ep' = APIKey ep /\ Weight ep' = Weight ep /\
  (Healthy ep' = true -> Healthy ep = true).

Lemma same_endpoint_refl ep : same_endpoint ep ep.
Proof. unfold same_endpoint. auto. Qed.

Lemma same_endpoint_trans ep1 ep2 ep3 :
  same_endpoint ep1 ep2 -> same_endpoint ep2 ep3 -> same_endpoint ep1 ep3.
Proof.
  unfold same_endpoint. intros (? & ? & ? & ?) (? & ? & ? & ?).
  repeat split; try congruence. auto.
Qed.

Lemma mark_unhealthy_same c idx :
  Forall2 same_endpoint (endpoints c) (endpoints (mark_unhealthy c idx)).
Proof.
  apply Forall2_same_length_lookup. split; [symmetry; apply mark_unhealthy_length|].
  intros i ep ep' Hi. unfold mark_unhealthy.
  destruct (endpoints c !! idx) as [epx|] eqn:Hx; [|intros Hi'; simpl in *;
    assert (ep = ep') by congruence; subst; apply same_endpoint_refl].
  simpl. rewrite list_lookup_insert.
  destruct (decide (idx = i /\ (idx < length (endpoints c))%nat)) as [[-> _]|_].
  - intros [= <-]. assert (epx = ep) by congruence. subst.
    unfold same_endpoint. simpl. repeat split; auto. discriminate.
  - intros Hi'. assert (ep = ep') by congruence. subst. apply same_endpoint_refl.
Qed.

Lemma Forall2_same_endpoint_trans eps1 eps2 eps3 :
  Forall2 same_endpoint eps1 eps2 -> Forall2 same_endpoint eps2 eps3 ->
  Forall2 same_endpoint eps1 eps3.
Proof.
  intros H12. revert eps3. induction H12 as [|e1 e2 l1 l2 He _ IH]; intros eps3 H23.
  - inversion H23. constructor.
  - inversion H23 as [|? e3 ? l3 He' Hl]; subst. constructor.
    + eapply same_endpoint_trans; eassumption.
    + apply IH, Hl.
Qed.

Lemma Forall2_same_endpoint_refl eps : Forall2 same_endpoint eps eps.
Proof. induction eps; constructor; auto using same_endpoint_refl. Qed.

Lemma selectEndpoint_policy c : loadBalancing (selectEndpoint c).2 = loadBalancing c.
Proof.
  unfold selectEndpoint, selectRoundRobin, selectFailover.
  destruct (String.eqb (loadBalancing c) "round_robin"),
    (String.eqb (loadBalancing c) "failover");
    repeat match goal with
           | |- context [match ?x with _ => _ end] => destruct x
           end; reflexivity.
Qed.

Lemma mark_unhealthy_policy c idx : loadBalancing (mark_unhealthy c idx) = loadBalancing c.
Proof. unfold mark_unhealthy. destruct (endpoints c !! idx); reflexivity. Qed.

Lemma resolve_loop_keeps_pool doRequest cancelled maxRetries fuel : forall attempt c,
  let c' := (resolve_loop doRequest cancelled maxRetries fuel attempt c).2 in
  Forall2 same_endpoint (endpoints c) (endpoints c') /\
  loadBalancing c' = loadBalancing c.
Proof.
  induction fuel as [|fuel IH]; intros attempt c; simpl.
  - split; [apply Forall2_same_endpoint_refl|reflexivity].
  - pose proof (selectEndpoint_endpoints c) as Heps.
    pose proof (selectEndpoint_policy c) as Hpol.
    destruct (selectEndpoint c) as [[idx|] c1]; simpl in Heps, Hpol |- *.
    + destruct (doRequest idx attempt); simpl.
      * rewrite Heps. split; [apply Forall2_same_endpoint_refl|exact Hpol].
      * assert (Hm : Forall2 same_endpoint (endpoints c) (endpoints (mark_unhealthy c1 idx)))
          by (rewrite <- Heps; apply mark_unhealthy_same).
        destruct (_ && _); simpl.
        -- split; [exact Hm|]. rewrite mark_unhealthy_policy. exact Hpol.
        -- destruct (IH (S attempt) (mark_unhealthy c1 idx)) as [H1 H2]. split.
           ++ eapply Forall2_same_endpoint_trans; eassumption.
           ++ rewrite H2, mark_unhealthy_policy. exact Hpol.
    + rewrite Heps. split; [apply Forall2_same_endpoint_refl|exact Hpol].
Qed.

(** X12.  Whatever the network and the context do, [Resolve] leaves the
    pool as configured: the same endpoints in the same order with the same
    URL, key and weight, and the same policy; the only change it makes to
    an endpoint is from healthy to unhealthy, never back. *)
Theorem Resolve_keeps_pool :
  forall (doRequest : nat -> nat -> option ResolveResponse) (cancelled : nat -> bool)
         (maxRetries : Z) (body : option (list byte)) (c : Client),
    let c' := (Resolve doRequest cancelled maxRetries body c).2 in
    Forall2 same_endpoint (endpoints c) (endpoints c') /\
    loadBalancing c' = loadBalancing c /\
    length (endpoints c') = length (endpoints c) /\
    ((Stats c').2 <= (Stats c).2)%nat.
Proof.
  intros doRequest cancelled maxRetries body c c'.
  assert (H : Forall2 same_endpoint (endpoints c) (endpoints c') /\
              loadBalancing c' = loadBalancing c).
  { unfold c', Resolve. destruct body as [b|]; simpl.
    - apply resolve_loop_keeps_pool.
    - split; [apply Forall2_same_endpoint_refl|reflexivity]. }
  destruct H as [Hsame Hpol]. split; [exact Hsame|]. split; [exact Hpol|]. split.
  - symmetry. eapply Forall2_length. exact Hsame.
  - unfold Stats. simpl. clear -Hsame.
    induction Hsame as [|ep ep' l l' (_ & _ & _ & Hh) _ IH]; simpl; [lia|].
    destruct (Healthy ep') eqn:He'; [rewrite (Hh eq_refl)|destruct (Healthy ep)];
      simpl; lia.
Qed.


(** *** Failover across a freshly built pool *)

Lemma healthy_at_mark_unhealthy c idx i :
  healthy_at (endpoints (mark_unhealthy c idx)) i =
  if decide (i = idx) then false else healthy_at (endpoints c) i.
Proof.
  unfold mark_unhealthy, healthy_at.
  destruct (endpoints c !! idx) as [ep|] eqn:Hx.
  - simpl. rewrite list_lookup_insert.
    apply lookup_lt_Some in Hx as Hlt.
    destruct (decide (idx = i /\ (idx < length (endpoints c))%nat)) as [[-> _]|Hn].
    + rewrite decide_True by reflexivity. reflexivity.
    + rewrite decide_False; [reflexivity|]. intros ->. apply Hn. auto.
  - destruct (decide (i = idx)) as [->|_]; [rewrite Hx|]; reflexivity.
Qed.

Lemma healthy_at_NewClient cfgs policy i :
  healthy_at (endpoints (NewClient cfgs policy)) i = (i <? length cfgs)%nat.
Proof.
  unfold healthy_at, NewClient. cbn [endpoints].
  change (map ?f cfgs) with (f <$> cfgs). rewrite list_lookup_fmap.
  destruct (cfgs !! i) as [cfg|] eqn:Hi; simpl.
  - apply lookup_lt_Some in Hi. symmetry. apply Nat.ltb_lt, Hi.
  - apply lookup_ge_None in Hi. symmetry. apply Nat.ltb_ge, Hi.
Qed.

Lemma selectEndpoint_failover_at c k :
  loadBalancing c = "failover" ->
  healthy_at (endpoints c) k = true ->
  (forall i, (i < k)%nat -> healthy_at (endpoints c) i = false) ->
  selectEndpoint c = (Some k, c).
Proof.
  intros Hpol Hk Hbefore. unfold selectEndpoint. rewrite Hpol.
  change (String.eqb "failover" "round_robin") with false.
  change (String.eqb "failover" "failover") with true. cbv iota.
  unfold selectFailover.
  destruct (failover_scan_some _ k Hk 0%nat) as [idx Hs]. rewrite Hs.
  destruct (failover_scan_first _ _ _ Hs) as (_ & Hat & Hfirst).
  rewrite Nat.sub_0_r in Hat, Hfirst.
  assert (idx = k) as ->; [|reflexivity].
  destruct (lt_eq_lt_dec idx k) as [[Hlt| ->]|Hgt]; [|reflexivity|].
  - rewrite (Hbefore idx Hlt) in Hat. discriminate.
  - rewrite (Hfirst k Hgt) in Hk. discriminate.
Qed.

Section FailoverWalk.
Variable doRequest : nat -> nat -> option ResolveResponse.
Variable cancelled : nat -> bool.
Variable maxRetries : Z.
Variables (j n : nat) (resp : ResolveResponse).
Hypothesis Hfail : forall i, (i < j)%nat -> doRequest i i = None.
Hypothesis Hresp : doRequest j j = Some resp.
Hypothesis Hctx : forall a, (a < j)%nat -> cancelled a = false.
Hypothesis Hjn : (j < n)%nat.

Lemma failover_walk_loop : forall d k fuel c,
  (k + d = j)%nat -> (d < fuel)%nat ->
  loadBalancing c = "failover" ->
  (forall i, healthy_at (endpoints c) i = (k <=? i)%nat && (i <? n)%nat) ->
  exists c',
    resolve_loop doRequest cancelled maxRetries fuel k c = (inl resp, c') /\
    forall i, healthy_at (endpoints c') i = (j <=? i)%nat && (i <? n)%nat.
Proof.
  induction d as [|d IH]; intros k fuel c Hkd Hfuel Hpol Hh;
    (destruct fuel as [|fuel]; [lia|]); simpl.
  - assert (k = j) as -> by lia.
    rewrite (selectEndpoint_failover_at c j Hpol).
    + rewrite Hresp. eauto.
    + rewrite Hh. apply andb_true_iff. split; [apply Nat.leb_le|apply Nat.ltb_lt]; lia.
    + intros i Hi. rewrite Hh. apply andb_false_iff. left. apply Nat.leb_gt. lia.
  - rewrite (selectEndpoint_failover_at c k Hpol).
    + rewrite (Hfail k) by lia. rewrite (Hctx k) by lia. rewrite andb_false_r.
      apply IH; [lia|lia|rewrite mark_unhealthy_policy; exact Hpol|].
      intros i. rewrite healthy_at_mark_unhealthy, Hh.
      destruct (decide (i = k)) as [->|Hne].
      * symmetry. apply andb_false_iff. left. apply Nat.leb_gt. lia.
      * f_equal. destruct (Nat.leb_spec k i), (Nat.leb_spec (S k) i); (reflexivity || lia).
    + rewrite Hh. apply andb_true_iff. split; [apply Nat.leb_le|apply Nat.ltb_lt]; lia.
    + intros i Hi. rewrite Hh. apply andb_false_iff. left. apply Nat.leb_gt. lia.
Qed.
End FailoverWalk.

(** X13.  Failover on a pool fresh from [NewClient]: when the endpoints
    before the [j]-th fail and the [j]-th answers (within the retry budget,
    the context staying alive), [Resolve] returns that answer, having tried
    the endpoints in configured order, one per attempt; afterwards exactly
    the endpoints before the [j]-th are marked unhealthy. *)
Theorem Resolve_failover_walk :
  forall (cfgs : list EndpointConfig)
         (doRequest : nat -> nat -> option ResolveResponse) (cancelled : nat -> bool)
         (maxRetries : Z) (body : list byte) (j : nat) (resp : ResolveResponse),
    (j < length cfgs)%nat ->
    Z.of_nat j < maxRetries ->
    (forall i, (i < j)%nat -> doRequest i i = None) ->
    doRequest j j = Some resp ->
    (forall a, (a < j)%nat -> cancelled a = false) ->
    let r := Resolve doRequest cancelled maxRetries (Some body) (NewClient cfgs "failover") in
    r.1 = inl resp /\
    forall i, healthy_at (endpoints r.2) i = (j <=? i)%nat && (i <? length cfgs)%nat.
Proof.
  intros cfgs doRequest cancelled maxRetries body j resp Hj Hmax Hfail Hresp Hctx.
  cbv zeta. unfold Resolve.
  destruct (failover_walk_loop doRequest cancelled maxRetries j (length cfgs) resp
              Hfail Hresp Hctx Hj j 0%nat (Z.to_nat maxRetries)
              (NewClient cfgs "failover")) as (c' & Hrun & Hh).
  - lia.
  - lia.
  - reflexivity.
  - intros i. rewrite healthy_at_NewClient. reflexivity.
  - rewrite Hrun. split; [reflexivity|exact Hh].
Qed.

Definition three_configured : list EndpointConfig :=
  [ mkEndpointConfig "https://a.example/api/v1/resolve" "ka" 1;
    mkEndpointConfig "https://b.example/api/v1/resolve" "kb" 1;
    mkEndpointConfig "https://c.example/api/v1/resolve" "kc" 1 ].

Definition empty_answer : ResolveResponse := mkResolveResponse "example.com" [] false "".

(** The first two endpoints are down, the third answers. *)
Definition third_answers (idx attempt : nat) : option ResolveResponse :=
  if (idx <? 2)%nat then None else Some empty_answer.

Lemma Resolve_failover_walk_witness :
  let r := Resolve third_answers (fun _ => false) 3 (Some [x7b; x7d])
             (NewClient three_configured "failover") in
  r.1 = inl empty_answer /\
  map Healthy (endpoints r.2) = [false; false; true].
Proof.
  cbv zeta. split.
  - apply (Resolve_failover_walk three_configured third_answers (fun _ => false) 3
             [x7b; x7d] 2%nat empty_answer).
    + simpl. lia.
    + lia.
    + intros [|[|i]] Hi; [reflexivity|reflexivity|lia].
    + reflexivity.
    + reflexivity.
  - reflexivity.
Defined.

(** *** When every request fails *)

Lemma resolve_loop_all_fail doRequest cancelled maxRetries :
  (forall i a, doRequest i a = None) ->
  forall fuel attempt c,
    endpoints c <> [] ->
    maxRetries <= Z.of_nat attempt + Z.of_nat fuel ->
    let r := (resolve_loop doRequest cancelled maxRetries fuel attempt c).1 in
    (r = inr ErrContext /\
     exists a, (attempt <= a)%nat /\ Z.of_nat a < maxRetries - 1 /\ cancelled a = true) \/
    (r = inr ErrAllAttemptsFailed /\
     forall a, (attempt <= a)%nat -> Z.of_nat a < maxRetries - 1 -> cancelled a = false).
Proof.
  intros Hfail. induction fuel as [|fuel IH]; intros attempt c Hne Hmax; simpl.
  - right. split; [reflexivity|]. intros a Ha Hlt. lia.
  - destruct (selectEndpoint_some c Hne) as (idx & Hsel & _).
    pose proof (selectEndpoint_endpoints c) as Heps.
    destruct (selectEndpoint c) as [sel c1]. simpl in Hsel, Heps. subst sel.
    rewrite Hfail.
    destruct (Z.of_nat attempt <? maxRetries - 1) eqn:Hlast;
      [destruct (cancelled attempt) eqn:Hc|]; simpl.
    + left. split; [reflexivity|]. exists attempt. split; [lia|]. split; [lia|exact Hc].
    + destruct (IH (S attempt) (mark_unhealthy c1 idx)) as [[Hr (a & Ha & Hlt & Hca)]|[Hr Hall]].
      * apply nonempty_length. rewrite mark_unhealthy_length, Heps.
        apply nonempty_length, Hne.
      * lia.
      * left. split; [exact Hr|]. exists a. split; [lia|]. auto.
      * right. split; [exact Hr|]. intros a Ha Hlt.
        destruct (decide (a = attempt)) as [->|Hne']; [exact Hc|]. apply Hall; [lia|exact Hlt].
    + destruct (IH (S attempt) (mark_unhealthy c1 idx)) as [[Hr (a & Ha & Hlt & Hca)]|[Hr Hall]].
      * apply nonempty_length. rewrite mark_unhealthy_length, Heps.
        apply nonempty_length, Hne.
      * lia.
      * lia.
      * right. split; [exact Hr|]. intros a Ha Hlt. lia.
Qed.

(** X14.  When no request succeeds on a non-empty pool, [Resolve] fails in
    one of two ways: with the context's error exactly when the context is
    done during the back-off after some attempt other than the last one,
    and otherwise with "all attempts failed".  A cancellation after the
    last attempt is never reported, and a retry budget of zero or less
    gives "all attempts failed". *)
Theorem Resolve_failure_outcomes :
  forall (doRequest : nat -> nat -> option ResolveResponse) (cancelled : nat -> bool)
         (maxRetries : Z) (body : list byte) (c : Client),
    endpoints c <> [] ->
    (forall i a, doRequest i a = None) ->
    let r := (Resolve doRequest cancelled maxRetries (Some body) c).1 in
    (r = inr ErrContext \/ r = inr ErrAllAttemptsFailed) /\
    (r = inr ErrContext <->
     exists a, Z.of_nat a < maxRetries - 1 /\ cancelled a = true).
Proof.
  intros doRequest cancelled maxRetries body c Hne Hfail. cbv zeta. unfold Resolve.
  destruct (resolve_loop_all_fail doRequest cancelled maxRetries Hfail
              (Z.to_nat maxRetries) 0%nat c Hne) as [[Hr (a & _ & Hlt & Hc)]|[Hr Hall]].
  - lia.
  - rewrite Hr. split; [left; reflexivity|]. split; [eauto|reflexivity].
  - rewrite Hr. split; [right; reflexivity|]. split; [discriminate|].
    intros (a & Hlt & Hc). rewrite (Hall a) in Hc; [discriminate|lia|exact Hlt].
Qed.

Lemma Resolve_failure_outcomes_witness :
  (Resolve (fun _ _ => None) (fun a => (a =? 1)%nat) 3 (Some [x7b; x7d])
     (NewClient three_configured "round_robin")).1 = inr ErrContext /\
  (Resolve (fun _ _ => None) (fun a => (a =? 2)%nat) 3 (Some [x7b; x7d])
     (NewClient three_configured "round_robin")).1 = inr ErrAllAttemptsFailed.
Proof.
  split.
  - apply (Resolve_failure_outcomes (fun _ _ => None) (fun a => (a =? 1)%nat) 3
             [x7b; x7d] (NewClient three_configured "round_robin")).
    + discriminate.
    + reflexivity.
    + exists 1%nat. split; [lia|reflexivity].
  - destruct (Resolve_failure_outcomes (fun _ _ => None) (fun a => (a =? 2)%nat) 3
                [x7b; x7d] (NewClient three_configured "round_robin"))
      as [[Hr|Hr] Hiff]; [discriminate|reflexivity|discriminate Hr|exact Hr].
Defined.

(** *** Probing an endpoint whose URL ends in the resolve path *)

Lemma length_append_str (a b : string) :
  String.length (a +:+ b) = (String.length a + String.length b)%nat.
Proof. induction a as [|ch a IH]; simpl; [reflexivity|]. rewrite IH. reflexivity. Qed.

Lemma substring_append_prefix (a b : string) :
  String.substring 0 (String.length a) (a +:+ b) = a.
Proof.
  induction a as [|ch a IH]; simpl.
  - destruct b; reflexivity.
  - rewrite IH. reflexivity.
Qed.

Lemma healthURL_resolve_url base :
  healthURL (base +:+ resolve_suffix) = Some (base +:+ "/health").
Proof.
  unfold healthURL. rewrite length_append_str.
  destruct (_ <? 0) eqn:Hneg; [apply Z.ltb_lt in Hneg; lia|].
  replace (Z.to_nat _) with (String.length base) by lia.
  rewrite substring_append_prefix. reflexivity.
Qed.

(** X15.  For an endpoint whose URL is a base followed by
    [/api/v1/resolve], the probe goes to the base followed by [/health];
    the endpoint is healthy afterwards exactly when the probe was answered
    with status 200 (a transport error or any other status marks it
    unhealthy), whatever its health was before; URL, key and weight are
    kept. *)
Theorem checkEndpoint_resolve_url :
  forall (http_get : string -> ProbeResult) (base key : string) (w : Z) (h : bool),
    checkEndpoint http_get (mkEndpoint (base +:+ "/api/v1/resolve") key w h) =
    Some (base +:+ "/health",
          mkEndpoint (base +:+ "/api/v1/resolve") key w
            match http_get (base +:+ "/health") with
            | ProbeError => false
            | ProbeStatus code => code =? 200
            end).
Proof.
  intros http_get base key w h. unfold checkEndpoint. cbn [URL].
  change "/api/v1/resolve" with resolve_suffix.
  rewrite healthURL_resolve_url.
  destruct (http_get _); reflexivity.
Qed.

End ClientOps.

(** ** The configuration of the local tier (package config) *)

Module LocalConfig.
Import ClientOps.

Record ServerConfig := mkServerConfig {
  ListenAddr : string;
  Port : Z;
  Protocol : string
}.

Record APIConfig := mkAPIConfig {
  Endpoints : list EndpointConfig;
  Timeout : Z;
  MaxRetries : Z;
  RetryDelay : Z;
  HealthCheckFreq : Z;
  LoadBalancing : string
}.

Record CacheConfig := mkCacheConfig {
  Enabled : bool;
  MaxItems : Z;
  DefaultTTL : Z;
  MinTTL : Z;
  MaxTTL : Z;
  NegativeTTL : Z
}.

Record SecurityConfig := mkSecurityConfig {
  EncryptionEnabled : bool;
  EncryptionKey : string
}.

Record LoggingConfig := mkLoggingConfig {
  Level : string;
  Format : string;
  OutputFile : string
}.

Record Config := mkConfig {
  Server : ServerConfig;
  API : APIConfig;
  Cache : CacheConfig;
  Security : SecurityConfig;
  Logging : LoggingConfig
}.

(** Durations, in nanoseconds. *)
Definition Millisecond : Z := 1000000.
Definition Second : Z := 1000 * Millisecond.
Definition Minute : Z := 60 * Second.
Definition Hour : Z := 60 * Minute.

(** [if x == 0 { x = d }] and [if s == "" { s = d }] *)
Definition or_default (x d : Z) : Z := if x =? 0 then d else x.
Definition or_default_str (s d : string) : string := if String.eqb s "" then d else s.

Definition setDefaults (c : Config) : Config :=
  mkConfig
    (mkServerConfig
       (or_default_str (ListenAddr (Server c)) "127.0.0.1")
       (or_default (Port (Server c)) 53)
       (or_default_str (Protocol (Server c)) "udp"))
    (mkAPIConfig
       (Endpoints (API c))
       (or_default (Timeout (API c)) (10 * Second))
       (or_default (MaxRetries (API c)) 3)
       (or_default (RetryDelay (API c)) (500 * Millisecond))
       (or_default (HealthCheckFreq (API c)) (30 * Second))
       (or_default_str (LoadBalancing (API c)) "round_robin"))
    (mkCacheConfig
       (Enabled (Cache c))
       (or_default (MaxItems (Cache c)) 10000)
       (or_default (DefaultTTL (Cache c)) (5 * Minute))
       (or_default (MinTTL (Cache c)) (60 * Second))
       (or_default (MaxTTL (Cache c)) (24 * Hour))
       (or_default (NegativeTTL (Cache c)) (5 * Minute)))
    (Security c)
    (mkLoggingConfig
       (or_default_str (Level (Logging c)) "info")
       (or_default_str (Format (Logging c)) "text")
       (OutputFile (Logging c))).

Inductive ValidateError :=
| ErrNoEndpoint
| ErrURLRequired (i : nat)
| ErrAPIKeyRequired (i : nat)
| ErrEncryptionKeyLength.

(** The loop of [validate] over the endpoints, from index [i]. *)
Fixpoint validate_endpoints (eps : list EndpointConfig) (i : nat) : option ValidateError :=
  match eps with
  | [] => None
  | ep :: rest =>
      if String.eqb (cfgURL ep) "" then Some (ErrURLRequired i)
      else if String.eqb (cfgAPIKey ep) "" then Some (ErrAPIKeyRequired i)
      else validate_endpoints rest (S i)
  end.

(** [validate]; [None] is the nil error. *)
Definition validate (c : Config) : option ValidateError :=
  if (length (Endpoints (API c)) =? 0)%nat then Some ErrNoEndpoint
  else match validate_endpoints (Endpoints (API c)) 0 with
       | Some err => Some err
       | None =>
           if EncryptionEnabled (Security c) &&
              negb (String.length (EncryptionKey (Security c)) =? 64)%nat
           then Some ErrEncryptionKeyLength
           else None
       end.

(** [Load], from the point where the file has been read and parsed. *)
Definition Load (parsed : Config) : Config + ValidateError :=
  let cfg := setDefaults parsed in
  match validate cfg with
  | Some err => inr err
  | None => inl cfg
  end.


(** *** What [validate] lets through *)

Definition endpoint_ok (ep : EndpointConfig) : Prop :=
  cfgURL ep <> "" /\ cfgAPIKey ep <> "".

Lemma validate_endpoints_none eps : forall base,
  validate_endpoints eps base = None <-> Forall endpoint_ok eps.
Proof.
  induction eps as [|ep eps IH]; intros base; simpl.
  - split; [constructor|reflexivity].
  - destruct (String.eqb_spec (cfgURL ep) "") as [Hu|Hu].
    { split; [discriminate|]. intros H. inversion H as [|? ? [Hok _] _]. contradiction. }
    destruct (String.eqb_spec (cfgAPIKey ep) "") as [Hk|Hk].
    { split; [discriminate|]. intros H. inversion H as [|? ? [_ Hok] _]. contradiction. }
    rewrite IH. split.
    + intros H. constructor; [split; assumption|exact H].
    + intros H. inversion H. assumption.
Qed.

Lemma validate_endpoints_some eps : forall base err,
  validate_endpoints eps base = Some err ->
  exists i ep,
    eps !! i = Some ep /\ Forall endpoint_ok (take i eps) /\
    ((err = ErrURLRequired (base + i) /\ cfgURL ep = "") \/
     (err = ErrAPIKeyRequired (base + i) /\ cfgURL ep <> "" /\ cfgAPIKey ep = "")).
Proof.
  induction eps as [|ep eps IH]; intros base err; simpl; [discriminate|].
  destruct (String.eqb_spec (cfgURL ep) "") as [Hu|Hu].
  { intros [= <-]. exists 0%nat, ep. rewrite Nat.add_0_r.
    split; [reflexivity|]. split; [constructor|]. left. auto. }
  destruct (String.eqb_spec (cfgAPIKey ep) "") as [Hk|Hk].
  { intros [= <-]. exists 0%nat, ep. rewrite Nat.add_0_r.
    split; [reflexivity|]. split; [constructor|]. right. auto. }
  intros H. destruct (IH _ _ H) as (i & ep' & Hi & Hbefore & Herr).
  exists (S i), ep'. split; [exact Hi|]. split.
  - simpl. constructor; [split; assumption|exact Hbefore].
  - replace (base + S i)%nat with (S base + i)%nat by lia. exact Herr.
Qed.

(** X22.  [validate] accepts a configuration exactly when it lists at
    least one endpoint, every endpoint has a URL and an API key, and the
    encryption key, if encryption is on, is 64 characters long (it need
    not consist of hexadecimal digits).  An endpoint error names the first
    endpoint at fault, the missing URL before the missing key, and takes
    precedence over the key length; nothing else is checked. *)
Theorem validate_accepts_and_reports :
  forall c : Config,
    (validate c = None <->
       Endpoints (API c) <> [] /\ Forall endpoint_ok (Endpoints (API c)) /\
       (EncryptionEnabled (Security c) = true ->
        String.length (EncryptionKey (Security c)) = 64%nat)) /\
    (validate c = Some ErrNoEndpoint <-> Endpoints (API c) = []) /\
    (forall i, validate c = Some (ErrURLRequired i) ->
       exists ep, Endpoints (API c) !! i = Some ep /\ cfgURL ep = "" /\
                  Forall endpoint_ok (take i (Endpoints (API c)))) /\
    (forall i, validate c = Some (ErrAPIKeyRequired i) ->
       exists ep, Endpoints (API c) !! i = Some ep /\ cfgURL ep <> "" /\
                  cfgAPIKey ep = "" /\
                  Forall endpoint_ok (take i (Endpoints (API c)))) /\
    (validate c = Some ErrEncryptionKeyLength ->
       Forall endpoint_ok (Endpoints (API c)) /\
       EncryptionEnabled (Security c) = true /\
       String.length (EncryptionKey (Security c)) <> 64%nat).
Proof.
  intros c. unfold validate.
  destruct (Endpoints (API c)) as [|ep0 eps0] eqn:Heps.
  { simpl. repeat split; try discriminate; try tauto; congruence. }
  change ((length (ep0 :: eps0) =? 0)%nat) with false. cbv iota.
  destruct (validate_endpoints (ep0 :: eps0) 0) as [err|] eqn:Hv.
  - destruct (validate_endpoints_some _ _ _ Hv) as (i & ep & Hi & Hbefore & Herr).
    assert (Hbad : ~ Forall endpoint_ok (ep0 :: eps0)).
    { intros Hall. apply (validate_endpoints_none _ 0%nat) in Hall. congruence. }
    simpl in Herr. split; [|split; [|split; [|split]]].
    + split; [discriminate|]. intros (_ & Hall & _). contradiction.
    + split; [|discriminate]. intros [= ->].
      destruct Herr as [[? _]|[? _]]; discriminate.
    + intros j [= ->]. destruct Herr as [[[= <-] Hu]|[? _]]; [|discriminate].
      exists ep. auto.
    + intros j [= ->]. destruct Herr as [[? _]|[[= <-] [Hu Hk]]]; [discriminate|].
      exists ep. auto.
    + intros [= ->]. destruct Herr as [[? _]|[? _]]; discriminate.
  - apply validate_endpoints_none in Hv.
    destruct (EncryptionEnabled (Security c)) eqn:Hen; simpl.
    + destruct (Nat.eqb_spec (String.length (EncryptionKey (Security c))) 64) as [Hl|Hl];
        simpl.
      * repeat split; try discriminate; auto.
      * repeat split; try discriminate; auto.
        intros (_ & _ & Hk). specialize (Hk eq_refl). contradiction.
    + repeat split; try discriminate; auto.
Qed.

Definition two_endpoints_one_keyless : Config :=
  mkConfig (mkServerConfig "" 0 "")
    (mkAPIConfig [mkEndpointConfig "https://a.example/api/v1/resolve" "ka" 0;
                  mkEndpointConfig "https://b.example/api/v1/resolve" "" 0] 0 0 0 0 "")
    (mkCacheConfig true 0 0 0 0 0)
    (mkSecurityConfig true "short")
    (mkLoggingConfig "" "" "").

Lemma validate_accepts_and_reports_witness :
  validate two_endpoints_one_keyless = Some (ErrAPIKeyRequired 1) /\
  exists ep, Endpoints (API two_endpoints_one_keyless) !! 1%nat = Some ep /\
             cfgAPIKey ep = "".
Proof.
  split; [reflexivity|].
  destruct (proj1 (proj2 (proj2 (proj2 (validate_accepts_and_reports
              two_endpoints_one_keyless)))) 1%nat eq_refl)
    as (ep & Hep & _ & Hk & _).
  exists ep. auto.
Defined.

(** *** A loaded configuration *)

Lemma or_default_nonzero x d : d <> 0 -> or_default x d <> 0.
Proof. unfold or_default. destruct (Z.eqb_spec x 0); congruence. Qed.

Lemma or_default_idem x d : or_default (or_default x d) d = or_default x d.
Proof.
  unfold or_default. destruct (Z.eqb_spec x 0) as [->|Hx].
  - destruct (Z.eqb_spec d 0); congruence.
  - destruct (Z.eqb_spec x 0); congruence.
Qed.

Lemma or_default_str_idem s d : or_default_str (or_default_str s d) d = or_default_str s d.
Proof.
  unfold or_default_str. destruct (String.eqb_spec s "") as [->|Hs].
  - destruct (String.eqb_spec d ""); congruence.
  - destruct (String.eqb_spec s ""); congruence.
Qed.

Lemma setDefaults_idem c : setDefaults (setDefaults c) = setDefaults c.
Proof.
  unfold setDefaults. cbn [Server API Cache Security Logging ListenAddr Port Protocol
    Endpoints Timeout MaxRetries RetryDelay HealthCheckFreq LoadBalancing Enabled MaxItems
    DefaultTTL MinTTL MaxTTL NegativeTTL Level Format OutputFile].
  rewrite !or_default_idem, !or_default_str_idem. reflexivity.
Qed.

Lemma NewClient_all_healthy eps policy :
  Stats (NewClient eps policy) = (length eps, length eps).
Proof.
  unfold Stats, NewClient. cbn [Client.endpoints].
  rewrite length_map. f_equal.
  induction eps as [|ep eps IH]; simpl; [reflexivity|]. rewrite IH. reflexivity.
Qed.

Lemma NewClient_first_selection eps policy :
  eps <> [] -> (Client.selectEndpoint (NewClient eps policy)).1 = Some 0%nat.
Proof.
  intros Hne. destruct eps as [|ep eps]; [congruence|].
  assert (Hrr : (Client.selectRoundRobin (NewClient (ep :: eps) policy)).1 = Some 0%nat).
  { unfold Client.selectRoundRobin, NewClient.
    cbn [Client.endpoints Client.currentIndex map length Client.rr_scan].
    change (wrap32 (0 + 1)) with 1. change (wrap32 (1 - 1)) with 0.
    rewrite Z.mod_0_l by lia. reflexivity. }
  unfold Client.selectEndpoint.
  destruct (String.eqb _ "round_robin"); [exact Hrr|].
  destruct (String.eqb _ "failover"); [reflexivity|exact Hrr].
Qed.

(** X23.  A configuration that [Load] accepts is the parsed one with the
    defaults filled in (filling them in again changes nothing): the
    endpoints are those of the file, none of the retry budget, the cache
    size and the cache lifetimes is zero, and a value set in the file is
    kept.  The client built from it has a non-empty pool with every
    endpoint healthy, and its first selection is the first endpoint of the
    file, whatever the policy. *)
Theorem Load_accepted_configuration :
  forall parsed cfg : Config,
    Load parsed = inl cfg ->
    cfg = setDefaults parsed /\ setDefaults cfg = cfg /\
    Endpoints (API cfg) = Endpoints (API parsed) /\
    Endpoints (API cfg) <> [] /\ Forall endpoint_ok (Endpoints (API cfg)) /\
    MaxRetries (API cfg) <> 0 /\ MaxItems (Cache cfg) <> 0 /\
    DefaultTTL (Cache cfg) <> 0 /\ MinTTL (Cache cfg) <> 0 /\ MaxTTL (Cache cfg) <> 0 /\
    LoadBalancing (API cfg) <> "" /\
    (MaxRetries (API parsed) <> 0 -> MaxRetries (API cfg) = MaxRetries (API parsed)) /\
    (MaxItems (Cache parsed) <> 0 -> MaxItems (Cache cfg) = MaxItems (Cache parsed)) /\
    let client := NewClient (Endpoints (API cfg)) (LoadBalancing (API cfg)) in
    Stats client = (length (Endpoints (API parsed)), length (Endpoints (API parsed))) /\
    (Client.selectEndpoint client).1 = Some 0%nat.
Proof.
  intros parsed cfg. unfold Load.
  destruct (validate (setDefaults parsed)) eqn:Hv; [discriminate|].
  intros [= <-].
  destruct (proj1 (proj1 (validate_accepts_and_reports (setDefaults parsed))) Hv)
    as (Hne & Hok & _).
  split; [reflexivity|]. split; [apply setDefaults_idem|].
  split; [reflexivity|]. split; [exact Hne|]. split; [exact Hok|].
  cbn [setDefaults API Cache MaxRetries MaxItems DefaultTTL MinTTL MaxTTL LoadBalancing
       Endpoints] in *.
  split; [apply or_default_nonzero; discriminate|].
  split; [apply or_default_nonzero; discriminate|].
  split; [apply or_default_nonzero; discriminate|].
  split; [apply or_default_nonzero; discriminate|].
  split; [apply or_default_nonzero; discriminate|].
  split.
  { unfold or_default_str. destruct (String.eqb_spec (LoadBalancing (API parsed)) "");
      [discriminate|assumption]. }
  split.
  { intros Hset. unfold or_default. destruct (Z.eqb_spec (MaxRetries (API parsed)) 0);
      [contradiction|reflexivity]. }
  split.
  { intros Hset. unfold or_default. destruct (Z.eqb_spec (MaxItems (Cache parsed)) 0);
      [contradiction|reflexivity]. }
  split; [apply NewClient_all_healthy|apply NewClient_first_selection, Hne].
Qed.

Definition one_endpoint : Config :=
  mkConfig (mkServerConfig "" 0 "")
    (mkAPIConfig [mkEndpointConfig "https://a.example/api/v1/resolve" "ka" 0] 0 0 0 0 "")
    (mkCacheConfig true 0 0 0 0 0)
    (mkSecurityConfig false "")
    (mkLoggingConfig "" "" "").

Lemma Load_accepted_configuration_witness :
  exists cfg, Load one_endpoint = inl cfg /\
              MaxRetries (API cfg) = 3 /\ MaxItems (Cache cfg) = 10000 /\
              LoadBalancing (API cfg) = "round_robin".
Proof.
  exists (setDefaults one_endpoint).
  destruct (Load_accepted_configuration one_endpoint (setDefaults one_endpoint) eq_refl)
    as (_ & _ & _).
  repeat split.
Defined.

(** X24.  [validate] does not look at the retry budget: a configuration
    with a negative [max_retries] is accepted as it stands, and with it
    every [Resolve] of the client fails with "all attempts failed" before
    any endpoint is selected or any request is sent. *)
Theorem Load_negative_retries :
  forall (parsed cfg : Config)
         (doRequest : nat -> nat -> option Client.ResolveResponse)
         (cancelled : nat -> bool) (body : list byte) (client : Client.Client),
    Load parsed = inl cfg ->
    MaxRetries (API parsed) < 0 ->
    MaxRetries (API cfg) = MaxRetries (API parsed) /\
    Client.Resolve doRequest cancelled (MaxRetries (API cfg)) (Some body) client =
      (inr Client.ErrAllAttemptsFailed, client).
Proof.
  intros parsed cfg doRequest cancelled body client. unfold Load.
  destruct (validate (setDefaults parsed)); [discriminate|]. intros [= <-] Hneg.
  cbn [setDefaults API MaxRetries]. unfold or_default.
  destruct (Z.eqb_spec (MaxRetries (API parsed)) 0) as [?|_]; [lia|].
  split; [reflexivity|]. unfold Client.Resolve.
  replace (Z.to_nat (MaxRetries (API parsed))) with 0%nat by lia. reflexivity.
Qed.

Definition negative_retries : Config :=
  mkConfig (mkServerConfig "" 0 "")
    (mkAPIConfig [mkEndpointConfig "https://a.example/api/v1/resolve" "ka" 0] 0 (-1) 0 0 "")
    (mkCacheConfig true 0 0 0 0 0)
    (mkSecurityConfig false "")
    (mkLoggingConfig "" "" "").

Lemma Load_negative_retries_witness :
  (Client.Resolve (fun _ _ => Some (Client.mkResolveResponse "example.com" [] false ""))
     (fun _ => false) (MaxRetries (API (setDefaults negative_retries))) (Some [x7b; x7d])
     (NewClient (Endpoints (API negative_retries)) "round_robin")).1 =
  inr Client.ErrAllAttemptsFailed.
Proof.
  destruct (Load_negative_retries negative_retries (setDefaults negative_retries)
              (fun _ _ => Some (Client.mkResolveResponse "example.com" [] false ""))
              (fun _ => false) [x7b; x7d]
              (NewClient (Endpoints (API negative_retries)) "round_robin")
              eq_refl) as [_ Hrun].
  - reflexivity.
  - rewrite Hrun. reflexivity.
Defined.

End LocalConfig.

(** ** The local listener: answering a query (package server) *)

Module ServerOps.
Import DNS LocalCache.







Section Handle.
Variable ParseIP : string -> option (option (list byte) * option (list byte)).




End Handle.

(** [New], as far as the cache goes. *)
Definition New (cfg : LocalConfig.Config) : option Cache :=
  let cc := LocalConfig.Cache cfg in
  if LocalConfig.Enabled cc
  then Some (LocalCache.New (LocalConfig.MaxItems cc) (LocalConfig.DefaultTTL cc)
                            (LocalConfig.MinTTL cc) (LocalConfig.MaxTTL cc))
  else None.






(** *** Building records *)

Lemma createRR_Hdr ParseIP rec name rr :
  Server.createRR ParseIP rec name = Some rr ->
  hName (Hdr rr) = name /\ Class (Hdr rr) = ClassINET /\
  Ttl (Hdr rr) = (if Client.TTL rec =? 0 then 300 else Client.TTL rec) /\
  TypeToString (Rrtype (Hdr rr)) = Client.Type_ rec.
Proof.
  unfold Server.createRR.
  destruct (String.eqb_spec (Client.Type_ rec) "A") as [->|_].
  { destruct (ParseIP _); [|discriminate]. intros [= <-]. auto. }
  destruct (String.eqb_spec (Client.Type_ rec) "AAAA") as [->|_].
  { destruct (ParseIP _); [|discriminate]. intros [= <-]. auto. }
  destruct (String.eqb_spec (Client.Type_ rec) "CNAME") as [->|_];
    [intros [= <-]; auto|].
  destruct (String.eqb_spec (Client.Type_ rec) "TXT") as [->|_];
    [intros [= <-]; auto|].
  destruct (String.eqb_spec (Client.Type_ rec) "MX") as [->|_];
    [intros [= <-]; auto|].
  destruct (String.eqb_spec (Client.Type_ rec) "NS") as [->|_];
    [intros [= <-]; auto|].
  discriminate.
Qed.

(** X16.  A record [createRR] builds is owned by the name it is given (the
    name of the record in the API result plays no part), has class IN, the
    TTL of the API record or 300 when that is zero, and the type whose
    mnemonic the API record carries.  It fails exactly on a type other
    than A, AAAA, CNAME, TXT, MX, NS and on an A or AAAA value that is not
    an IP address; an A record takes the 4-byte form of the address, which
    is nil for an IPv6 address. *)
Theorem createRR_header_and_errors :
  forall (ParseIP : string -> option (option (list byte) * option (list byte)))
         (rec : Client.DNSRecord) (name : string),
    (forall rr, Server.createRR ParseIP rec name = Some rr ->
       hName (Hdr rr) = name /\ Class (Hdr rr) = ClassINET /\
       Ttl (Hdr rr) = (if Client.TTL rec =? 0 then 300 else Client.TTL rec) /\
       TypeToString (Rrtype (Hdr rr)) = Client.Type_ rec) /\
    (Server.createRR ParseIP rec name = None <->
       ~ In (Client.Type_ rec) ["A"; "AAAA"; "CNAME"; "TXT"; "MX"; "NS"] \/
       (In (Client.Type_ rec) ["A"; "AAAA"] /\ ParseIP (Client.Value rec) = None)) /\
    (forall rr v4 v6, Client.Type_ rec = "A" ->
       ParseIP (Client.Value rec) = Some (v4, v6) ->
       Server.createRR ParseIP rec name = Some rr -> Data rr = RD_A v4) /\
    (forall rec', Client.Type_ rec' = Client.Type_ rec ->
       Client.Value rec' = Client.Value rec -> Client.TTL rec' = Client.TTL rec ->
       Server.createRR ParseIP rec' name = Server.createRR ParseIP rec name).
Proof.
  intros ParseIP rec name. split; [|split; [|split]].
  - intros rr. apply createRR_Hdr.
  - unfold Server.createRR. simpl In.
    destruct (String.eqb_spec (Client.Type_ rec) "A") as [HA|HA].
    { rewrite HA. destruct (ParseIP _); simpl; split; try discriminate; auto.
      intros [Hn|[_ Hp]]; [exfalso; apply Hn; auto|discriminate Hp]. }
    destruct (String.eqb_spec (Client.Type_ rec) "AAAA") as [H6|H6].
    { rewrite H6. destruct (ParseIP _); simpl; split; try discriminate; auto.
      intros [Hn|[_ Hp]]; [exfalso; apply Hn; auto|discriminate Hp]. }
    destruct (String.eqb_spec (Client.Type_ rec) "CNAME") as [HC|HC].
    { split; [discriminate|]. intros [Hn|[[?|[?|[]]] _]]; try congruence.
      exfalso. apply Hn. rewrite HC. auto 10. }
    destruct (String.eqb_spec (Client.Type_ rec) "TXT") as [HT|HT].
    { split; [discriminate|]. intros [Hn|[[?|[?|[]]] _]]; try congruence.
      exfalso. apply Hn. rewrite HT. auto 10. }
    destruct (String.eqb_spec (Client.Type_ rec) "MX") as [HM|HM].
    { split; [discriminate|]. intros [Hn|[[?|[?|[]]] _]]; try congruence.
      exfalso. apply Hn. rewrite HM. auto 10. }
    destruct (String.eqb_spec (Client.Type_ rec) "NS") as [HN|HN].
    { split; [discriminate|]. intros [Hn|[[?|[?|[]]] _]]; try congruence.
      exfalso. apply Hn. rewrite HN. auto 10. }
    split; [|reflexivity]. intros _. left.
    intros [?|[?|[?|[?|[?|[?|[]]]]]]]; congruence.
  - intros rr v4 v6 HA Hp. unfold Server.createRR. rewrite HA, Hp. simpl.
    intros [= <-]. reflexivity.
  - intros rec' Hty Hv Httl. unfold Server.createRR. rewrite Hty, Hv, Httl. reflexivity.
Qed.

(** An API record named after something else than the question, with an
    IPv6 address for an A record. *)
Definition parse_sample (s : string) : option (option (list byte) * option (list byte)) :=
  if String.eqb s "1.2.3.4"
  then Some (Some [x01; x02; x03; x04],
             Some [x00; x00; x00; x00; x00; x00; x00; x00; x00; x00; xff; xff;
                   x01; x02; x03; x04])
  else if String.eqb s "::1"
  then Some (None,
             Some [x00; x00; x00; x00; x00; x00; x00; x00; x00; x00; x00; x00;
                   x00; x00; x00; x01])
  else None.

Lemma createRR_header_and_errors_witness :
  exists rr,
    Server.createRR parse_sample (Client.mkDNSRecord "other.example" "A" "::1" 0)
      "example.com." = Some rr /\
    hName (Hdr rr) = "example.com." /\ Ttl (Hdr rr) = 300 /\ Data rr = RD_A None.
Proof.
  destruct (Server.createRR parse_sample
              (Client.mkDNSRecord "other.example" "A" "::1" 0) "example.com.")
    as [rr|] eqn:Hrr; [|discriminate Hrr].
  exists rr. split; [reflexivity|].
  destruct (createRR_header_and_errors parse_sample
              (Client.mkDNSRecord "other.example" "A" "::1" 0) "example.com.")
    as (Hhdr & _ & Hdata & _).
  destruct (Hhdr rr Hrr) as (Hname & _ & Httl & _).
  split; [exact Hname|]. split; [exact Httl|].
  apply (Hdata rr None (Some [x00; x00; x00; x00; x00; x00; x00; x00; x00; x00; x00; x00;
                              x00; x00; x00; x01])); [reflexivity|reflexivity|exact Hrr].
Defined.


(** *** The reply built from an API result *)

Section Replies.
Variable ParseIP : string -> option (option (list byte) * option (list byte)).









(** *** Answering a query *)









End Replies.

(** *** Sample runs *)

Definition cold : Cache := LocalCache.New 10000 (5 * minute) minute (1440 * minute).







Lemma New_one_endpoint : New (LocalConfig.setDefaults LocalConfig.one_endpoint) = Some cold.
Proof. reflexivity. Qed.






End ServerOps.

(** ** More of package crypto: keys, and what [Decrypt] accepts *)

Module CryptoOps.
Import Crypto.

(** [encoding/hex]: the table of digits and [EncodeToString]. *)
Definition hextable : string := "0123456789abcdef".

Definition hex_char (n : N) : ascii :=
  default "0"%char (String.get (N.to_nat n) hextable).

Definition Encode (bs : list byte) : list ascii :=
  flat_map (fun b => let v := Byte.to_N b in
                     [hex_char (N.shiftr v 4); hex_char (N.land v 15)]) bs.

Definition EncodeToString (bs : list byte) : string := string_of_list_ascii (Encode bs).

(** [GenerateKey]; [None] is the error of the random source. *)
Definition GenerateKey (rnd : nat -> option (list byte)) : option string :=
  key ← ReadFull rnd 32;
  Some (EncodeToString key).

(** A hexadecimal digit, in either case. *)
Definition is_hex_digit (c : ascii) : bool :=
  let n := N_of_ascii c in
  ((48 <=? n)%N && (n <=? 57)%N) || ((97 <=? n)%N && (n <=? 102)%N) ||
  ((65 <=? n)%N && (n <=? 70)%N).

Definition hex_string (s : string) : bool := forallb is_hex_digit (list_ascii_of_string s).

(** *** Keys *)

Lemma fromHexChar_digit c : is_hex_digit c = true <-> exists n, Hex.fromHexChar c = Some n.
Proof.
  unfold is_hex_digit, Hex.fromHexChar. cbv zeta.
  destruct ((48 <=? _)%N && _); [split; eauto|].
  destruct ((97 <=? _)%N && _); [split; eauto|].
  destruct ((65 <=? _)%N && _); [split; eauto|].
  simpl. split; [discriminate|]. intros [n Hn]. discriminate.
Qed.

Lemma decode_some_iff cs :
  (exists bs, Hex.decode cs = Some bs) <->
  Nat.even (length cs) = true /\ forallb is_hex_digit cs = true.
Proof.
  assert (H : forall n cs, (length cs < n)%nat ->
            ((exists bs, Hex.decode cs = Some bs) <->
             Nat.even (length cs) = true /\ forallb is_hex_digit cs = true)).
  { clear. induction n as [|n IH]; intros cs Hlen; [lia|].
    destruct cs as [|a [|b rest]].
    - simpl. split; eauto.
    - simpl. split; [intros [bs Hbs]; discriminate|intros [Hodd _]; discriminate].
    - change (Nat.even (length (a :: b :: rest))) with (Nat.even (length rest)).
      change (forallb is_hex_digit (a :: b :: rest))
        with (is_hex_digit a && (is_hex_digit b && forallb is_hex_digit rest)).
      simpl in Hlen. specialize (IH rest ltac:(lia)).
      change (Hex.decode (a :: b :: rest))
        with (hi ← Hex.fromHexChar a; lo ← Hex.fromHexChar b; bs ← Hex.decode rest;
              Some (byte_of_ascii (ascii_of_N (hi * 16 + lo)) :: bs)).
      pose proof (fromHexChar_digit a) as Ha. pose proof (fromHexChar_digit b) as Hb.
      destruct (Hex.fromHexChar a) as [hi|].
      2:{ cbn [mbind option_bind]. split; [intros [bs Hbs]; discriminate|].
          intros [_ Hall]. apply andb_true_iff in Hall as [Hda _].
          apply Ha in Hda as [n' Hn']. discriminate. }
      destruct (Hex.fromHexChar b) as [lo|].
      2:{ cbn [mbind option_bind]. split; [intros [bs Hbs]; discriminate|].
          intros [_ Hall]. apply andb_true_iff in Hall as [_ Hall].
          apply andb_true_iff in Hall as [Hdb _].
          apply Hb in Hdb as [n' Hn']. discriminate. }
      cbn [mbind option_bind].
      assert (Hta : is_hex_digit a = true) by (apply Ha; eauto).
      assert (Htb : is_hex_digit b = true) by (apply Hb; eauto).
      rewrite Hta, Htb. cbn [andb]. rewrite <- IH.
      destruct (Hex.decode rest) as [bs|]; cbn [mbind option_bind].
      + split; eauto.
      + split; intros [bs Hbs]; discriminate. }
  apply (H (S (length cs))). lia.
Qed.

Lemma NewCipher_outcome hexKey :
  match Hex.DecodeString hexKey with
  | None => NewCipher hexKey = inr ErrInvalidHexKey
  | Some key =>
      if Nat.eqb (length key) 32 then exists c, NewCipher hexKey = inl c
      else NewCipher hexKey = inr ErrKeyLength
  end.
Proof.
  unfold NewCipher. destruct (Hex.DecodeString hexKey) as [key|]; [|reflexivity].
  destruct (Nat.eqb (length key) 32) eqn:Hlen; [|reflexivity].
  cbv [negb]. unfold AES.NewCipher. rewrite Hlen. eauto.
Qed.

Lemma NewCipher_accepts_hex64_parts hexKey :
  ((exists c, NewCipher hexKey = inl c) <->
     String.length hexKey = 64%nat /\ hex_string hexKey = true) /\
  (NewCipher hexKey = inr ErrInvalidHexKey <->
     Nat.even (String.length hexKey) = false \/ hex_string hexKey = false) /\
  (NewCipher hexKey = inr ErrKeyLength <->
     Nat.even (String.length hexKey) = true /\ hex_string hexKey = true /\
     String.length hexKey <> 64%nat).
Proof.
  pose proof (NewCipher_outcome hexKey) as Hout.
  pose proof (decode_some_iff (list_ascii_of_string hexKey)) as Hdec.
  rewrite <- string_length_list in Hdec. fold (hex_string hexKey) in Hdec.
  fold (Hex.DecodeString hexKey) in Hdec.
  destruct (Hex.DecodeString hexKey) as [key|] eqn:Hkey.
  - destruct (proj1 Hdec (ex_intro _ key eq_refl)) as [Heven Hhex].
    pose proof (Hex.decode_length _ _ Hkey) as Hlen.
    rewrite <- string_length_list in Hlen.
    destruct (Nat.eqb_spec (length key) 32) as [H32|H32].
    + destruct Hout as [c Hc]. split; [|split].
      * split; [intros _; split; [lia|exact Hhex]|eauto].
      * rewrite Hc. split; [discriminate|]. intros [?|?]; congruence.
      * rewrite Hc. split; [discriminate|]. intros (_ & _ & ?). lia.
    + split; [|split].
      * rewrite Hout. split; [intros [c Hc]; discriminate|]. intros [? _]. lia.
      * rewrite Hout. split; [discriminate|]. intros [?|?]; congruence.
      * rewrite Hout. split; [|reflexivity]. intros _. repeat split; auto. lia.
  - assert (Hbad : Nat.even (String.length hexKey) = false \/ hex_string hexKey = false).
    { destruct (Nat.even (String.length hexKey)) eqn:He; [|auto].
      destruct (hex_string hexKey) eqn:Hh; [|auto].
      destruct (proj2 Hdec (conj eq_refl eq_refl)) as [bs Hbs]. discriminate. }
    rewrite Hout. split; [|split].
    + split; [intros [c Hc]; discriminate|]. intros [Hl Hh].
      rewrite Hl in Hbad. destruct Hbad as [?|?]; [discriminate|congruence].
    + tauto.
    + split; [discriminate|]. intros (He & Hh & _). destruct Hbad; congruence.
Qed.

(** X25.  [NewCipher] accepts a key exactly when it is 64 hexadecimal
    digits (in either case).  A key of odd length or with a character
    that is no hexadecimal digit is an invalid hex key; hexadecimal digits
    in a number other than 64 are a key of the wrong length; no other
    error occurs. *)
Theorem NewCipher_accepts_hex64 :
  forall hexKey : string,
    ((exists c, NewCipher hexKey = inl c) <->
       String.length hexKey = 64%nat /\ hex_string hexKey = true) /\
    (NewCipher hexKey = inr ErrInvalidHexKey <->
       Nat.even (String.length hexKey) = false \/ hex_string hexKey = false) /\
    (NewCipher hexKey = inr ErrKeyLength <->
       Nat.even (String.length hexKey) = true /\ hex_string hexKey = true /\
       String.length hexKey <> 64%nat) /\
    (forall c, NewCipher hexKey = inl c ->
       exists key block,
         Hex.DecodeString hexKey = Some key /\ AES.NewCipher key = Some block /\
         gcm c = GCM.NewGCM block).
Proof.
  intros hexKey.
  destruct (NewCipher_accepts_hex64_parts hexKey) as (Hacc & Hinv & Hlen).
  split; [exact Hacc|]. split; [exact Hinv|]. split; [exact Hlen|].
  intros c Hc. destruct (NewCipher_valid_key _ _ Hc) as (_ & key & block & Hk & _ & Hb & Hg).
  exists key, block. auto.
Qed.

Lemma NewCipher_accepts_hex64_witness :
  (exists c, NewCipher sample_key = inl c) /\
  NewCipher "zz" = inr ErrInvalidHexKey /\ NewCipher "abcd" = inr ErrKeyLength.
Proof.
  split; [|split].
  - apply (proj1 (NewCipher_accepts_hex64 sample_key)). split; reflexivity.
  - apply (proj1 (proj2 (NewCipher_accepts_hex64 "zz"))). right. reflexivity.
  - apply (proj1 (proj2 (proj2 (NewCipher_accepts_hex64 "abcd")))).
    repeat split. discriminate.
Defined.

(** *** Generated keys *)

Lemma decode_Encode_byte b rest :
  Hex.decode (Encode [b] ++ rest) =
  bs ← Hex.decode rest; Some (b :: bs).
Proof. destruct b; reflexivity. Qed.

Lemma decode_Encode bs : Hex.decode (Encode bs) = Some bs.
Proof.
  induction bs as [|b bs IH]; [reflexivity|].
  change (Encode (b :: bs)) with (Encode [b] ++ Encode bs).
  rewrite decode_Encode_byte, IH. reflexivity.
Qed.

Lemma hex_DecodeString_EncodeToString bs : Hex.DecodeString (EncodeToString bs) = Some bs.
Proof.
  unfold Hex.DecodeString, EncodeToString.
  rewrite list_ascii_of_string_of_list_ascii. apply decode_Encode.
Qed.

(** X26.  Hexadecimal text round-trips, and a generated key is one
    [NewCipher] accepts: when the random source delivers its 32 bytes,
    [GenerateKey] returns their 64 lower-case hexadecimal digits, which
    decode to the same bytes and from which [NewCipher] builds the cipher
    keyed with them; the only failure of [GenerateKey] is that of the
    random source. *)
Theorem GenerateKey_accepted :
  forall (rnd : nat -> option (list byte)),
    (forall bs, Hex.DecodeString (EncodeToString bs) = Some bs) /\
    (GenerateKey rnd = None <-> ReadFull rnd 32 = None) /\
    (forall hexKey, GenerateKey rnd = Some hexKey ->
       String.length hexKey = 64%nat /\
       exists key block,
         rnd 32%nat = Some key /\ Hex.DecodeString hexKey = Some key /\
         AES.NewCipher key = Some block /\
         NewCipher hexKey = inl (mkCipher (GCM.NewGCM block))).
Proof.
  intros rnd. split; [exact hex_DecodeString_EncodeToString|]. unfold GenerateKey.
  destruct (ReadFull rnd 32) as [key|] eqn:Hread; cbn [mbind option_bind].
  - split; [split; discriminate|]. intros hexKey [= <-].
    unfold ReadFull in Hread. destruct (rnd 32%nat) as [bs|] eqn:Hrnd; [|discriminate].
    cbn [mbind option_bind] in Hread.
    destruct (Nat.eqb_spec (length bs) 32) as [Hlen|]; [|discriminate].
    injection Hread as ->.
    assert (Hdec := hex_DecodeString_EncodeToString key).
    split.
    { rewrite string_length_list. apply Hex.decode_length in Hdec. lia. }
    exists key, (AES.mkBlock (AES.KeyExpansion (map Byte.to_N key))).
    split; [reflexivity|]. split; [exact Hdec|].
    assert (Haes : AES.NewCipher key =
                   Some (AES.mkBlock (AES.KeyExpansion (map Byte.to_N key)))).
    { unfold AES.NewCipher. rewrite Hlen. reflexivity. }
    split; [exact Haes|].
    unfold NewCipher. rewrite Hdec, Hlen. cbv [negb Nat.eqb]. rewrite Haes. reflexivity.
  - split; [tauto|]. discriminate.
Qed.

Lemma GenerateKey_accepted_witness :
  GenerateKey (fun n => Some (Hex.bytes sample_key)) = Some sample_key /\
  exists c, NewCipher sample_key = inl c.
Proof.
  destruct (GenerateKey_accepted (fun n => Some (Hex.bytes sample_key)))
    as (_ & _ & Hkey).
  assert (Hgen : GenerateKey (fun n => Some (Hex.bytes sample_key)) = Some sample_key)
    by (vm_compute; reflexivity).
  split; [exact Hgen|].
  destruct (Hkey sample_key Hgen) as (_ & key & block & _ & _ & _ & Hc). eauto.
Defined.

(** *** What [Decrypt] accepts *)

Lemma bytes_eqb_eq a : forall b, GCM.bytes_eqb a b = true -> a = b.
Proof.
  induction a as [|x a IH]; intros [|y b]; simpl; try discriminate; [reflexivity|].
  intros H. apply andb_true_iff in H as [Hxy Hab].
  apply Byte.byte_dec_bl in Hxy. rewrite Hxy, (IH b Hab). reflexivity.
Qed.

Lemma gcmOpen_sealed k nonce ciphertext plaintext :
  GCM.gcmOpen k [] nonce ciphertext [] = Some plaintext ->
  length nonce = 12%nat /\ length ciphertext = (length plaintext + 16)%nat /\
  GCM.gcmSeal k nonce nonce plaintext [] = Some (nonce ++ ciphertext).
Proof.
  unfold GCM.gcmOpen, GCM.gcmSeal.
  destruct (Nat.eqb_spec (length nonce) 12) as [Hn|]; [|discriminate].
  cbv [negb]. destruct (Nat.ltb_spec (length ciphertext) 16) as [|Hlen]; [discriminate|].
  cbv zeta.
  set (iv := GCM.nonce_value nonce).
  set (n := (length ciphertext - 16)%nat).
  destruct (GCM.bytes_eqb _ _) eqn:Htag; [|discriminate].
  apply bytes_eqb_eq in Htag. intros [= <-]. cbn [app].
  split; [exact Hn|].
  rewrite GCM.ctr_xor_length, length_take. split; [unfold n; lia|].
  rewrite GCM.ctr_xor_involutive, Htag, take_drop. reflexivity.
Qed.

(** X27.  With a cipher made by [NewCipher], [Decrypt] returns a plaintext
    only for an envelope that [Encrypt] makes: the decoded bytes are 28
    longer than the plaintext and are exactly what [Encrypt] produces for
    that plaintext when the random source delivers their first 12 bytes.
    Text that is not base64 is a decoding error, fewer than 12 decoded
    bytes are "ciphertext too short", and 12 to 27 bytes, too few to hold
    a tag, fail to decrypt. *)
Theorem Decrypt_accepts_only_sealed :
  forall (hexKey : string) (c : Cipher) (encoded : string),
    NewCipher hexKey = inl c ->
    match Base64.DecodeString encoded with
    | None => Decrypt c encoded = inr ErrDecodeBase64
    | Some bytes =>
        ((length bytes < 12)%nat -> Decrypt c encoded = inr ErrCiphertextTooShort) /\
        ((12 <= length bytes < 28)%nat -> Decrypt c encoded = inr ErrDecrypt) /\
        (forall plaintext, Decrypt c encoded = inl plaintext ->
           length bytes = (length plaintext + 28)%nat /\
           Encrypt c (fun _ => Some (take 12 bytes)) plaintext =
             inl (Base64.EncodeToString bytes))
    end.
Proof.
  intros hexKey c encoded Hkey.
  destruct (NewCipher_valid_key hexKey c Hkey) as (_ & key & block & _ & _ & _ & Hgcm).
  unfold Decrypt, Encrypt, ReadFull. rewrite Hgcm.
  change (GCM.NonceSize (GCM.NewGCM block)) with 12%nat.
  change (GCM.Open (GCM.NewGCM block)) with (GCM.gcmOpen block).
  change (GCM.Seal (GCM.NewGCM block)) with (GCM.gcmSeal block).
  destruct (Base64.DecodeString encoded) as [bytes|]; [|reflexivity].
  destruct (Nat.ltb_spec (length bytes) 12) as [Hshort|Hlong].
  { split; [reflexivity|]. split; [lia|discriminate]. }
  split; [lia|].
  destruct (GCM.gcmOpen block [] (take 12 bytes) (drop 12 bytes) []) as [pt|] eqn:Hopen.
  - destruct (gcmOpen_sealed _ _ _ _ Hopen) as (Hn & Hlen & Hseal).
    rewrite length_drop in Hlen. split; [intros ?; lia|].
    intros plaintext [= <-]. split; [lia|].
    cbn [mbind option_bind]. rewrite Hn. change (12 =? 12)%nat with true. cbv iota.
    rewrite Hseal, take_drop. reflexivity.
  - split; [reflexivity|discriminate].
Qed.

Lemma Decrypt_accepts_only_sealed_witness :
  Decrypt sample_cipher "yv66vvrO" = inr ErrCiphertextTooShort.
Proof.
  pose proof (Decrypt_accepts_only_sealed sample_key sample_cipher "yv66vvrO"
                NewCipher_sample_key) as H.
  assert (Hdec : Base64.DecodeString "yv66vvrO" = Some [xca; xfe; xba; xbe; xfa; xce])
    by (vm_compute; reflexivity).
  rewrite Hdec in H. destruct H as (Hshort & _). apply Hshort. simpl. lia.
Defined.

End CryptoOps.

(** ** Start-up of the local tier (command [main]) *)

Module LocalMain.
Import LocalConfig.








End LocalMain.

(** ** API-key authentication of the remote tier (package middleware) *)

Module Middleware.

(** [APIKeyAuth]: the set of keys is a Go map to [bool]; a key that is
    not in the map reads as [false]. *)
Record APIKeyAuth := mkAPIKeyAuth { validKeys : gmap string bool }.

Definition NewAPIKeyAuth (keys : list string) : APIKeyAuth :=
  mkAPIKeyAuth (fold_left (fun m key => <[key := true]> m) keys ∅).

Definition IsValidKey (a : APIKeyAuth) (key : string) : bool :=
  default false (validKeys a !! key).

Definition AddKey (a : APIKeyAuth) (key : string) : APIKeyAuth :=
  mkAPIKeyAuth (<[key := true]> (validKeys a)).

Definition RemoveKey (a : APIKeyAuth) (key : string) : APIKeyAuth :=
  mkAPIKeyAuth (delete key (validKeys a)).

Definition StatusUnauthorized : Z := 401.

Definition quote : string := String (ascii_of_nat 34) EmptyString.

(** The JSON text handed to [http.Error] with status 401 (which writes it
    followed by a newline). *)
Definition unauthorized_body : string :=
  "{" +:+ quote +:+ "error" +:+ quote +:+ ": " +:+ quote +:+ "unauthorized" +:+ quote
  +:+ ", " +:+ quote +:+ "message" +:+ quote +:+ ": " +:+ quote
  +:+ "invalid or missing API key" +:+ quote +:+ "}".

Section Handler.
(** A request, as far as the middleware reads it: [Header_Get r name] is
    [r.Header.Get(name)] and [Query_Get r name] is [r.URL.Query().Get(name)],
    both the empty string when there is no such header or parameter. *)
Variables Request Response : Type.
Variable Header_Get : Request -> string -> string.
Variable Query_Get : Request -> string -> string.

Inductive Outcome :=
| Rejected (status : Z) (body : string)
| Passed (resp : Response).

Definition presented (r : Request) : string :=
  let apiKey := Header_Get r "X-API-Key" in
  if String.eqb apiKey "" then Query_Get r "api_key" else apiKey.

(** [Middleware]: the handler it returns, applied to a request. *)
Definition Middleware (a : APIKeyAuth) (next : Request -> Response) (r : Request)
  : Outcome :=
  let apiKey := Header_Get r "X-API-Key" in
  let apiKey := if String.eqb apiKey "" then Query_Get r "api_key" else apiKey in
  if negb (IsValidKey a apiKey) then Rejected StatusUnauthorized unauthorized_body
  else Passed (next r).
End Handler.

Arguments Rejected {Response} status body.
Arguments Passed {Response} resp.

(** One change of the key set. *)
Inductive KeyOp :=
| OpAdd (key : string)
| OpRemove (key : string).

Definition apply_op (a : APIKeyAuth) (op : KeyOp) : APIKeyAuth :=
  match op with
  | OpAdd key => AddKey a key
  | OpRemove key => RemoveKey a key
  end.

(** The keys in force after the changes [ops], made in this order, to the
    configured [keys]. *)
Fixpoint in_force (keys : list string) (ops : list KeyOp) (key : string) : Prop :=
  match ops with
  | [] => In key keys
  | OpAdd k :: rest => in_force (k :: keys) rest key
  | OpRemove k :: rest => in_force (List.filter (fun k' => negb (String.eqb k' k)) keys) rest key
  end.

Definition only_true (a : APIKeyAuth) : Prop :=
  forall k b, validKeys a !! k = Some b -> b = true.

Lemma fold_insert_lookup keys : forall (m : gmap string bool) k,
  fold_left (fun m key => <[key := true]> m) keys m !! k =
  if decide (k ∈ keys) then Some true else m !! k.
Proof.
  induction keys as [|key keys IH]; intros m k; cbn [fold_left].
  - rewrite decide_False by apply not_elem_of_nil. reflexivity.
  - rewrite IH. destruct (decide (k ∈ keys)) as [Hin|Hnin].
    + rewrite decide_True by (apply elem_of_cons; auto). reflexivity.
    + destruct (decide (key = k)) as [->|Hne].
      * rewrite decide_True by (apply elem_of_cons; auto). apply lookup_insert_eq.
      * rewrite decide_False by (rewrite elem_of_cons; intros [?|?]; congruence).
        apply lookup_insert_ne, Hne.
Qed.

Lemma IsValidKey_New keys k : IsValidKey (NewAPIKeyAuth keys) k = true <-> In k keys.
Proof.
  unfold IsValidKey, NewAPIKeyAuth. cbn [validKeys]. rewrite fold_insert_lookup.
  rewrite <- list_elem_of_In.
  destruct (decide (k ∈ keys)); simpl; [tauto|].
  rewrite lookup_empty. simpl. split; [discriminate|contradiction].
Qed.

Lemma IsValidKey_AddKey a key k :
  IsValidKey (AddKey a key) k = if decide (key = k) then true else IsValidKey a k.
Proof.
  unfold IsValidKey, AddKey. cbn [validKeys].
  destruct (decide (key = k)) as [->|Hne].
  - rewrite lookup_insert_eq. reflexivity.
  - rewrite lookup_insert_ne by exact Hne. reflexivity.
Qed.

Lemma IsValidKey_RemoveKey a key k :
  IsValidKey (RemoveKey a key) k = if decide (key = k) then false else IsValidKey a k.
Proof.
  unfold IsValidKey, RemoveKey. cbn [validKeys].
  destruct (decide (key = k)) as [->|Hne].
  - rewrite lookup_delete_eq. reflexivity.
  - rewrite lookup_delete_ne by exact Hne. reflexivity.
Qed.

Lemma IsValidKey_ops ops : forall a keys,
  (forall k, IsValidKey a k = true <-> In k keys) ->
  forall k, IsValidKey (fold_left apply_op ops a) k = true <-> in_force keys ops k.
Proof.
  induction ops as [|[key|key] ops IH]; intros a keys Ha k; simpl.
  - apply Ha.
  - apply IH. intros k'. rewrite IsValidKey_AddKey. simpl.
    destruct (decide (key = k')); rewrite ?Ha; intuition.
  - apply IH. intros k'. rewrite IsValidKey_RemoveKey, filter_In.
    destruct (decide (key = k')) as [->|Hne].
    + rewrite String.eqb_refl. simpl. split; [discriminate|intros [_ ?]; discriminate].
    + rewrite Ha. destruct (String.eqb_spec k' key); [congruence|]. simpl. tauto.
Qed.

(** X29.  The middleware passes a request on exactly when the key it
    presents is in force, and otherwise answers 401 without calling the
    next handler.  The key presented is the [X-API-Key] header and, only
    when that is empty, the [api_key] query parameter.  The keys in force
    are the configured ones as changed by [AddKey] and [RemoveKey] since:
    a removed key is refused however often it was listed.  A request that
    presents no key at all is passed on exactly when the empty string is
    among the keys in force. *)
Theorem auth_passes_keys_in_force :
  forall (Request Response : Type)
         (Header_Get Query_Get : Request -> string -> string)
         (keys : list string) (ops : list KeyOp)
         (next : Request -> Response) (r : Request),
    let a := fold_left apply_op ops (NewAPIKeyAuth keys) in
    let run := Middleware Request Response Header_Get Query_Get a next r in
    (in_force keys ops (presented Request Header_Get Query_Get r) ->
       run = Passed (next r)) /\
    (~ in_force keys ops (presented Request Header_Get Query_Get r) ->
       run = Rejected StatusUnauthorized unauthorized_body) /\
    (Header_Get r "X-API-Key" <> "" ->
       presented Request Header_Get Query_Get r = Header_Get r "X-API-Key") /\
    (Header_Get r "X-API-Key" = "" ->
       presented Request Header_Get Query_Get r = Query_Get r "api_key") /\
    (forall k, in_force keys (ops ++ [OpRemove k]) k -> False) /\
    (forall k, in_force keys (ops ++ [OpAdd k]) k).
Proof.
  intros Request Response Header_Get Query_Get keys ops next r a run.
  assert (Hvalid : forall ops' k,
            IsValidKey (fold_left apply_op ops' (NewAPIKeyAuth keys)) k = true <->
            in_force keys ops' k).
  { intros ops' k. apply IsValidKey_ops. intros k'. apply IsValidKey_New. }
  split; [|split; [|split; [|split; [|split]]]].
  - intros Hin. apply Hvalid in Hin. unfold run, Middleware. fold a in Hin.
    unfold presented in Hin. rewrite Hin. reflexivity.
  - intros Hnot. unfold run, Middleware.
    destruct (IsValidKey a _) eqn:Hk; [|reflexivity].
    exfalso. apply Hnot, Hvalid. exact Hk.
  - intros Hh. unfold presented.
    destruct (String.eqb_spec (Header_Get r "X-API-Key") ""); [contradiction|reflexivity].
  - intros Hh. unfold presented. rewrite Hh. reflexivity.
  - intros k Hin. apply Hvalid in Hin. rewrite fold_left_app in Hin. simpl in Hin.
    rewrite IsValidKey_RemoveKey in Hin. rewrite decide_True in Hin by reflexivity.
    discriminate.
  - intros k. apply Hvalid. rewrite fold_left_app. simpl.
    rewrite IsValidKey_AddKey. rewrite decide_True by reflexivity. reflexivity.
Qed.

(** A request: the header and the query parameter. *)
Definition sample_header (r : string * string) (name : string) : string :=
  if String.eqb name "X-API-Key" then r.1 else "".

Definition sample_query (r : string * string) (name : string) : string :=
  if String.eqb name "api_key" then r.2 else "".

Lemma auth_passes_keys_in_force_witness :
  Middleware (string * string) string sample_header sample_query
    (fold_left apply_op [OpRemove "k1"] (NewAPIKeyAuth ["k1"; "k2"; "k1"]))
    (fun _ => "served") ("", "k2") = Passed "served" /\
  Middleware (string * string) string sample_header sample_query
    (fold_left apply_op [OpRemove "k1"] (NewAPIKeyAuth ["k1"; "k2"; "k1"]))
    (fun _ => "served") ("k1", "k2") = Rejected StatusUnauthorized unauthorized_body.
Proof.
  destruct (auth_passes_keys_in_force (string * string) string
              sample_header sample_query ["k1"; "k2"; "k1"] [OpRemove "k1"]
              (fun _ => "served") ("", "k2")) as (Hpass & _).
  destruct (auth_passes_keys_in_force (string * string) string
              sample_header sample_query ["k1"; "k2"; "k1"] [OpRemove "k1"]
              (fun _ => "served") ("k1", "k2")) as (_ & Hrej & _).
  split.
  - apply Hpass. simpl. auto.
  - apply Hrej. simpl. intros [H|[]]. discriminate H.
Defined.

End Middleware.

(** ** The configuration of the remote tier (package config) and the
    resolver built from it *)

Module RemoteConfig.

(** A [float64], as far as the configuration goes: a zero of either sign
    or some other value, given by its bits. *)
Inductive float64 :=
| F_zero (negative : bool)
| F_other (bits : positive).

Definition float_is_zero (x : float64) : bool :=
  match x with
  | F_zero _ => true
  | F_other _ => false
  end.

(** 100 and its bits, [0x4059000000000000]. *)
Definition float_100 : float64 := F_other 4636737291354636288.

Record ServerConfig := mkServerConfig {
  Host : string;
  Port : Z;
  TLSCertFile : string;
  TLSKeyFile : string;
  ReadTimeout : Z;
  WriteTimeout : Z;
  IdleTimeout : Z
}.

Record ResolverConfig := mkResolverConfig {
  Upstreams : list string;
  Timeout : Z;
  MaxRetries : Z;
  CacheEnabled : bool;
  CacheTTL : Z;
  CacheMaxItems : Z
}.

Record SecurityConfig := mkSecurityConfig {
  APIKeys : list string;
  EncryptionEnabled : bool;
  EncryptionKey : string;
  RateLimitEnabled : bool;
  RateLimitPerSec : float64;
  RateLimitBurst : Z
}.

Record LoggingConfig := mkLoggingConfig {
  Level : string;
  Format : string;
  OutputFile : string
}.

Record Config := mkConfig {
  Server : ServerConfig;
  Resolver : ResolverConfig;
  Security : SecurityConfig;
  Logging : LoggingConfig
}.

Definition Second : Z := 1000000000.
Definition Minute : Z := 60 * Second.

Definition or_default (x d : Z) : Z := if x =? 0 then d else x.
Definition or_default_str (s d : string) : string := if String.eqb s "" then d else s.

Definition setDefaults (c : Config) : Config :=
  mkConfig
    (mkServerConfig
       (or_default_str (Host (Server c)) "0.0.0.0")
       (or_default (Port (Server c)) 8443)
       (TLSCertFile (Server c))
       (TLSKeyFile (Server c))
       (or_default (ReadTimeout (Server c)) (30 * Second))
       (or_default (WriteTimeout (Server c)) (30 * Second))
       (or_default (IdleTimeout (Server c)) (120 * Second)))
    (mkResolverConfig
       (if (length (Upstreams (Resolver c)) =? 0)%nat
        then ["8.8.8.8:53"; "1.1.1.1:53"; "8.8.4.4:53"]
        else Upstreams (Resolver c))
       (or_default (Timeout (Resolver c)) (5 * Second))
       (or_default (MaxRetries (Resolver c)) 3)
       (CacheEnabled (Resolver c))
       (or_default (CacheTTL (Resolver c)) (5 * Minute))
       (or_default (CacheMaxItems (Resolver c)) 10000))
    (mkSecurityConfig
       (APIKeys (Security c))
       (EncryptionEnabled (Security c))
       (EncryptionKey (Security c))
       (RateLimitEnabled (Security c))
       (if float_is_zero (RateLimitPerSec (Security c)) then float_100
        else RateLimitPerSec (Security c))
       (or_default (RateLimitBurst (Security c)) 200))
    (mkLoggingConfig
       (or_default_str (Level (Logging c)) "info")
       (or_default_str (Format (Logging c)) "json")
       (OutputFile (Logging c))).

Inductive ValidateError :=
| ErrNoAPIKey
| ErrEncryptionKeyLength.

Definition validate (c : Config) : option ValidateError :=
  if (length (APIKeys (Security c)) =? 0)%nat then Some ErrNoAPIKey
  else if EncryptionEnabled (Security c) &&
          negb (String.length (EncryptionKey (Security c)) =? 64)%nat
  then Some ErrEncryptionKeyLength
  else None.

(** [Load], from the point where the file has been read and parsed. *)
Definition Load (parsed : Config) : Config + ValidateError :=
  let cfg := setDefaults parsed in
  match validate cfg with
  | Some err => inr err
  | None => inl cfg
  end.

(** [resolver.New], on the configuration [server.New] hands it. *)
Definition New (cfg : Config) : RemoteResolve.Resolver_ :=
  let rc := Resolver cfg in
  RemoteResolve.mkResolver (Upstreams rc) (MaxRetries rc)
    (if CacheEnabled rc then Some (RemoteCache.NewCache (CacheMaxItems rc) (CacheTTL rc))
     else None).

(** X30.  The remote [Load] accepts a file exactly when it lists at least
    one API key and, with encryption on, a key of 64 characters; what the
    keys are is not looked at, so an empty key is accepted and is then in
    force in the middleware.  The resolver built from an accepted
    configuration has the upstreams of the file, or the three public
    resolvers when the file names none, a retry budget other than zero,
    and a cache, when enabled, with a capacity and a lifetime other than
    zero. *)
Theorem remote_Load_accepted :
  forall parsed : Config,
    ((exists cfg, Load parsed = inl cfg) <->
       APIKeys (Security parsed) <> [] /\
       (EncryptionEnabled (Security parsed) = true ->
        String.length (EncryptionKey (Security parsed)) = 64%nat)) /\
    (forall cfg, Load parsed = inl cfg ->
       cfg = setDefaults parsed /\
       (forall k, Middleware.IsValidKey (Middleware.NewAPIKeyAuth (APIKeys (Security cfg))) k
                  = true <-> In k (APIKeys (Security parsed))) /\
       RemoteResolve.upstreams (New cfg) <> [] /\
       (Upstreams (Resolver parsed) <> [] ->
        RemoteResolve.upstreams (New cfg) = Upstreams (Resolver parsed)) /\
       (Upstreams (Resolver parsed) = [] ->
        RemoteResolve.upstreams (New cfg) = ["8.8.8.8:53"; "1.1.1.1:53"; "8.8.4.4:53"]) /\
       RemoteResolve.maxRetries (New cfg) <> 0 /\
       (CacheEnabled (Resolver parsed) = false -> RemoteResolve.cache (New cfg) = None) /\
       (CacheEnabled (Resolver parsed) = true ->
        exists c, RemoteResolve.cache (New cfg) = Some c /\
                  RemoteCache.items c = ∅ /\
                  RemoteCache.maxItems c <> 0 /\ RemoteCache.ttl c <> 0)).
Proof.
  intros parsed. unfold Load, validate.
  cbn [setDefaults Security APIKeys EncryptionEnabled EncryptionKey].
  destruct (APIKeys (Security parsed)) as [|k0 ks] eqn:Hkeys.
  { simpl. split; [|discriminate].
    split; [intros [cfg Hcfg]; discriminate|intros [Hne _]; congruence]. }
  change ((length (k0 :: ks) =? 0)%nat) with false. cbv iota.
  assert (Hnz : forall x d, d <> 0 -> or_default x d <> 0).
  { intros x d Hd. unfold or_default. destruct (Z.eqb_spec x 0); congruence. }
  assert (Hbuilt : forall cfg, cfg = setDefaults parsed ->
    cfg = setDefaults parsed /\
    (forall k, Middleware.IsValidKey (Middleware.NewAPIKeyAuth (APIKeys (Security cfg))) k
               = true <-> In k (k0 :: ks)) /\
    RemoteResolve.upstreams (New cfg) <> [] /\
    (Upstreams (Resolver parsed) <> [] ->
     RemoteResolve.upstreams (New cfg) = Upstreams (Resolver parsed)) /\
    (Upstreams (Resolver parsed) = [] ->
     RemoteResolve.upstreams (New cfg) = ["8.8.8.8:53"; "1.1.1.1:53"; "8.8.4.4:53"]) /\
    RemoteResolve.maxRetries (New cfg) <> 0 /\
    (CacheEnabled (Resolver parsed) = false -> RemoteResolve.cache (New cfg) = None) /\
    (CacheEnabled (Resolver parsed) = true ->
     exists c, RemoteResolve.cache (New cfg) = Some c /\
               RemoteCache.items c = ∅ /\
               RemoteCache.maxItems c <> 0 /\ RemoteCache.ttl c <> 0)).
  { intros cfg ->. split; [reflexivity|].
    unfold New.
    cbn [setDefaults Security Resolver APIKeys Upstreams MaxRetries CacheEnabled
         CacheTTL CacheMaxItems RemoteResolve.upstreams RemoteResolve.maxRetries
         RemoteResolve.cache].
    rewrite Hkeys.
    split; [intros k; apply Middleware.IsValidKey_New|].
    destruct (Upstreams (Resolver parsed)) as [|u us] eqn:Hups.
    - simpl. split; [discriminate|]. split; [congruence|]. split; [reflexivity|].
      split; [apply Hnz; discriminate|].
      split; [intros ->; reflexivity|]. intros ->.
      eexists. split; [reflexivity|]. split; [reflexivity|].
      split; apply Hnz; discriminate.
    - simpl. split; [discriminate|]. split; [reflexivity|]. split; [discriminate|].
      split; [apply Hnz; discriminate|].
      split; [intros ->; reflexivity|]. intros ->.
      eexists. split; [reflexivity|]. split; [reflexivity|].
      split; apply Hnz; discriminate. }
  destruct (EncryptionEnabled (Security parsed)) eqn:Hen; simpl.
  - destruct (Nat.eqb_spec (String.length (EncryptionKey (Security parsed))) 64)
      as [Hl|Hl]; simpl.
    + split; [split; [intros _; split; [discriminate|auto]|eauto]|].
      intros cfg [= <-]. apply Hbuilt. reflexivity.
    + split; [|discriminate].
      split; [intros [cfg Hcfg]; discriminate|]. intros [_ Hk]. specialize (Hk eq_refl).
      contradiction.
  - split; [split; [intros _; split; [discriminate|discriminate]|eauto]|].
    intros cfg [= <-]. apply Hbuilt. reflexivity.
Qed.

Definition blank_key : Config :=
  mkConfig (mkServerConfig "" 0 "" "" 0 0 0)
    (mkResolverConfig [] 0 0 true 0 0)
    (mkSecurityConfig [""] false "" false (F_zero false) 0)
    (mkLoggingConfig "" "" "").

Lemma remote_Load_accepted_witness :
  exists cfg,
    Load blank_key = inl cfg /\
    Middleware.IsValidKey (Middleware.NewAPIKeyAuth (APIKeys (Security cfg))) "" = true /\
    RemoteResolve.upstreams (New cfg) = ["8.8.8.8:53"; "1.1.1.1:53"; "8.8.4.4:53"].
Proof.
  destruct (remote_Load_accepted blank_key) as [Hacc Hbuilt].
  destruct (proj2 Hacc) as [cfg Hcfg].
  { split; [discriminate|discriminate]. }
  destruct (Hbuilt cfg Hcfg) as (_ & Hkeys & _ & _ & Hups & _).
  exists cfg. split; [exact Hcfg|]. split.
  - apply Hkeys. simpl. auto.
  - apply Hups. reflexivity.
Defined.

End RemoteConfig.
